(** * s3ro: a read-only view of an object store under a local root

    A shallow embedding of the path jail ([pkg/remotefs/fs.go]), the bounded
    on-disk LRU cache ([pkg/cache/cache.go]), the POSIX attribute synthesis of
    the IPC server ([pkg/remotefs/ipc.go]) and the read-only gate of the
    LD_PRELOAD shim ([shim/ldpreload/remotefs_shim.c]).

    Go strings are byte sequences: they are modelled as [list ascii].  Paths
    use the Unix separator, so [filepath.Clean] and [path.Clean] coincide and
    [filepath.ToSlash]/[filepath.FromSlash] are the identity. *)

From Stdlib Require Import ZArith List Ascii String Lia Bool.
From stdpp Require Import base decidable option list gmap strings.

Local Open Scope Z_scope.
Local Open Scope list_scope.

#[local] Arguments Ascii.eqb : simpl never.

(** * Part I: the model *)

(** ** Go strings *)

Abbreviation gostring := (list ascii).

Definition str (s : string) : gostring := list_ascii_of_string s.

Module GoStrings.

Definition slash : ascii := "/"%char.
Definition dot : ascii := "."%char.

(** [strings.HasPrefix]. *)
Fixpoint HasPrefix (s p : gostring) {struct p} : bool :=
  match p, s with
  | [], _ => true
  | _ :: _, [] => false
  | c :: p', d :: s' => if Ascii.eqb c d then HasPrefix s' p' else false
  end.

(** [strings.TrimPrefix]: drops [p] once when [s] starts with it. *)
Definition TrimPrefix (s p : gostring) : gostring :=
  if HasPrefix s p then drop (length p) s else s.

(** [strings.TrimLeft(s, "/")]: drops every leading separator. *)
Fixpoint TrimLeftSlash (s : gostring) : gostring :=
  match s with
  | c :: s' => if Ascii.eqb c slash then TrimLeftSlash s' else s
  | [] => []
  end.

(** The six ASCII bytes [unicode.IsSpace] accepts: tab, line feed, vertical
    tab, form feed, carriage return and space. *)
Definition asciiSpace (c : ascii) : bool :=
  let n := nat_of_ascii c in
  ((9 <=? n)%nat && (n <=? 13)%nat) || (n =? 32)%nat.

Definition bytes (l : list nat) : gostring := map ascii_of_nat l.

(** The UTF-8 encodings of the other runes with the White_Space property:
    U+0085, U+00A0, U+1680, U+2000..U+200A, U+2028, U+2029, U+202F, U+205F
    and U+3000.  A rune has one valid encoding, so a string starts (ends)
    with a space rune exactly when it starts (ends) with one of these byte
    sequences or with an ASCII space. *)
Definition unicodeSpace : list gostring :=
  map bytes
    [ [194; 133]; [194; 160]; [225; 154; 128];
      [226; 128; 128]; [226; 128; 129]; [226; 128; 130]; [226; 128; 131];
      [226; 128; 132]; [226; 128; 133]; [226; 128; 134]; [226; 128; 135];
      [226; 128; 136]; [226; 128; 137]; [226; 128; 138];
      [226; 128; 168]; [226; 128; 169]; [226; 128; 175];
      [226; 129; 159]; [227; 128; 128] ]%nat.

(** One space rune off the front of [s], if there is one. *)
Definition stripSpace (encs : list gostring) (s : gostring) : option gostring :=
  match s with
  | [] => None
  | c :: s' =>
      if asciiSpace c then Some s'
      else
        match find (HasPrefix s) encs with
        | Some e => Some (drop (length e) s)
        | None => None
        end
  end.

Fixpoint trimSpaces (encs : list gostring) (n : nat) (s : gostring) : gostring :=
  match n with
  | O => s
  | S n' =>
      match stripSpace encs s with
      | Some s' => trimSpaces encs n' s'
      | None => s
      end
  end.

(** [strings.TrimSpace]: leading space runes are removed first, then the
    trailing ones (read backwards, so against the reversed encodings). *)
Definition TrimSpace (s : gostring) : gostring :=
  let l := trimSpaces unicodeSpace (length s) s in
  rev (trimSpaces (map (@rev ascii) unicodeSpace) (length l) (rev l)).

(** [strings.Split(s, "/")]. *)
Fixpoint split_slash (s : gostring) : list gostring :=
  match s with
  | [] => [[]]
  | c :: s' =>
      if Ascii.eqb c slash then [] :: split_slash s'
      else
        match split_slash s' with
        | seg :: rest => (c :: seg) :: rest
        | [] => [[c]]
        end
  end.

(** [strings.Join(segs, "/")]. *)
Fixpoint join_slash (segs : list gostring) : gostring :=
  match segs with
  | [] => []
  | [s] => s
  | s :: rest => s ++ slash :: join_slash rest
  end.

(** [strings.HasSuffix]. *)
Definition HasSuffix (s suffix : gostring) : bool := HasPrefix (rev s) (rev suffix).

(** [strings.TrimSuffix]: drops [suffix] once when [s] ends with it. *)
Definition TrimSuffix (s suffix : gostring) : gostring :=
  if HasSuffix s suffix then take (length s - length suffix) s else s.

(** [strings.TrimRight(s, "/")]: drops every trailing separator. *)
Definition TrimRightSlash (s : gostring) : gostring := rev (TrimLeftSlash (rev s)).

(** [strings.Trim(s, "/")]: the trailing separators go first, then the
    leading ones. *)
Definition TrimSlash (s : gostring) : gostring := TrimLeftSlash (TrimRightSlash s).

(** [strings.Contains(s, "/")], which is [strings.Index(s, "/") != -1]. *)
Definition ContainsSlash (s : gostring) : bool := existsb (fun c => Ascii.eqb c slash) s.

End GoStrings.

(** ** [path.Clean] *)

Module GoPath.
Import GoStrings.

Definition dotdot : gostring := [dot; dot].

Definition is_dotdot (seg : gostring) : bool := bool_decide (seg = dotdot).

(** One path element read by [Clean].  [out] holds the elements written so
    far, the last one first; [rooted] says the path began with a separator.
    An empty or [.] element is skipped; [..] removes the element before it
    when there is one that is not itself a kept [..], is appended when the
    path is not rooted, and is dropped at the root; any other element is
    appended. *)
Definition clean_step (rooted : bool) (out : list gostring) (seg : gostring)
  : list gostring :=
  if bool_decide (seg = []) || bool_decide (seg = [dot]) then out
  else if is_dotdot seg then
    match out with
    | top :: rest =>
        if is_dotdot top then (if rooted then out else seg :: out) else rest
    | [] => if rooted then out else [seg]
    end
  else seg :: out.

Definition is_rooted (p : gostring) : bool :=
  match p with
  | c :: _ => Ascii.eqb c slash
  | [] => false
  end.

(** [path.Clean] (and, with the Unix separator, [filepath.Clean]): the
    shortest path equivalent to [p] by purely lexical processing. *)
Definition Clean (p : gostring) : gostring :=
  match p with
  | [] => [dot]
  | _ =>
      let rooted := is_rooted p in
      let out := fold_left (clean_step rooted) (split_slash p) [] in
      match out, rooted with
      | [], true => [slash]
      | [], false => [dot]
      | _, true => slash :: join_slash (rev out)
      | _, false => join_slash (rev out)
      end
  end.

(** [filepath.Join] of two elements: the first non-empty element onwards is
    joined with the separator and cleaned. *)
Definition Join (a b : gostring) : gostring :=
  match a, b with
  | [], [] => []
  | [], _ => Clean b
  | _, _ => Clean (a ++ slash :: b)
  end.

End GoPath.

(** ** Errors and results *)

(** Go's [error] values, as far as the code tells them apart:
    [objectstore.NotFoundError] (anything [objectstore.IsNotFound] accepts),
    [remotefs.NotFoundError] with the rendered local path, the cache's
    capacity error (the [fmt.Errorf] of [ensureCapacity], with its two
    numbers) and every other error with its message. *)
Inductive error : Type :=
| StoreNotFound (key : gostring)
| NotFoundError (path : gostring)
| CapacityError (maxBytes exceeded : Z)
| Errorf (msg : gostring).

(** A Go [(value, error)] return. *)
Inductive result (A : Type) : Type :=
| Ok (a : A)
| Err (e : error).
Arguments Ok {A} a.
Arguments Err {A} e.

Definition is_ok {A} (r : result A) : bool :=
  match r with Ok _ => true | Err _ => false end.

(** ** [pkg/objectstore]: the store interface *)

Module Objectstore.

(** [time.Time] as the offset from the zero instant. *)
Definition Time := Z.
Definition IsZero (t : Time) : bool := Z.eqb t 0.

Record FileMeta : Type := mkFileMeta {
  Path : gostring;
  Size : Z;
  ETag : gostring;
  LastModified : Time;
  IsDir : bool
}.

(** The zero value [FileMeta{}]. *)
Definition zeroMeta : FileMeta := mkFileMeta [] 0 [] 0 false.

(** [FileMeta{Path: p, IsDir: true}]. *)
Definition dirMeta (p : gostring) : FileMeta := mkFileMeta p 0 [] 0 true.

(** [objectstore.IsNotFound]. *)
Definition IsNotFound (e : error) : bool :=
  match e with StoreNotFound _ => true | _ => false end.

(** The [ObjectStore] interface over a world [W] (the backend and whatever
    else the calls can observe or change). *)
Record ObjectStore (W : Type) : Type := {
  Head : gostring -> W -> result FileMeta * W;
  List : gostring -> W -> result (list FileMeta) * W
}.
Arguments Head {W} _ _ _.
Arguments List {W} _ _ _.

(** A [context.Context]: [Done] gives [ctx.Err()] once it is cancelled. *)
Record Context (W : Type) : Type := {
  Done : W -> option error
}.
Arguments Done {W} _ _.

End Objectstore.

(** ** [pkg/remotefs]: the filesystem facade *)

Module RemoteFS.
Import GoStrings GoPath Objectstore.

(** The fields of [FileSystem] the operations below read or write: the
    normalised root and the warm metadata map ([None] is nil). *)
Record FileSystem : Type := mkFS {
  localRoot : gostring;
  meta : option (gmap gostring FileMeta)
}.

(** The root normalisation of [New]: trimmed, cleaned, and [.] read as no
    root. *)
Definition normalizeRoot (cfgLocalRoot : gostring) : gostring :=
  let root := TrimSpace cfgLocalRoot in
  if bool_decide (root = []) then []
  else
    let root := Clean root in
    if bool_decide (root = [dot]) then [] else root.

(** [New], once [cache.New] has made the cache directory: the root is
    normalised and the metadata map is nil.  The store and the cache are
    given to the operations that use them. *)
Definition New (cfgLocalRoot : gostring) : FileSystem :=
  mkFS (normalizeRoot cfgLocalRoot) None.

(** [FileSystem.joinLocal]. *)
Definition joinLocal (fs : FileSystem) (rel : gostring) : gostring :=
  match localRoot fs with
  | [] =>
      match rel with
      | [] => [slash]
      | _ => Join [slash] rel
      end
  | root =>
      match rel with
      | [] => root
      | _ => Join root rel
      end
  end.

(** The tail of [sanitize]: the in-root remainder is cleaned once more, one
    leading separator is dropped and [.] becomes the empty key. *)
Definition relOf (target : gostring) : gostring :=
  let rel := Clean target in
  let rel := TrimPrefix rel [slash] in
  if bool_decide (rel = [dot]) then [] else rel.

(** [FileSystem.sanitize]. *)
Definition sanitize (fs : FileSystem) (local : gostring) : result gostring :=
  let local := TrimSpace local in
  if bool_decide (local = []) then Err (Errorf (str "empty path"))
  else
    let target := Clean local in
    let root := localRoot fs in
    if bool_decide (root <> []) then
      if bool_decide (target <> root) then
        let prefix := root ++ [slash] in
        if negb (HasPrefix target prefix) then
          Err (Errorf (str "path " ++ target ++ str " outside of " ++ root))
        else Ok (relOf (TrimPrefix target prefix))
      else Ok (relOf [])
    else Ok (relOf (TrimLeftSlash target)).

(** The store calls an operation makes, in order, each with what it
    returned. *)
Inductive StoreCall : Type :=
| CallHead (key : gostring) (r : result FileMeta)
| CallList (key : gostring) (r : result (list FileMeta)).

(** The world an operation runs in: the environment behind the store and
    the context, and the log of store calls made so far. *)
Record World (W : Type) : Type := mkWorld {
  env : W;
  calls : list StoreCall
}.
Arguments mkWorld {W} _ _.
Arguments env {W} _.
Arguments calls {W} _.

Definition callHead {W} (store : ObjectStore W) (key : gostring) (w : World W)
  : result FileMeta * World W :=
  let '(r, e) := Head store key (env w) in
  (r, mkWorld e (calls w ++ [CallHead key r])).

Definition callList {W} (store : ObjectStore W) (key : gostring) (w : World W)
  : result (list FileMeta) * World W :=
  let '(r, e) := List store key (env w) in
  (r, mkWorld e (calls w ++ [CallList key r])).

(** [FileSystem.cachedMeta]. *)
Definition cachedMeta (fs : FileSystem) (rel : gostring) : option FileMeta :=
  match meta fs with
  | None => None
  | Some m => m !! rel
  end.

(** [FileSystem.Stat]. *)
Definition Stat {W} (store : ObjectStore W) (fs : FileSystem) (local : gostring)
    (w : World W) : result FileMeta * World W :=
  match sanitize fs local with
  | Err e => (Err e, w)
  | Ok rel =>
      if bool_decide (rel = []) then (Ok (dirMeta []), w)
      else
        let absPath := joinLocal fs rel in
        match cachedMeta fs rel with
        | Some m => (Ok m, w)
        | None =>
            let '(r, w1) := callHead store rel w in
            match r with
            | Ok m => (Ok m, w1)
            | Err err =>
                if negb (IsNotFound err) then (Err err, w1)
                else
                  let '(lr, w2) := callList store rel w1 in
                  match lr with
                  | Ok (_ :: _) => (Ok (dirMeta rel), w2)
                  | Ok [] => (Err (NotFoundError absPath), w2)
                  | Err listErr =>
                      if negb (IsNotFound listErr) then (Err listErr, w2)
                      else (Err (NotFoundError absPath), w2)
                  end
            end
        end
  end.

(** [FileSystem.ReadDir]. *)
Definition ReadDir {W} (store : ObjectStore W) (fs : FileSystem) (local : gostring)
    (w : World W) : result (list FileMeta) * World W :=
  match sanitize fs local with
  | Err e => (Err e, w)
  | Ok rel =>
      let '(r, w1) := callList store rel w in
      match r with
      | Err listErr =>
          if IsNotFound listErr || bool_decide (rel <> [])
          then (Err (NotFoundError (joinLocal fs rel)), w1)
          else (Err listErr, w1)
      | Ok items =>
          if bool_decide (rel <> []) && bool_decide (length items = O)
          then (Err (NotFoundError (joinLocal fs rel)), w1)
          else (Ok items, w1)
      end
  end.

(** The [for _, item := range items] loop of [populateMetadata]; [rec] is
    the recursive call.  [dst] is the caller's map, updated in place. *)
Fixpoint rangeItems {W}
    (rec : gostring -> gmap gostring FileMeta -> World W ->
           option (option error * gmap gostring FileMeta * World W))
    (items : list FileMeta) (dst : gmap gostring FileMeta) (w : World W)
  : option (option error * gmap gostring FileMeta * World W) :=
  match items with
  | [] => Some (None, dst, w)
  | item :: rest =>
      let dst1 := <[Path item := item]> dst in
      if IsDir item then
        match rec (Path item) dst1 w with
        | None => None
        | Some (Some e, d, w') => Some (Some e, d, w')
        | Some (None, d, w') => rangeItems rec rest d w'
        end
      else rangeItems rec rest dst1 w
  end.

(** [FileSystem.populateMetadata].  The recursion follows the store's
    listings, so it is bounded by [fuel] (the depth it may reach); [None]
    is a walk that did not finish within it.  The results are the error
    returned ([None] for nil), the map as the walk left it and the world. *)
Fixpoint populateMetadata {W} (fuel : nat) (ctx : Context W) (store : ObjectStore W)
    (rel : gostring) (dst : gmap gostring FileMeta) (w : World W)
  : option (option error * gmap gostring FileMeta * World W) :=
  match fuel with
  | O => None
  | S fuel' =>
      match Done ctx (env w) with
      | Some e => Some (Some e, dst, w)
      | None =>
          let '(r, w1) := callList store rel w in
          match r with
          | Err err =>
              if IsNotFound err then Some (None, dst, w1) else Some (Some err, dst, w1)
          | Ok items => rangeItems (populateMetadata fuel' ctx store) items dst w1
          end
      end
  end.

(** [FileSystem.WarmMetadataCache]: the one assignment to [fs.meta] happens
    after a walk that returned nil. *)
Definition WarmMetadataCache {W} (fuel : nat) (ctx : Context W) (store : ObjectStore W)
    (fs : FileSystem) (w : World W) : option (option error * FileSystem * World W) :=
  let entries : gmap gostring FileMeta := <[ [] := dirMeta [] ]> ∅ in
  match populateMetadata fuel ctx store [] entries w with
  | None => None
  | Some (Some err, _, w') => Some (Some err, fs, w')
  | Some (None, entries', w') => Some (None, mkFS (localRoot fs) (Some entries'), w')
  end.

(** The lexical canonicalization [sanitize] compares with the root: the
    trimmed input, cleaned. *)
Definition canonical (local : gostring) : gostring := Clean (TrimSpace local).

(** A well-formed relative key: no leading separator and no [.] or [..]
    element (the empty key is the root). *)
Definition wellformed (rel : gostring) : bool :=
  negb (is_rooted rel)
  && forallb (fun seg => negb (bool_decide (seg = [dot])) && negb (is_dotdot seg))
       (split_slash rel).

End RemoteFS.

(** ** [pkg/cache]: the bounded on-disk LRU cache *)

Module Cache.
Import GoStrings GoPath.

(** Go's [int64] arithmetic wraps around. *)
Definition wrap64 (z : Z) : Z := (z + 2 ^ 63) mod 2 ^ 64 - 2 ^ 63.

(** A [cacheEntry]; its list element is the occurrence of its key in
    [order]. *)
Record cacheEntry : Type := mkEntry {
  path : gostring;
  size : Z
}.

(** A [Cache]: [order] is the LRU list, most recently used first. *)
Record Cache : Type := mkCache {
  dir : gostring;
  maxBytes : Z;
  entries : gmap gostring cacheEntry;
  order : list gostring;
  used : Z
}.

(** The files that exist on disk. *)
Abbreviation Disk := (gset gostring).

(** [New], once [os.MkdirAll] has succeeded. *)
Definition New (dir : gostring) (maxBytes : Z) : Cache :=
  mkCache dir maxBytes ∅ [] 0.

(** What the environment does during one [LoadOrCreate] of a missing key:
    [os.OpenFile] fails, the fetch callback fails, [file.Stat] fails, or the
    fetch succeeds and leaves a file of the given size. *)
Inductive FetchOutcome : Type :=
| OpenFails (msg : gostring)
| FetchFails (e : error)
| StatFails (msg : gostring)
| Fetched (size : Z).

(** [list.Remove] of the element holding [key]. *)
Fixpoint removeElem (key : gostring) (l : list gostring) : list gostring :=
  match l with
  | [] => []
  | k :: l' => if bool_decide (k = key) then l' else k :: removeElem key l'
  end.

(** [list.MoveToFront] of the element holding [key]. *)
Definition MoveToFront (key : gostring) (l : list gostring) : list gostring :=
  key :: removeElem key l.

Section WithHash.

(** [hex.EncodeToString(sha256.Sum256(key))], left abstract. *)
Variable sha256hex : gostring -> gostring.

(** [Cache.keyPath]. *)
Definition keyPath (c : Cache) (key : gostring) : gostring :=
  Join (dir c) (sha256hex key).

(** The loop of [ensureCapacity]: one iteration per unit of [n].  It is run
    with [n] the length of the list, which each iteration shortens by one.
    [None] is the nil dereference of an entry missing from the map. *)
Fixpoint evict (n : nat) (c : Cache) (d : Disk) (need : Z) : option (Cache * Disk) :=
  match n with
  | O => Some (c, d)
  | S n' =>
      if (maxBytes c <? wrap64 (used c + need)) && negb (bool_decide (order c = [])) then
        match last (order c) with
        | None => Some (c, d)
        | Some key =>
            match entries c !! key with
            | None => None
            | Some entry =>
                evict n'
                  (mkCache (dir c) (maxBytes c) (delete key (entries c))
                     (removelast (order c)) (wrap64 (used c - size entry)))
                  (d ∖ {[path entry]}) need
            end
        end
      else Some (c, d)
  end.

(** [Cache.ensureCapacity]. *)
Definition ensureCapacity (c : Cache) (d : Disk) (need : Z)
  : option (option error * Cache * Disk) :=
  if maxBytes c <=? 0 then Some (None, c, d)
  else
    match evict (length (order c)) c d need with
    | None => None
    | Some (c1, d1) =>
        if maxBytes c1 <? wrap64 (used c1 + need)
        then Some (Some (CapacityError (maxBytes c1) (wrap64 (used c1 + need))), c1, d1)
        else Some (None, c1, d1)
    end.

(** [Cache.LoadOrCreate], run without interleaving. *)
Definition LoadOrCreate (c : Cache) (d : Disk) (key : gostring) (o : FetchOutcome)
  : option (result gostring * Cache * Disk) :=
  match entries c !! key with
  | Some entry =>
      Some (Ok (path entry),
            mkCache (dir c) (maxBytes c) (entries c) (MoveToFront key (order c)) (used c), d)
  | None =>
      let p := keyPath c key in
      match o with
      | OpenFails msg => Some (Err (Errorf (str "open cache file: " ++ msg)), c, d)
      | FetchFails e => Some (Err e, c, ({[p]} ∪ d) ∖ {[p]})
      | StatFails msg =>
          Some (Err (Errorf (str "stat cache file: " ++ msg)), c, ({[p]} ∪ d) ∖ {[p]})
      | Fetched sz =>
          match ensureCapacity c ({[p]} ∪ d) sz with
          | None => None
          | Some (Some e, c1, d1) => Some (Err e, c1, d1 ∖ {[p]})
          | Some (None, c1, d1) =>
              Some (Ok p,
                    mkCache (dir c1) (maxBytes c1) (<[key := mkEntry p sz]> (entries c1))
                      (key :: order c1) (wrap64 (used c1 + sz)),
                    d1)
          end
      end
  end.

(** [Cache.Touch]. *)
Definition Touch (c : Cache) (key : gostring) : Cache :=
  match entries c !! key with
  | Some _ => mkCache (dir c) (maxBytes c) (entries c) (MoveToFront key (order c)) (used c)
  | None => c
  end.

(** [Cache.Remove]. *)
Definition Remove (c : Cache) (d : Disk) (key : gostring) : Cache * Disk :=
  match entries c !! key with
  | None => (c, d)
  | Some entry =>
      (mkCache (dir c) (maxBytes c) (delete key (entries c)) (removeElem key (order c))
         (wrap64 (used c - size entry)),
       d ∖ {[path entry]})
  end.

(** The public operations, with what the environment does during each. *)
Inductive Op : Type :=
| OpLoadOrCreate (key : gostring) (o : FetchOutcome)
| OpTouch (key : gostring)
| OpRemove (key : gostring).

Definition step (op : Op) (s : Cache * Disk) : option (Cache * Disk) :=
  match op with
  | OpLoadOrCreate key o =>
      match LoadOrCreate (fst s) (snd s) key o with
      | Some (_, c, d) => Some (c, d)
      | None => None
      end
  | OpTouch key => Some (Touch (fst s) key, snd s)
  | OpRemove key => Some (Remove (fst s) (snd s) key)
  end.

Fixpoint run (ops : list Op) (s : Cache * Disk) : option (Cache * Disk) :=
  match ops with
  | [] => Some s
  | op :: ops' =>
      match step op s with
      | Some s' => run ops' s'
      | None => None
      end
  end.

End WithHash.

(** The sum of the sizes of the resident entries. *)
Definition totalSize (m : gmap gostring cacheEntry) : Z :=
  map_fold (fun _ e acc => size e + acc) 0 m.

(** The bytes a sequence of operations fetches. *)
Fixpoint fetched (ops : list Op) : Z :=
  match ops with
  | [] => 0
  | OpLoadOrCreate _ (Fetched sz) :: ops' => sz + fetched ops'
  | _ :: ops' => fetched ops'
  end.

(** File sizes are not negative. *)
Fixpoint sizesOk (ops : list Op) : Prop :=
  match ops with
  | [] => True
  | OpLoadOrCreate _ (Fetched sz) :: ops' => 0 <= sz /\ sizesOk ops'
  | _ :: ops' => sizesOk ops'
  end.

(** A stand-in for the digest in the examples: the key itself. *)
Definition plainName (key : gostring) : gostring := key.

End Cache.

(** ** [pkg/remotefs/ipc.go]: POSIX attributes at the IPC boundary *)

Module IPC.
Import Objectstore RemoteFS.

(** An octal literal, digit by digit. *)
Definition octal (digits : list Z) : Z := fold_left (fun acc d => 8 * acc + d) digits 0.

Definition modeDirBits : Z := octal [0; 4; 0; 0; 0; 0].
Definition modeRegBits : Z := octal [1; 0; 0; 0; 0; 0].
Definition dirPerms : Z := octal [5; 5; 0].
Definition filePerms : Z := octal [4; 4; 0].

(** The conversion [uint32(x)]. *)
Definition uint32 (x : Z) : Z := x mod 2 ^ 32.

Record POSIXEntry : Type := mkEntry {
  EPath : gostring;
  ESize : Z;
  EETag : gostring;
  ELastModified : Time;
  EIsDir : bool;
  Mode : Z;
  UID : Z;
  GID : Z;
  User : gostring;
  Group : gostring
}.

Record IPCServer : Type := mkServer {
  srv_fs : FileSystem;
  uid : Z;
  gid : Z;
  user : gostring;
  group : gostring
}.

(** What [NewIPCServer] asks the operating system. *)
Record OS : Type := {
  Geteuid : Z;
  Getegid : Z;
  LookupId : Z -> option gostring;
  LookupGroupId : Z -> option gostring
}.

(** [NewIPCServer]: the identity is read once, here. *)
Definition NewIPCServer (os : OS) (fs : option FileSystem) : result IPCServer :=
  match fs with
  | None => Err (Errorf (str "filesystem is required"))
  | Some fs =>
      let u := Geteuid os in
      let g := Getegid os in
      Ok (mkServer fs u g
            (match LookupId os u with Some name => name | None => [] end)
            (match LookupGroupId os g with Some name => name | None => [] end))
  end.

(** [defaultMode]. *)
Definition defaultMode (isDir : bool) : Z :=
  if isDir then uint32 (Z.lor modeDirBits dirPerms)
  else uint32 (Z.lor modeRegBits filePerms).

(** [IPCServer.entryFromMeta]; [now] is what [time.Now()] returns when the
    response is built. *)
Definition entryFromMeta (s : IPCServer) (meta : FileMeta) (now : Time) : POSIXEntry :=
  let lm := if IsZero (LastModified meta) then now else LastModified meta in
  mkEntry (Path meta) (Size meta) (ETag meta) lm (IsDir meta)
    (defaultMode (IsDir meta)) (uid s) (gid s) (user s) (group s).

End IPC.

(** ** [shim/ldpreload/remotefs_shim.c]: the read-only gate of [open] *)

Module Shim.

(** The constants of [<fcntl.h>], [<errno.h>] and [<sys/stat.h>] the code
    names; [O_TMPFILE] is [None] where the header does not define it. *)
Record Platform : Type := {
  O_WRONLY : Z;
  O_RDWR : Z;
  O_CREAT : Z;
  O_TRUNC : Z;
  O_APPEND : Z;
  O_TMPFILE : option Z;
  O_RDONLY : Z;
  EROFS : Z;
  EISDIR : Z;
  ENOSYS : Z;
  S_IFMT : Z;
  S_IFDIR : Z
}.

(** Linux on x86-64. *)
Definition linux : Platform :=
  {| O_WRONLY := 1; O_RDWR := 2; O_CREAT := 64; O_TRUNC := 512; O_APPEND := 1024;
     O_TMPFILE := Some 4259840; O_RDONLY := 0;
     EROFS := 30; EISDIR := 21; ENOSYS := 38;
     S_IFMT := 61440; S_IFDIR := 16384 |}.

(** The state of the host process the shim can see or change: [errno],
    whether [shim_init_once] has run, and the requests sent to the daemon
    (endpoint and path). *)
Record Process : Type := mkProcess {
  errno : Z;
  initialized : bool;
  requests : list (gostring * gostring)
}.

Definition set_errno (e : Z) (s : Process) : Process :=
  mkProcess e (initialized s) (requests s).

(** [ensure_initialized]: [shim_init_once] runs once; it reads the
    environment and sends nothing. *)
Definition ensure_initialized (s : Process) : Process :=
  mkProcess (errno s) true (requests s).

(** The rest of the process, libc and the daemon, as the open path uses
    them.  [remote_stat_path] gives [st_mode] on success. *)
Record Env : Type := {
  path_within_root : gostring -> Process -> option gostring;
  resolve_absolute : Z -> gostring -> Process -> option gostring;
  remote_stat_path : gostring -> Process -> option Z * Process;
  mkstemp : Process -> option (Z * gostring) * Process;
  download_into_temp : gostring -> Z -> Process -> bool * Process;
  close : Z -> Process -> Process;
  unlink : gostring -> Process -> Process;
  open_file : gostring -> Z -> Process -> Z * Process;
  real_open : option (gostring -> Z -> option Z -> Process -> Z * Process);
  real_open64 : option (gostring -> Z -> option Z -> Process -> Z * Process);
  real_openat : option (Z -> gostring -> Z -> option Z -> Process -> Z * Process)
}.

Section WithPlatform.
Variable pl : Platform.
Variable env : Env.

(** The C test [if (x)]. *)
Definition nonzero (x : Z) : bool := negb (Z.eqb x 0).

(** [allow_open_flags]. *)
Definition allow_open_flags (flags : Z) (s : Process) : bool * Process :=
  if nonzero (Z.land flags
       (Z.lor (Z.lor (Z.lor (Z.lor (O_WRONLY pl) (O_RDWR pl)) (O_CREAT pl)) (O_TRUNC pl))
          (O_APPEND pl)))
  then (false, set_errno (EROFS pl) s)
  else
    match O_TMPFILE pl with
    | Some tmpfile =>
        if nonzero (Z.land flags tmpfile) then (false, set_errno (EROFS pl) s)
        else (true, s)
    | None => (true, s)
    end.

(** [S_ISDIR]. *)
Definition S_ISDIR (mode : Z) : bool := Z.eqb (Z.land mode (S_IFMT pl)) (S_IFDIR pl).

(** [remote_open_file]. *)
Definition remote_open_file (abs_path : gostring) (flags : Z) (s : Process) : Z * Process :=
  let '(allowed, s) := allow_open_flags flags s in
  if negb allowed then (-1, s)
  else
    match remote_stat_path env abs_path s with
    | (None, s) => (-1, s)
    | (Some st_mode, s) =>
        if S_ISDIR st_mode then (-1, set_errno (EISDIR pl) s)
        else
          match mkstemp env s with
          | (None, s) => (-1, s)
          | (Some (tmp_fd, template_path), s) =>
              match download_into_temp env abs_path tmp_fd s with
              | (false, s) => (-1, unlink env template_path (close env tmp_fd s))
              | (true, s) =>
                  let s := close env tmp_fd s in
                  let '(fd, s) := open_file env template_path (O_RDONLY pl) s in
                  (fd, unlink env template_path s)
              end
          end
    end.

(** [handle_open_common]; [mode] is read only when [O_CREAT] is set. *)
Definition handle_open_common (path : gostring) (flags mode : Z)
    (fallback : option (gostring -> Z -> option Z -> Process -> Z * Process))
    (s : Process) : Z * Process :=
  let has_mode := nonzero (Z.land flags (O_CREAT pl)) in
  let s := ensure_initialized s in
  match path_within_root env path s with
  | None =>
      match fallback with
      | Some f => f path flags (if has_mode then Some mode else None) s
      | None => (-1, set_errno (ENOSYS pl) s)
      end
  | Some abs_path => remote_open_file abs_path flags s
  end.

Definition open (path : gostring) (flags mode : Z) (s : Process) : Z * Process :=
  handle_open_common path flags mode (real_open env) s.

Definition open64 (path : gostring) (flags mode : Z) (s : Process) : Z * Process :=
  handle_open_common path flags mode
    (match real_open64 env with Some f => Some f | None => real_open env end) s.

Definition openat (dirfd : Z) (path : gostring) (flags mode : Z) (s : Process)
  : Z * Process :=
  let has_mode := nonzero (Z.land flags (O_CREAT pl)) in
  let s := ensure_initialized s in
  match
    match resolve_absolute env dirfd path s with
    | None => None
    | Some abs_path => path_within_root env abs_path s
    end
  with
  | None =>
      match real_openat env with
      | Some f => f dirfd path flags (if has_mode then Some mode else None) s
      | None => (-1, set_errno (ENOSYS pl) s)
      end
  | Some abs_path => remote_open_file abs_path flags s
  end.

(** A write-intent flag is set in [flags]. *)
Definition write_intent (flags : Z) : Prop :=
  Z.land flags (O_WRONLY pl) <> 0 \/ Z.land flags (O_RDWR pl) <> 0
  \/ Z.land flags (O_CREAT pl) <> 0 \/ Z.land flags (O_TRUNC pl) <> 0
  \/ Z.land flags (O_APPEND pl) <> 0
  \/ exists tmpfile, O_TMPFILE pl = Some tmpfile /\ Z.land flags tmpfile <> 0.

End WithPlatform.

End Shim.

(** ** [pkg/objectstore/s3.go]: keys and listings of the S3 store *)

Module S3.
Import GoStrings GoPath Objectstore.

(** An [S3Store], without its client: the bucket and the normalised
    prefix. *)
Record S3Store : Type := mkS3Store {
  bucket : gostring;
  prefix : gostring
}.

(** [NewS3Store]. *)
Definition NewS3Store (bucket prefix : gostring) : S3Store :=
  let prefix := TrimSlash prefix in
  let prefix :=
    if bool_decide (prefix <> []) && negb (HasSuffix prefix [slash])
    then prefix ++ [slash] else prefix in
  mkS3Store bucket prefix.

(** [S3Store.key]. *)
Definition key (s : S3Store) (rel : gostring) : gostring :=
  let rel := Clean (slash :: rel) in
  let rel := TrimPrefix rel [slash] in
  let rel := if bool_decide (rel = [dot]) then [] else rel in
  if bool_decide (rel = []) then TrimSuffix (prefix s) [slash]
  else if bool_decide (prefix s = []) then rel
  else prefix s ++ rel.

(** One object of a [ListObjectsV2] page. *)
Record Object : Type := mkObject {
  OKey : gostring;
  OSize : Z;
  OETag : gostring;
  OLastModified : Time
}.

(** One page: the common prefixes and the objects. *)
Record Page : Type := mkPage {
  CommonPrefixes : list gostring;
  Contents : list Object
}.

(** What [paginator.NextPage] returns: a page, or the SDK's error with its
    message. *)
Inductive PageResult : Type :=
| PageOk (page : Page)
| PageErr (msg : gostring).

(** The [ListObjectsV2Input] of [List]; [None] is a prefix left unset. *)
Record ListInput : Type := mkListInput {
  Bucket : gostring;
  Delimiter : gostring;
  Prefix : option gostring
}.

(** The request prefix of [List]: the key of [rel], closed by a separator
    unless it is empty. *)
Definition listPrefix (s : S3Store) (rel : gostring) : gostring :=
  let prefix := key s rel in
  if bool_decide (prefix <> []) && negb (HasSuffix prefix [slash])
  then prefix ++ [slash] else prefix.

Definition listInput (s : S3Store) (rel : gostring) : ListInput :=
  let prefix := listPrefix s rel in
  mkListInput (bucket s) [slash] (if bool_decide (prefix <> []) then Some prefix else None).

(** The body of [for _, cp := range page.CommonPrefixes]: the entry
    appended for [cp], if any. *)
Definition prefixEntry (s : S3Store) (rel cp : gostring) : option FileMeta :=
  let name := TrimSuffix (TrimPrefix cp (prefix s)) [slash] in
  if bool_decide (name = []) then None
  else
    let name := if bool_decide (rel <> []) then Join rel name else name in
    Some (mkFileMeta name 0 [] 0 true).

(** The body of [for _, obj := range page.Contents]; [reqPrefix] is the
    local [prefix] of [List], the request prefix. *)
Definition objectEntry (s : S3Store) (rel reqPrefix : gostring) (obj : Object)
  : option FileMeta :=
  let key := OKey obj in
  if bool_decide (reqPrefix <> []) && bool_decide (key = reqPrefix) then None
  else
    let name := TrimPrefix key (prefix s) in
    let name := TrimPrefix name [slash] in
    let entry := Some (mkFileMeta name (OSize obj) (OETag obj) (OLastModified obj) false) in
    if bool_decide (rel <> []) then
      if negb (HasPrefix name (rel ++ [slash])) && bool_decide (name <> rel) then None
      else if ContainsSlash (TrimPrefix name (rel ++ [slash])) then None
      else entry
    else if ContainsSlash name then None
    else entry.

(** What one page appends to [out]. *)
Definition pageEntries (s : S3Store) (rel reqPrefix : gostring) (page : Page)
  : list FileMeta :=
  omap (prefixEntry s rel) (CommonPrefixes page)
  ++ omap (objectEntry s rel reqPrefix) (Contents page).

(** The paginator loop of [List]. *)
Fixpoint listPages (s : S3Store) (rel reqPrefix : gostring) (pages : list PageResult)
    (out : list FileMeta) : result (list FileMeta) :=
  match pages with
  | [] => Ok out
  | PageErr msg :: _ => Err (Errorf (str "list " ++ rel ++ str ": " ++ msg))
  | PageOk page :: rest =>
      listPages s rel reqPrefix rest (out ++ pageEntries s rel reqPrefix page)
  end.

(** [S3Store.List]; [client] is the paginator over [ListObjectsV2]. *)
Definition List (client : ListInput -> list PageResult) (s : S3Store) (rel : gostring)
  : result (list FileMeta) :=
  listPages s rel (listPrefix s rel) (client (listInput s rel)) [].

End S3.

(** ** [shim/ldpreload/remotefs_shim.c]: path canonicalization and the root test *)

(** What a C function does: it returns a value, it refuses ([return false],
    [return -1], [return NULL]), or it writes outside one of its arrays. *)
Inductive Outcome (A : Type) : Type :=
| Value (a : A)
| Refused
| OutOfBounds.
Arguments Value {A} a.
Arguments Refused {A}.
Arguments OutOfBounds {A}.

Module ShimPath.
Import GoStrings GoPath.

(** [PATH_MAX] of [<limits.h>] on Linux. *)
Definition linux_PATH_MAX : nat := 4096.

(** The working state of [canonicalize_path]: the bytes of
    [result[0..res_len)] and the entries of [stack[0..top)], the one pushed
    last first. *)
Record Canon : Type := mkCanon {
  result : gostring;
  stack : list nat
}.

(** The inner loop that advances [p] to the next separator or to the end
    of the string: the segment read and what follows it. *)
Fixpoint segment (p : gostring) : gostring * gostring :=
  match p with
  | [] => ([], [])
  | c :: p' =>
      if Ascii.eqb c slash then ([], p)
      else let '(seg, rest) := segment p' in (c :: seg, rest)
  end.

Section WithLimits.

Variable PATH_MAX : nat.

(** The body of the loop of [canonicalize_path] for one segment.  [result]
    has [PATH_MAX] bytes and [stack] has [PATH_MAX / 2] entries. *)
Definition canon_segment (st : Canon) (seg : gostring) : Outcome Canon :=
  if bool_decide (length seg = O) then Value st
  else if bool_decide (seg = [dot]) then Value st
  else if bool_decide (seg = dotdot) then
    match stack st with
    | _ :: (res_len :: _) as stack' => Value (mkCanon (take res_len (result st)) stack')
    | _ => Value st
    end
  else
    let res_len := length (result st) in
    if (1 <? res_len)%nat && (PATH_MAX <=? res_len)%nat then OutOfBounds
    else
      let result1 := if (1 <? res_len)%nat then result st ++ [slash] else result st in
      if (PATH_MAX <=? length result1 + length seg)%nat then Refused
      else
        let result2 := result1 ++ seg in
        if (PATH_MAX / 2 <=? length (stack st))%nat then OutOfBounds
        else Value (mkCanon result2 (length result2 :: stack st)).

(** The outer loop, which runs until [p] reaches the end of the string:
    separators are skipped, then one segment is read.  Every iteration
    but the last consumes a byte of [p], so [fuel] is the length of the
    string at most. *)
Fixpoint canon_loop (fuel : nat) (p : gostring) (st : Canon) : Outcome Canon :=
  match fuel with
  | O => Value st
  | S fuel' =>
      match TrimLeftSlash p with
      | [] => Value st
      | q =>
          let '(seg, rest) := segment q in
          match canon_segment st seg with
          | Value st' => canon_loop fuel' rest st'
          | Refused => Refused
          | OutOfBounds => OutOfBounds
          end
      end
  end.

(** The string in [scratch]: the path itself when it is absolute, else the
    working directory, a separator and the path; both cut to the buffer.
    [cwd] is what [getcwd] returns ([None] for [NULL]). *)
Definition scratch_of (cwd : option gostring) (path : gostring) : option gostring :=
  if is_rooted path then Some (take (PATH_MAX - 1) path)
  else
    match cwd with
    | None => None
    | Some cwd => Some (take (PATH_MAX - 1) (cwd ++ slash :: path))
    end.

(** [canonicalize_path] of a path that is not [NULL]. *)
Definition canonicalize_path (cwd : option gostring) (path : gostring) (out_len : nat)
  : Outcome gostring :=
  if bool_decide (out_len = O) then Refused
  else
    match scratch_of cwd path with
    | None => Refused
    | Some scratch =>
        match canon_loop (S (length scratch)) scratch (mkCanon [slash] [1%nat]) with
        | Value st =>
            let result := if bool_decide (length (result st) = O) then [slash] else result st in
            if (out_len <=? length result)%nat then Refused
            else Value (take (out_len - 1) result)
        | Refused => Refused
        | OutOfBounds => OutOfBounds
        end
    end.

(** [shim_init_once], as far as [g_cfg.root] goes; [env_root] is
    [getenv("REMOTEFS_ROOT")]. *)
Definition init_root (cwd : option gostring) (env_root : option gostring) : gostring :=
  let root :=
    match env_root with
    | None | Some [] => str "/remote"
    | Some root => root
    end in
  let root :=
    match canonicalize_path cwd root PATH_MAX with
    | Value root => root
    | _ => take (PATH_MAX - 1) (str "/remote")
    end in
  if (1 <? length root)%nat && bool_decide (last root = Some slash)
  then removelast root else root.

(** [strncmp(a, b, n) == 0]. *)
Definition strncmp_eq (a b : gostring) (n : nat) : bool :=
  bool_decide (take n a = take n b).

(** [path_within_root] with both output buffers of [PATH_MAX] bytes: the
    absolute and the relative form.  [root] is [g_cfg.root], and
    [g_cfg.root_len] its length. *)
Definition path_within_root (root : gostring) (cwd : option gostring) (path : gostring)
  : Outcome (gostring * gostring) :=
  match canonicalize_path cwd path PATH_MAX with
  | Refused => Refused
  | OutOfBounds => OutOfBounds
  | Value normalized =>
      let norm_len := length normalized in
      let root_len := length root in
      if negb (strncmp_eq normalized root root_len) then Refused
      else
        let offset := root_len in
        let at_slash :=
          (offset <? norm_len)%nat
          && match normalized !! offset with
             | Some c => Ascii.eqb c slash
             | None => false
             end in
        let offset' :=
          if (1 <? root_len)%nat then
            if at_slash then Some (S offset)
            else if (offset <? norm_len)%nat then None
            else Some offset
          else if at_slash then Some (S offset)
          else Some offset in
        match offset' with
        | None => Refused
        | Some offset =>
            let rel := if (norm_len <=? offset)%nat then [] else drop offset normalized in
            Value (take (PATH_MAX - 1) normalized, take (PATH_MAX - 1) rel)
        end
  end.

End WithLimits.

End ShimPath.

(** ** The query string between the shim and the daemon *)

Module GoURL.
Import GoStrings.

(** [ishex] and [unhex] of [net/url]. *)
Definition ishex (c : ascii) : bool :=
  let n := nat_of_ascii c in
  ((48 <=? n) && (n <=? 57) || (97 <=? n) && (n <=? 102) || (65 <=? n) && (n <=? 70))%nat.

Definition unhex (c : ascii) : nat :=
  let n := nat_of_ascii c in
  if ((48 <=? n) && (n <=? 57))%nat then n - 48
  else if ((97 <=? n) && (n <=? 102))%nat then n - 97 + 10
  else if ((65 <=? n) && (n <=? 70))%nat then n - 65 + 10
  else 0.

(** [url.QueryUnescape]: [%XX] is the byte [XX], [+] is a space, any other
    byte is itself; [None] is the [EscapeError] of a [%] that two
    hexadecimal digits do not follow. *)
Fixpoint QueryUnescape (s : gostring) : option gostring :=
  match s with
  | [] => Some []
  | c :: s' =>
      if Ascii.eqb c "%" then
        match s' with
        | h1 :: h2 :: s'' =>
            if ishex h1 && ishex h2
            then cons (ascii_of_nat (unhex h1 * 16 + unhex h2)) <$> QueryUnescape s''
            else None
        | _ => None
        end
      else if Ascii.eqb c "+" then cons " "%char <$> QueryUnescape s'
      else cons c <$> QueryUnescape s'
  end.

(** [strings.Split(s, sep)] for a one-byte separator. *)
Fixpoint split_on (sep : ascii) (s : gostring) : list gostring :=
  match s with
  | [] => [[]]
  | c :: s' =>
      if Ascii.eqb c sep then [] :: split_on sep s'
      else
        match split_on sep s' with
        | seg :: rest => (c :: seg) :: rest
        | [] => [[c]]
        end
  end.

(** [strings.Cut(s, sep)] for a one-byte separator: the text before the
    first [sep] and the text after it. *)
Fixpoint Cut (sep : ascii) (s : gostring) : gostring * gostring :=
  match s with
  | [] => ([], [])
  | c :: s' =>
      if Ascii.eqb c sep then ([], s')
      else let '(before, after) := Cut sep s' in (c :: before, after)
  end.

(** One [key=value] setting of [url.ParseQuery]: a setting with a
    semicolon, an empty one, or one that does not unescape, is skipped. *)
Definition parseSetting (setting : gostring) : option (gostring * gostring) :=
  if existsb (fun c => Ascii.eqb c ";") setting then None
  else if bool_decide (setting = []) then None
  else
    let '(key, value) := Cut "=" setting in
    match QueryUnescape key with
    | None => None
    | Some key =>
        match QueryUnescape value with
        | None => None
        | Some value => Some (key, value)
        end
    end.

(** [url.ParseQuery]: the settings between the ampersands, in order. *)
Definition ParseQuery (query : gostring) : list (gostring * gostring) :=
  omap parseSetting (split_on "&" query).

(** [r.URL.Query().Get(key)]: the first value of [key], or the empty
    string. *)
Definition QueryGet (rawQuery key : gostring) : gostring :=
  match find (fun kv => bool_decide (fst kv = key)) (ParseQuery rawQuery) with
  | Some kv => snd kv
  | None => []
  end.

(** [URL.RawQuery] of a request, as [net/url] cuts it off: what follows
    the first question mark. *)
Definition RawQuery (url : gostring) : gostring := snd (Cut "?" url).

End GoURL.

Module ShimURL.
Import GoStrings.

(** [isalnum] in the C locale. *)
Definition isalnum (c : ascii) : bool :=
  let n := nat_of_ascii c in
  ((48 <=? n) && (n <=? 57) || (65 <=? n) && (n <=? 90) || (97 <=? n) && (n <=? 122))%nat.

(** The table [hex] of [url_encode]. *)
Definition hex : gostring := str "0123456789ABCDEF".

(** The bytes [url_encode] copies as they are. *)
Definition unreserved (c : ascii) : bool :=
  isalnum c || Ascii.eqb c "/" || Ascii.eqb c "-" || Ascii.eqb c "_"
  || Ascii.eqb c "." || Ascii.eqb c "~".

(** [url_encode], when [malloc] succeeds. *)
Fixpoint url_encode (input : gostring) : gostring :=
  match input with
  | [] => []
  | c :: rest =>
      if unreserved c then c :: url_encode rest
      else
        let n := nat_of_ascii c in
        "%"%char :: nth (n / 16 mod 16) hex "0"%char :: nth (n mod 16) hex "0"%char
        :: url_encode rest
  end.

(** The query string of [perform_http_request], before the URL is cut to
    its buffer. *)
Definition query_of (abs_path : gostring) : gostring := str "path=" ++ url_encode abs_path.

(** The URL of [perform_http_request]: [snprintf] cuts it to the
    [PATH_MAX * 2] bytes of [url]. *)
Definition request_url (PATH_MAX : nat) (endpoint abs_path : gostring) : gostring :=
  take (PATH_MAX * 2 - 1) (str "http://unix" ++ endpoint ++ str "?" ++ query_of abs_path).

End ShimURL.

(** ** [shim/ldpreload/remotefs_shim.c]: attributes and directory handles *)

Module ShimStat.
Import GoStrings Shim.

(** [struct remote_meta], as [parse_object_at] fills it. *)
Record remote_meta : Type := mkMeta {
  rm_path : gostring;
  rm_size : Z;
  rm_mode : Z;
  rm_uid : Z;
  rm_gid : Z;
  is_dir : bool
}.

(** [S_IFREG] of [<sys/stat.h>]. *)
Definition S_IFREG : Z := IPC.octal [1; 0; 0; 0; 0; 0].

(** The conversion [(mode_t)x] to an unsigned 32-bit integer. *)
Definition mode_t (x : Z) : Z := x mod 2 ^ 32.

(** [derive_mode]. *)
Definition derive_mode (pl : Platform) (meta : remote_meta) : Z :=
  let mode := mode_t (rm_mode meta) in
  let type_bits := if is_dir meta then S_IFDIR pl else S_IFREG in
  let mode := if Z.land mode (S_IFMT pl) =? 0 then Z.lor mode type_bits else mode in
  let mode :=
    if Z.land mode (IPC.octal [7; 7; 7]) =? 0
    then Z.lor mode (if is_dir meta then IPC.octal [5; 5; 0] else IPC.octal [4; 4; 0])
    else mode in
  mode.

(** [hash_path]: FNV-1a over the bytes of the path, in 64 bits. *)
Definition hash_path (path : gostring) : Z :=
  fold_left
    (fun hash c => (Z.lxor hash (Z.of_nat (nat_of_ascii c)) * 1099511628211) mod 2 ^ 64)
    path 1469598103934665603.

(** The metadata the shim holds for an entry the daemon sent, once
    [parse_object_at] has read its fields; the path is copied as it stands
    in the JSON text, so this is for a path JSON writes without escapes. *)
Definition meta_of_entry (e : IPC.POSIXEntry) : remote_meta :=
  mkMeta (IPC.EPath e) (IPC.ESize e) (IPC.Mode e) (IPC.UID e) (IPC.GID e) (IPC.EIsDir e).

End ShimStat.

Module ShimDir.
Import GoStrings ShimPath ShimStat.

(** [DT_DIR] and [DT_REG] of [<dirent.h>]. *)
Definition DT_DIR : Z := 4.
Definition DT_REG : Z := 8.

(** The fields of [struct dirent] that [alloc_dirent] sets, but for the
    record length. *)
Record dirent : Type := mkDirent {
  d_ino : Z;
  d_off : Z;
  d_type : Z;
  d_name : gostring
}.

(** [struct shim_dir], without the link to the next one. *)
Record shim_dir : Type := mkDir {
  count : nat;
  index : nat;
  abs_path : gostring;
  rel_path : gostring;
  entries : list dirent
}.

(** [strchr(s, '/')] used as a length: the bytes before the first
    separator. *)
Definition before_slash (s : gostring) : gostring := fst (segment s).

(** [relative_name], when [malloc] succeeds. *)
Definition relative_name (dir_rel entry_rel : gostring) : gostring :=
  if bool_decide (dir_rel = []) then before_slash entry_rel
  else if negb (strncmp_eq entry_rel dir_rel (length dir_rel)) then entry_rel
  else
    let rest := drop (length dir_rel) entry_rel in
    let rest :=
      match rest with
      | c :: rest' => if Ascii.eqb c slash then rest' else rest
      | [] => rest
      end in
    before_slash rest.

Section WithLimits.
Variable PATH_MAX : nat.

(** The entry [add_entry] builds for slot [index], when [malloc]
    succeeds. *)
Definition add_entry (dir_abs_path : gostring) (index : nat) (name : gostring)
    (is_dir : bool) : dirent :=
  let dtype := if is_dir then DT_DIR else DT_REG in
  let full_path :=
    if negb (bool_decide (name = [dot])) && negb (bool_decide (name = [dot; dot])) then
      if bool_decide (dir_abs_path = [slash])
      then take (PATH_MAX - 1) (slash :: name)
      else take (PATH_MAX - 1) (dir_abs_path ++ slash :: name)
    else take (PATH_MAX - 1) dir_abs_path in
  mkDirent (hash_path full_path) (Z.of_nat index) dtype name.

(** The loop of [populate_directory] over the children, from slot
    [slot]. *)
Fixpoint add_children (dir_abs_path dir_rel_path : gostring) (slot : nat)
    (children : list remote_meta) : list dirent :=
  match children with
  | [] => []
  | meta :: rest =>
      let name := relative_name dir_rel_path (rm_path meta) in
      if bool_decide (name = []) then add_children dir_abs_path dir_rel_path slot rest
      else
        add_entry dir_abs_path slot name (is_dir meta)
        :: add_children dir_abs_path dir_rel_path (S slot) rest
  end.

(** [populate_directory] on the objects of a well-formed [/ls] answer,
    when no allocation fails: [.] and [..] come first. *)
Definition populate_directory (dir_abs_path dir_rel_path : gostring)
    (children : list remote_meta) : shim_dir :=
  let entries :=
    add_entry dir_abs_path 0 [dot] true
    :: add_entry dir_abs_path 1 [dot; dot] true
    :: add_children dir_abs_path dir_rel_path 2 children in
  mkDir (length entries) 0 dir_abs_path dir_rel_path entries.

End WithLimits.

(** The handles the shim manages: [g_dirs], each directory with its
    address, the one registered last first. *)
Definition Dirs := list (Z * shim_dir).


(** [lookup_dir]. *)
Fixpoint lookup_dir (handle : Z) (g : Dirs) : option shim_dir :=
  match g with
  | [] => None
  | (h, dir) :: rest => if Z.eqb h handle then Some dir else lookup_dir handle rest
  end.

(** [unregister_dir]. *)
Fixpoint unregister_dir (handle : Z) (g : Dirs) : Dirs :=
  match g with
  | [] => []
  | (h, dir) :: rest =>
      if Z.eqb h handle then rest else (h, dir) :: unregister_dir handle rest
  end.

(** A write through the pointer [lookup_dir] returned. *)
Fixpoint store_dir (handle : Z) (dir : shim_dir) (g : Dirs) : Dirs :=
  match g with
  | [] => []
  | (h, d) :: rest =>
      if Z.eqb h handle then (h, dir) :: rest else (h, d) :: store_dir handle dir rest
  end.

(** What a wrapper does with a handle: it answers itself, or it passes the
    call to the real function because the handle is not the shim's. *)
Inductive Answer (A : Type) : Type :=
| Answered (a : A)
| Passed.
Arguments Answered {A} a.
Arguments Passed {A}.

Definition set_index (dir : shim_dir) (i : nat) : shim_dir :=
  mkDir (count dir) i (abs_path dir) (rel_path dir) (entries dir).

(** [dir_next_entry]: the entry, [None] for [NULL], and the directory
    afterwards. *)
Definition dir_next_entry (dir : shim_dir) : option dirent * shim_dir :=
  if (count dir <=? index dir)%nat then (None, dir)
  else (entries dir !! index dir, set_index dir (S (index dir))).

(** [readdir]. *)
Definition readdir (handle : Z) (g : Dirs) : Answer (option dirent) * Dirs :=
  match lookup_dir handle g with
  | None => (Passed, g)
  | Some dir =>
      let '(entry, dir') := dir_next_entry dir in
      (Answered entry, store_dir handle dir' g)
  end.

(** [rewinddir]. *)
Definition rewinddir (handle : Z) (g : Dirs) : Answer unit * Dirs :=
  match lookup_dir handle g with
  | None => (Passed, g)
  | Some dir => (Answered tt, store_dir handle (set_index dir 0) g)
  end.

(** [telldir]. *)
Definition telldir (handle : Z) (g : Dirs) : Answer Z :=
  match lookup_dir handle g with
  | None => Passed
  | Some dir => Answered (Z.of_nat (index dir))
  end.

(** [seekdir]. *)
Definition seekdir (handle : Z) (loc : Z) (g : Dirs) : Answer unit * Dirs :=
  match lookup_dir handle g with
  | None => (Passed, g)
  | Some dir =>
      if (0 <=? loc) && (loc <? Z.of_nat (count dir))
      then (Answered tt, store_dir handle (set_index dir (Z.to_nat loc)) g)
      else (Answered tt, g)
  end.

(** [closedir]. *)
Definition closedir (handle : Z) (g : Dirs) : Answer Z * Dirs :=
  match lookup_dir handle g with
  | None => (Passed, g)
  | Some dir => (Answered 0, unregister_dir handle g)
  end.

(** [n] calls of [readdir] in a row: what they return, in order. *)
Fixpoint readdir_n (n : nat) (handle : Z) (g : Dirs)
  : list (Answer (option dirent)) * Dirs :=
  match n with
  | O => ([], g)
  | S n' =>
      let '(a, g1) := readdir handle g in
      let '(rest, g2) := readdir_n n' handle g1 in
      (a :: rest, g2)
  end.

End ShimDir.

Module ShimOpendir.
Import GoStrings ShimPath ShimStat ShimDir.

(** [ENOENT] and [EIO] of [<errno.h>]. *)
Definition ENOENT : Z := 2.
Definition EIO : Z := 5.



End ShimOpendir.

(** ** [pkg/remotefs]: reading files, and the handlers of the IPC server *)

Module RemoteRead.
Import GoStrings GoPath Objectstore RemoteFS Cache.

(** [FileSystem.LocalRoot]. *)
Definition LocalRoot (fs : FileSystem) : gostring :=
  match localRoot fs with
  | [] => [slash]
  | root => root
  end.

Section WithHash.
Variable sha256hex : gostring -> gostring.

(** [FileSystem.ReadFile] over the cache [c] and the disk [d].  [o] is what
    happens while the cache fetches a missing key: the callback fails
    ([store.Download] or its [f.Stat]), a file operation of [LoadOrCreate]
    fails, or the object arrives; [openErr] is the error of [os.Open] on the
    cached file, if any.  The handle returned is given by the path of the
    file it is open on. *)
Definition ReadFile (fs : FileSystem) (c : Cache) (d : Disk) (local : gostring)
    (o : FetchOutcome) (openErr : option gostring)
  : option (result gostring * Cache * Disk) :=
  match sanitize fs local with
  | Err e => Some (Err e, c, d)
  | Ok rel =>
      if bool_decide (rel = []) then
        Some (Err (Errorf (str "cannot read directory " ++ local)), c, d)
      else
        let absPath := joinLocal fs rel in
        match LoadOrCreate sha256hex c d rel o with
        | None => None
        | Some (Err err, c1, d1) =>
            if IsNotFound err then Some (Err (NotFoundError absPath), c1, d1)
            else Some (Err err, c1, d1)
        | Some (Ok path, c1, d1) =>
            match openErr with
            | Some msg => Some (Err (Errorf (str "open cache file: " ++ msg)), c1, d1)
            | None => Some (Ok path, Touch c1 rel, d1)
            end
        end
  end.

End WithHash.

End RemoteRead.

Module IPCHandlers.
Import GoStrings GoPath Objectstore RemoteFS Cache IPC RemoteRead.

(** The decimal digits of a number that is not negative, most significant
    first; an [int64] has 19 at most. *)
Fixpoint digits (fuel : nat) (n : Z) (acc : gostring) : gostring :=
  match fuel with
  | O => acc
  | S fuel' =>
      let acc' := ascii_of_nat (48 + Z.to_nat (n mod 10)) :: acc in
      if n <? 10 then acc' else digits fuel' (n / 10) acc'
  end.

(** The verb [%d]. *)
Definition itoa (n : Z) : gostring :=
  if n <? 0 then "-"%char :: digits 20 (- n) [] else digits 20 n [].

(** [err.Error()]: of [objectstore.NotFoundError], of
    [remotefs.NotFoundError], of the capacity error of the cache, and of an
    error made by [fmt.Errorf]. *)
Definition Error (e : error) : gostring :=
  match e with
  | StoreNotFound key =>
      if bool_decide (key = []) then str "object not found" else key ++ str ": not found"
  | NotFoundError path =>
      if bool_decide (path = []) then str "No such file or directory"
      else path ++ str ": No such file or directory"
  | CapacityError maxBytes exceeded =>
      str "cache capacity " ++ itoa maxBytes ++ str " bytes exceeded by " ++ itoa exceeded
  | Errorf msg => msg
  end.

(** [remotefs.IsNotFound]. *)
Definition IsNotFound (e : error) : bool :=
  match e with
  | NotFoundError _ => true
  | _ => false
  end.

(** What a handler writes as the body: an entry or a list of entries as
    JSON, the object [{"error": msg}], or the bytes of a cached file. *)
Inductive Body : Type :=
| JSONEntry (entry : POSIXEntry)
| JSONEntries (entries : list POSIXEntry)
| JSONError (msg : gostring)
| FileBytes (cachePath : gostring).

Record Response : Type := mkResponse {
  status : Z;
  contentType : gostring;
  body : Body
}.

(** [writeJSON]: no status is written, so it is 200. *)
Definition writeJSON (payload : Body) : Response :=
  mkResponse 200 (str "application/json") payload.

(** [writeHTTPError]. *)
Definition writeHTTPError (status : Z) (msg : gostring) : Response :=
  mkResponse status (str "application/json") (JSONError msg).

(** [writeErrorFor]. *)
Definition writeErrorFor (err : error) : Response :=
  writeHTTPError (if IsNotFound err then 404 else 500) (Error err).

(** [r.URL.Query().Get("path")], with the default of [handleStat] and
    [handleList]. *)
Definition pathOrRoot (s : IPCServer) (rawQuery : gostring) : gostring :=
  let path := GoURL.QueryGet rawQuery (str "path") in
  if bool_decide (path = []) then LocalRoot (srv_fs s) else path.

(** [IPCServer.handleStat]; [now] is the clock when the entry is built. *)
Definition handleStat {W} (store : ObjectStore W) (s : IPCServer) (rawQuery : gostring)
    (now : Time) (w : World W) : Response * World W :=
  match Stat store (srv_fs s) (pathOrRoot s rawQuery) w with
  | (Err err, w') => (writeErrorFor err, w')
  | (Ok meta, w') => (writeJSON (JSONEntry (entryFromMeta s meta now)), w')
  end.


(** [IPCServer.handleCat]. *)
Definition handleCat (sha256hex : gostring -> gostring) (s : IPCServer) (c : Cache)
    (d : Disk) (rawQuery : gostring) (o : FetchOutcome) (openErr : option gostring)
  : option (Response * Cache * Disk) :=
  let path := GoURL.QueryGet rawQuery (str "path") in
  if bool_decide (path = []) then
    Some (writeHTTPError 400 (str "path query parameter is required"), c, d)
  else
    match ReadFile sha256hex (srv_fs s) c d path o openErr with
    | None => None
    | Some (Err err, c', d') => Some (writeErrorFor err, c', d')
    | Some (Ok cachePath, c', d') =>
        Some (mkResponse 200 (str "application/octet-stream") (FileBytes cachePath), c', d')
    end.

End IPCHandlers.

Module ShimFetch.
Import GoStrings ShimStat ShimOpendir IPCHandlers.

(** What comes back from [/stat]: nothing, with the [errno] that
    [perform_http_request] set, or a status with, when the body is a JSON
    object, that object as [parse_object_at] reads it. *)
Inductive StatReply : Type :=
| StatFailed (errno : Z)
| StatAnswer (status : Z) (meta : option remote_meta).

(** [fetch_remote_meta]: the metadata, or the [errno] left with -1. *)
Definition fetch_remote_meta (reply : StatReply) : Z + remote_meta :=
  match reply with
  | StatFailed errno => inl errno
  | StatAnswer status meta =>
      if status =? 404 then inl ENOENT
      else if negb (status =? 200) then inl EIO
      else
        match meta with
        | None => inl EIO
        | Some meta => inr meta
        end
  end.

(** [remote_stat_path], as far as [st_mode] goes. *)
Definition remote_stat_mode (pl : Shim.Platform) (reply : StatReply) : Z + Z :=
  match fetch_remote_meta reply with
  | inl errno => inl errno
  | inr meta => inr (derive_mode pl meta)
  end.

(** The reply the shim reads from a response of the daemon to [/stat]. *)
Definition reply_of (resp : Response) : StatReply :=
  StatAnswer (status resp)
    (match body resp with
     | JSONEntry entry => Some (meta_of_entry entry)
     | _ => None
     end).


(** What comes back from [/cat]: nothing, with the [errno] that
    [perform_http_request] set, or a status (the body went to the temporary
    file). *)
Inductive CatReply : Type :=
| CatFailed (errno : Z)
| CatAnswer (status : Z).

(** [download_into_temp]: [None] is the return of 0, [Some errno] the
    return of -1; [lseekErr] is the [errno] of a failing [lseek]. *)
Definition download_into_temp (reply : CatReply) (lseekErr : option Z) : option Z :=
  match reply with
  | CatFailed errno => Some errno
  | CatAnswer status =>
      if status =? 404 then Some ENOENT
      else if negb (status =? 200) then Some EIO
      else lseekErr
  end.

End ShimFetch.

(** ** [shim/ldpreload/remotefs_shim.c]: paths relative to a directory descriptor *)

Module ShimAt.
Import GoStrings GoPath ShimPath.

(** [AT_FDCWD] of [<fcntl.h>] on Linux. *)
Definition AT_FDCWD : Z := -100.

Section WithLimits.
Variable PATH_MAX : nat.

(** [dirfd_path] on Linux.  [link] is the target [readlink] finds for
    [/proc/self/fd/<dirfd>], [None] when it fails; [readlink] stores at most
    [PATH_MAX - 1] bytes of it. *)
Definition dirfd_path (cwd : option gostring) (dirfd : Z) (link : option gostring)
    (out_len : nat) : Outcome gostring :=
  if (dirfd =? AT_FDCWD) || bool_decide (out_len = O) then Refused
  else
    match link with
    | None => Refused
    | Some target => canonicalize_path PATH_MAX cwd (take (PATH_MAX - 1) target) out_len
    end.

(** [resolve_absolute]; [path] is [None] for [NULL]. *)
Definition resolve_absolute (cwd : option gostring) (dirfd : Z) (path : option gostring)
    (link : option gostring) (out_len : nat) : Outcome gostring :=
  match path with
  | None => Refused
  | Some path =>
      if is_rooted path then canonicalize_path PATH_MAX cwd path out_len
      else if dirfd =? AT_FDCWD then canonicalize_path PATH_MAX cwd path out_len
      else
        match dirfd_path cwd dirfd link PATH_MAX with
        | Value base =>
            if (PATH_MAX <=? length base + 1 + length path)%nat then Refused
            else canonicalize_path PATH_MAX cwd (base ++ slash :: path) out_len
        | Refused => Refused
        | OutOfBounds => OutOfBounds
        end
  end.

(** The test that opens [openat], [fstatat], [statx] and [faccessat]:
    [resolve_absolute] into [abs_path], then [path_within_root] from
    [abs_path] into [abs_path].  [Value] is the path the remote branch goes
    on with; [Refused] is the call of the real function. *)
Definition at_path (root : gostring) (cwd : option gostring) (dirfd : Z)
    (path : option gostring) (link : option gostring) : Outcome gostring :=
  match resolve_absolute cwd dirfd path link PATH_MAX with
  | Value abs_path =>
      match path_within_root PATH_MAX root cwd abs_path with
      | Value (abs_path, _) => Value abs_path
      | Refused => Refused
      | OutOfBounds => OutOfBounds
      end
  | Refused => Refused
  | OutOfBounds => OutOfBounds
  end.

(** The test of [open], [stat], [opendir] and [access], for comparison. *)
Definition plain_path (root : gostring) (cwd : option gostring) (path : gostring)
  : Outcome gostring :=
  match path_within_root PATH_MAX root cwd path with
  | Value (abs_path, _) => Value abs_path
  | Refused => Refused
  | OutOfBounds => OutOfBounds
  end.

End WithLimits.

End ShimAt.

Module ShimAccess.
Import GoStrings Shim ShimPath ShimStat ShimDir ShimFetch.

(** [W_OK] and [X_OK] of [<unistd.h>]. *)
Definition W_OK : Z := 2.
Definition X_OK : Z := 1.

(** [access]: the value returned with the [errno] set and whether [/stat]
    was requested, or the call of the real function.  [reply] is what the
    daemon answers if it is asked. *)
Definition access (pl : Platform) (PATH_MAX : nat) (root : gostring) (cwd : option gostring)
    (path : gostring) (mode : Z) (reply : StatReply) : Answer (Z * option Z * bool) :=
  match path_within_root PATH_MAX root cwd path with
  | Value (abs_path, _) =>
      if negb (Z.land mode W_OK =? 0) then Answered (-1, Some (EROFS pl), false)
      else
        match fetch_remote_meta reply with
        | inl errno => Answered (-1, Some errno, true)
        | inr _ => Answered (0, None, true)
        end
  | _ => Passed
  end.

End ShimAccess.

(** ** Predicates of the specification *)

Module PathSpec.
Import GoStrings GoPath.

(** A path element with no separator in it. *)
Definition noslash (seg : gostring) : Prop := slash ∉ seg.

(** A kept path element: not empty, not [.], not [..], no separator. *)
Definition plain (seg : gostring) : Prop :=
  seg <> [] /\ seg <> [dot] /\ seg <> dotdot /\ noslash seg.

(** The shape of [Clean]'s output stack (last element first): real elements
    above a block of [..], which is empty for a rooted path. *)
Inductive stack_ok (rooted : bool) : list gostring -> Prop :=
| stack_dots n : (rooted = true -> n = O) -> stack_ok rooted (replicate n dotdot)
| stack_plain seg out : plain seg -> stack_ok rooted out -> stack_ok rooted (seg :: out).

(** The bytes that begin no space rune. *)
Definition starts_no_space (encs : list gostring) (c : ascii) : bool :=
  negb (asciiSpace c)
  && forallb (fun e => match e with e0 :: _ => negb (Ascii.eqb e0 c) | [] => false end) encs.

End PathSpec.

Module WalkSpec.
Import Objectstore RemoteFS.

(** Every value of a metadata map is stored under its own path. *)
Definition keyed (m : gmap gostring FileMeta) : Prop :=
  forall k v, m !! k = Some v -> Path v = k.

(** Every item of every successful listing in [cs] has an entry in [m]. *)
Definition listed (cs : list StoreCall) (m : gmap gostring FileMeta) : Prop :=
  forall key items item,
    CallList key (Ok items) ∈ cs -> item ∈ items -> is_Some (m !! Path item).

Definition grows (m m' : gmap gostring FileMeta) : Prop :=
  forall k, is_Some (m !! k) -> is_Some (m' !! k).

(** What a finished, successful walk guarantees. *)
Definition walked {W : Type} (dst : gmap gostring FileMeta) (w : World W)
    (dst' : gmap gostring FileMeta) (w' : World W) : Prop :=
  keyed dst' /\ grows dst dst' /\ exists cs, calls w' = calls w ++ cs /\ listed cs dst'.

End WalkSpec.

Module CacheSpec.
Import Cache.

(** The invariant of the cache: the list holds the keys of the map, each
    once; sizes are not negative; [used] is their sum and an [int64]. *)
Record Inv (c : Cache) : Prop := mkInv {
  inv_nodup : NoDup (order c);
  inv_dom : forall k, k ∈ order c <-> is_Some (entries c !! k);
  inv_sizes : forall k e, entries c !! k = Some e -> 0 <= size e;
  inv_used : used c = totalSize (entries c);
  inv_int64 : used c < 2 ^ 63
}.

(** What the eviction loop leaves behind. *)
Record Evicted (c : Cache) (d : Disk) (need : Z) (c' : Cache) (d' : Disk) : Prop := mkEvicted {
  ev_inv : Inv c';
  ev_dir : dir c' = dir c;
  ev_max : maxBytes c' = maxBytes c;
  ev_used : used c' <= used c;
  ev_kept : forall k e, entries c' !! k = Some e -> entries c !! k = Some e;
  ev_disk : d' ⊆ d;
  ev_frame : forall f, f ∈ d ->
    (forall k e, entries c !! k = Some e -> entries c' !! k = None -> path e <> f) -> f ∈ d';
  ev_gone : forall k e, entries c !! k = Some e -> entries c' !! k = None -> path e ∉ d';
  ev_fits : used c + need <= maxBytes c -> c' = c /\ d' = d
}.

(** The bytes one [LoadOrCreate] adds at most. *)
Definition fetchSize (o : FetchOutcome) : Z :=
  match o with Fetched sz => sz | _ => 0 end.

End CacheSpec.

Module S3Spec.
Import GoStrings GoPath Objectstore S3.

(** The page S3 returns under the request prefix [reqPrefix] for the
    sub-directories [ds] and the objects [fs] (given by their names below
    the prefix): common prefixes end with the delimiter, keys are whole. *)
Definition childPage (reqPrefix : gostring) (ds : list gostring) (fs : list Object)
  : PageResult :=
  PageOk (mkPage (map (fun d => reqPrefix ++ d ++ [slash]) ds)
            (map (fun o => mkObject (reqPrefix ++ OKey o) (OSize o) (OETag o)
                             (OLastModified o)) fs)).

(** The entries [List] returns for them when asked for [rel]. *)
Definition childEntries (dirPath filePath : gostring -> gostring)
    (ds : list gostring) (fs : list Object) : list FileMeta :=
  map (fun d => mkFileMeta (dirPath d) 0 [] 0 true) ds
  ++ map (fun o => mkFileMeta (filePath (OKey o)) (OSize o) (OETag o)
                     (OLastModified o) false) fs.

(** The children named by a page are real path elements. *)
Definition childrenOk (page : list gostring * list Object) : Prop :=
  Forall PathSpec.plain (fst page) /\ Forall (fun o => PathSpec.plain (OKey o)) (snd page).

End S3Spec.

Module ShimPathSpec.
Import GoStrings GoPath ShimPath.

(** The weight of a list of segments: each non-empty one with the separator
    before it. *)
Fixpoint wt (segs : list gostring) : nat :=
  match segs with
  | [] => O
  | seg :: rest => (if bool_decide (seg = []) then O else S (length seg)) + wt rest
  end.

(** The state of the canonicalizer that holds the elements [out] (the last
    one first). *)
Fixpoint lens (out : list gostring) : list nat :=
  match out with
  | [] => [1%nat]
  | _ :: out' => length (slash :: join_slash (rev out)) :: lens out'
  end.

Definition repr (out : list gostring) : Canon :=
  mkCanon (slash :: join_slash (rev out)) (lens out).

(** Running the loop body over a list of segments. *)
Fixpoint run_segs (PATH_MAX : nat) (segs : list gostring) (st : Canon) : Outcome Canon :=
  match segs with
  | [] => Value st
  | seg :: rest =>
      match canon_segment PATH_MAX st seg with
      | Value st' => run_segs PATH_MAX rest st'
      | Refused => Refused
      | OutOfBounds => OutOfBounds
      end
  end.

End ShimPathSpec.

Module URLSpec.
Import GoStrings ShimURL.

(** The bytes of an encoded path: the unreserved ones and the percent
    sign. *)
Definition urlsafe (c : ascii) : bool := unreserved c || Ascii.eqb c "%".

End URLSpec.

Module DirSpec.
Import GoStrings ShimStat ShimDir.



(** A handle as [populate_directory] leaves it and the wrappers keep it. *)
Definition handle_ok (dir : shim_dir) : Prop :=
  count dir = length (entries dir) /\ (index dir <= count dir)%nat.

End DirSpec.

Module CacheSpec2.
Import GoStrings GoPath Cache.

(** The size of the entry of [k] in [c], 0 when there is none. *)
Definition sizeOf (c : Cache) (k : gostring) : Z :=
  match entries c !! k with
  | Some e => size e
  | None => 0
  end.

Definition sizesOf (c : Cache) (ks : list gostring) : Z :=
  fold_right (fun k acc => sizeOf c k + acc) 0 ks.

(** Every resident entry has its file, at the path of its key. *)
Definition DiskInv (sha256hex : gostring -> gostring) (c : Cache) (d : Disk) : Prop :=
  forall k e, entries c !! k = Some e -> path e = keyPath sha256hex c k /\ path e ∈ d.

End CacheSpec2.

(** ** Inputs used in the examples *)

Module GoExamples.

(** The table of Go's own test of [path.Clean] (already clean; trailing
    slash; doubled slash; [.] elements; [..] elements; combinations). *)
Definition cleantests : list (string * string) :=
  [ ("", "."); ("abc", "abc"); ("abc/def", "abc/def"); ("a/b/c", "a/b/c");
    (".", "."); ("..", ".."); ("../..", "../.."); ("../../abc", "../../abc");
    ("/abc", "/abc"); ("/", "/");
    ("abc/", "abc"); ("abc/def/", "abc/def"); ("a/b/c/", "a/b/c"); ("./", ".");
    ("../", ".."); ("../../", "../.."); ("/abc/", "/abc");
    ("abc//def//ghi", "abc/def/ghi"); ("//abc", "/abc"); ("///abc", "/abc");
    ("//abc//", "/abc"); ("abc//", "abc");
    ("abc/./def", "abc/def"); ("/./abc/def", "/abc/def"); ("abc/.", "abc");
    ("abc/def/ghi/../jkl", "abc/def/jkl"); ("abc/def/../ghi/../jkl", "abc/jkl");
    ("abc/def/..", "abc"); ("abc/def/../..", "."); ("/abc/def/../..", "/");
    ("abc/def/../../..", ".."); ("/abc/def/../../..", "/");
    ("abc/def/../../../ghi/jkl/../../../mno", "../../mno");
    ("abc/./../def", "def"); ("abc//./../def", "def");
    ("abc/../../././../def", "../../def") ]%string.

End GoExamples.

(** ** Stores used in the examples *)

Module TestStores.
Import GoStrings GoPath Objectstore RemoteFS.

(** A store given by two tables, with no state of its own: [Head] of a key
    that is not an object is [objectstore.NotFoundError], [List] of a key
    with no children is the empty listing. *)
Definition tableStore (heads : list (gostring * FileMeta))
    (lists : list (gostring * list FileMeta)) : ObjectStore unit :=
  {| Head := fun key e =>
       match (list_to_map heads : gmap gostring FileMeta) !! key with
       | Some m => (Ok m, e)
       | None => (Err (StoreNotFound key), e)
       end;
     List := fun key e =>
       match (list_to_map lists : gmap gostring (list FileMeta)) !! key with
       | Some items => (Ok items, e)
       | None => (Ok [], e)
       end |}.

Definition file (p : string) (size : Z) : FileMeta := mkFileMeta (str p) size [] 0 false.
Definition dir (p : string) : FileMeta := dirMeta (str p).

(** The store of the spec's first scenario: the single object
    [docs/report.txt]. *)
Definition flatStore : ObjectStore unit :=
  tableStore [(str "docs/report.txt", file "docs/report.txt" 42)]
             [([], [dir "docs"]); (str "docs", [file "docs/report.txt" 42])].

(** The listing of [TestWarmMetadataCachePopulatesEntries]. *)
Definition treeStore : ObjectStore unit :=
  tableStore []
    [ ([], [dir "docs"; file "readme.txt" 10]);
      (str "docs", [file "docs/report.txt" 42; dir "docs/archive"]);
      (str "docs/archive", [file "docs/archive/old.txt" 5]) ].

(** A backend whose listings fail: with a transport error below the root,
    with [objectstore.NotFoundError] at the root. *)
Definition brokenStore : ObjectStore unit :=
  {| Head := fun key e => (Err (StoreNotFound key), e);
     List := fun key e =>
       match key with
       | [] => (Err (StoreNotFound key), e)
       | _ => (Err (Errorf (str "list " ++ key ++ str ": connection reset")), e)
       end |}.

(** A directory that lists itself: the walk never ends. *)
Definition loopStore : ObjectStore unit :=
  {| Head := fun key e => (Err (StoreNotFound key), e);
     List := fun key e => (Ok [dirMeta key], e) |}.

(** What warming [treeStore] reads and installs. *)
Definition treeCalls : list StoreCall :=
  [ CallList [] (Ok [dir "docs"; file "readme.txt" 10]);
    CallList (str "docs") (Ok [file "docs/report.txt" 42; dir "docs/archive"]);
    CallList (str "docs/archive") (Ok [file "docs/archive/old.txt" 5]) ].

Definition treeSnapshot : gmap gostring FileMeta :=
  <[str "readme.txt" := file "readme.txt" 10]>
    (<[str "docs/archive/old.txt" := file "docs/archive/old.txt" 5]>
       (<[str "docs/archive" := dir "docs/archive"]>
          (<[str "docs/report.txt" := file "docs/report.txt" 42]>
             (<[str "docs" := dir "docs"]> (<[ [] := dirMeta [] ]> ∅))))).

Definition background : Context unit := {| Done := fun _ => None |}.

Definition cancelled : Context unit :=
  {| Done := fun _ => Some (Errorf (str "context canceled")) |}.

Definition start : World unit := mkWorld tt [].

End TestStores.

(** *** Caches used in the examples *)

Module CacheExamples.
Import Cache.

Definition demoOps : list Op :=
  [ OpLoadOrCreate (str "a") (Fetched 60);
    OpLoadOrCreate (str "b") (Fetched 60);
    OpTouch (str "b");
    OpRemove (str "a") ].

(** A cache of quota 100 holding the 60 bytes of key [a]. *)
Definition residentA : Cache :=
  mkCache (str "/cache") 100 (<[str "a" := mkEntry (str "/cache/a") 60]> ∅) [str "a"] 60.

Definition diskA : Disk := {[ str "/cache/a" ]}.

End CacheExamples.

Module ShimExamples.
Import Shim.

(** An environment for the examples: the root is [/remote]; the daemon
    answers every request, and each request is logged. *)
Definition demoEnv : Env :=
  {| path_within_root := fun path _ =>
       if GoStrings.HasPrefix path (str "/remote/") then Some path else None;
     resolve_absolute := fun _ path _ => Some path;
     remote_stat_path := fun path s =>
       (Some 33056, mkProcess (errno s) (initialized s) (requests s ++ [(str "/stat", path)]));
     mkstemp := fun s => (Some (3, str "/tmp/remotefs-shim/cache-000000"), s);
     download_into_temp := fun path _ s =>
       (true, mkProcess (errno s) (initialized s) (requests s ++ [(str "/cat", path)]));
     close := fun _ s => s;
     unlink := fun _ s => s;
     open_file := fun _ _ s => (4, s);
     real_open := None;
     real_open64 := None;
     real_openat := None |}.

Definition fresh : Process := mkProcess 0 false [].

End ShimExamples.

(** *** An S3 bucket used in the examples *)

Module S3Examples.
Import Objectstore S3 S3Spec.

(** The store of bucket [media] under the prefix given as [/tenant/]. *)
Definition tenant : S3Store := NewS3Store (str "media") (str "/tenant/").

(** Below [tenant/docs/], S3 holds the sub-directory [archive] and the
    object [report.txt]; it answers in one page. *)
Definition docsChildren : list (list gostring * list Object) :=
  [ ([str "archive"], [mkObject (str "report.txt") 42 (str "etag-1") 7]) ].

Definition docsClient (input : ListInput) : list PageResult :=
  map (fun pg => childPage (str "tenant/docs/") (fst pg) (snd pg)) docsChildren.

End S3Examples.

(** *** A directory handle used in the examples *)

Module ShimDirExamples.
Import ShimStat ShimDir.

(** What the daemon lists under [docs]: a file and a sub-directory. *)
Definition docsChildren : list remote_meta :=
  [ mkMeta (str "docs/a.txt") 5 33056 1000 1000 false;
    mkMeta (str "docs/sub") 0 16744 1000 1000 true ].

(** The listing of [/remote/docs], and the handles of a process that has
    opened it once, at address 4096. *)
Definition docsDir : shim_dir :=
  populate_directory ShimPath.linux_PATH_MAX (str "/remote/docs") (str "docs") docsChildren.

Definition opened : Dirs := [(4096, docsDir)].

End ShimDirExamples.

(** *** A digest used in the examples *)

Module DigestExamples.
Import GoStrings.

(** The two hexadecimal digits of a byte. *)
Definition hexByte (c : ascii) : gostring :=
  let n := nat_of_ascii c in
  [nth (n / 16 mod 16) ShimURL.hex "0"%char; nth (n mod 16) ShimURL.hex "0"%char].

(** A stand-in for the digest that, like it, names one path element and,
    unlike the key itself, does so for every key: the letter [k] and the
    key in hexadecimal. *)
Definition hexName (key : gostring) : gostring := "k"%char :: flat_map hexByte key.

(** The key of a name. *)
Fixpoint unhexBytes (s : gostring) : gostring :=
  match s with
  | h1 :: h2 :: s' => ascii_of_nat (GoURL.unhex h1 * 16 + GoURL.unhex h2) :: unhexBytes s'
  | _ => []
  end.

End DigestExamples.

Module BridgeExamples.
Import GoStrings RemoteFS IPC.

(** A daemon serving the root [/remote] as user 1000. *)
Definition demoServer : IPCServer :=
  mkServer (New (str "/remote")) 1000 1000 (str "u") (str "g").

(** Buffers of 16 bytes, to show a URL that does not fit. *)
Definition small_PATH_MAX : nat := 16.

End BridgeExamples.

(** * Part II: facts and claims *)

(** ** The model on concrete inputs *)

Example clean_go_table :
  forallb (fun t => bool_decide (GoPath.Clean (str (fst t)) = str (snd t)))
    GoExamples.cleantests = true.
Proof. vm_compute. reflexivity. Qed.
Example clean_ex1 : GoPath.Clean (str "abc//def//ghi") = str "abc/def/ghi".
Proof. reflexivity. Qed.
Example clean_ex2 : GoPath.Clean (str "abc/def/../../..") = str "..".
Proof. reflexivity. Qed.
Example clean_ex3 : GoPath.Clean (str "/abc/def/../../..") = str "/".
Proof. reflexivity. Qed.
Example clean_ex4 : GoPath.Clean (str "abc/./../def") = str "def".
Proof. reflexivity. Qed.
Example clean_ex5 : GoPath.Clean (str "../../abc/../def/") = str "../../def".
Proof. reflexivity. Qed.
Example clean_ex6 : GoPath.Clean (str "/../abc/.") = str "/abc".
Proof. reflexivity. Qed.
Example trim_ex1 :
  GoStrings.TrimSpace (str " " ++ GoStrings.bytes [194; 160]%nat ++ str "/a b" ++ GoStrings.bytes [9; 226; 128; 168]%nat)
  = str "/a b".
Proof. reflexivity. Qed.

Example sanitize_test_root :
  RemoteFS.sanitize (RemoteFS.mkFS (str "var/data/remote") None) (str "var/data/remote") = Ok [].
Proof. reflexivity. Qed.
Example sanitize_test_child :
  RemoteFS.sanitize (RemoteFS.mkFS (str "var/data/remote") None) (str "var/data/remote/reports/today.txt")
  = Ok (str "reports/today.txt").
Proof. reflexivity. Qed.
Example sanitize_test_sibling :
  RemoteFS.sanitize (RemoteFS.mkFS (str "var/data/remote") None) (str "var/data/remote/../other/file")
  = Err (Errorf (str "path var/data/other/file outside of var/data/remote")).
Proof. reflexivity. Qed.
Example sanitize_test_lookalike :
  RemoteFS.sanitize (RemoteFS.mkFS (str "var/data/remote") None) (str "var/data/remote-mirror/file")
  = Err (Errorf (str "path var/data/remote-mirror/file outside of var/data/remote")).
Proof. reflexivity. Qed.
Example sanitize_test_noroot :
  RemoteFS.sanitize (RemoteFS.mkFS [] None) (str "/alpha/beta") = Ok (str "alpha/beta").
Proof. reflexivity. Qed.
Example sanitize_dotdot_noroot :
  RemoteFS.sanitize (RemoteFS.New []) (str "../etc/passwd") = Ok (str "../etc/passwd").
Proof. reflexivity. Qed.
Example sanitize_dotdot_relroot :
  RemoteFS.sanitize (RemoteFS.New (str "..")) (str "../../other") = Ok (str "../other").
Proof. reflexivity. Qed.

(** ** Facts about Go strings and [Clean] *)

Module GoFacts.
Import GoStrings GoPath.
Export PathSpec.

Lemma HasPrefix_app (p r : gostring) : HasPrefix (p ++ r) p = true.
Proof.
  induction p as [|c p IH]; simpl; [reflexivity|].
  rewrite Ascii.eqb_refl. exact IH.
Qed.

Lemma HasPrefix_inv (s p : gostring) :
  HasPrefix s p = true -> exists r, s = p ++ r.
Proof.
  revert s. induction p as [|c p IH]; intros s H.
  - exists s. reflexivity.
  - destruct s as [|d s]; simpl in H; [discriminate|].
    destruct (Ascii.eqb_spec c d) as [->|]; [|discriminate].
    destruct (IH _ H) as [r ->]. exists r. reflexivity.
Qed.

Lemma TrimPrefix_app (p r : gostring) : TrimPrefix (p ++ r) p = r.
Proof.
  unfold TrimPrefix. rewrite HasPrefix_app.
  rewrite drop_app_length. reflexivity.
Qed.

Lemma split_slash_not_nil (s : gostring) : split_slash s <> [].
Proof.
  destruct s as [|c s]; simpl; [discriminate|].
  destruct (Ascii.eqb c slash); [discriminate|].
  destruct (split_slash s); discriminate.
Qed.

Lemma split_slash_cons_slash (s : gostring) :
  split_slash (slash :: s) = [] :: split_slash s.
Proof. reflexivity. Qed.

Lemma split_slash_app (a b : gostring) :
  split_slash (a ++ slash :: b) = split_slash a ++ split_slash b.
Proof.
  induction a as [|c a IH]; simpl.
  - reflexivity.
  - destruct (Ascii.eqb c slash); simpl.
    + rewrite IH. reflexivity.
    + rewrite IH. pose proof (split_slash_not_nil a) as Ha.
      destruct (split_slash a); [congruence|]. reflexivity.
Qed.

Lemma join_split (s : gostring) : join_slash (split_slash s) = s.
Proof.
  induction s as [|c s IH]; simpl; [reflexivity|].
  destruct (Ascii.eqb_spec c slash) as [->|Hc].
  - pose proof (split_slash_not_nil s) as Hs.
    change (join_slash ([] :: split_slash s)) with
      (match split_slash s with [] => [] | _ => [] ++ slash :: join_slash (split_slash s) end).
    destruct (split_slash s); [congruence|]. simpl. simpl in IH. rewrite IH. reflexivity.
  - pose proof (split_slash_not_nil s) as Hs.
    destruct (split_slash s) as [|seg rest]; [congruence|].
    destruct rest; simpl in *; rewrite IH; reflexivity.
Qed.


Lemma split_of_noslash (seg : gostring) : noslash seg -> split_slash seg = [seg].
Proof.
  induction seg as [|c seg IH]; intros H; simpl; [reflexivity|].
  destruct (Ascii.eqb_spec c slash) as [->|Hc].
  - exfalso. apply H. left.
  - rewrite IH; [reflexivity|]. intros Hin. apply H. right. exact Hin.
Qed.

Lemma split_join (segs : list gostring) :
  segs <> [] -> Forall noslash segs -> split_slash (join_slash segs) = segs.
Proof.
  induction segs as [|seg rest IH]; intros Hne Hall; [congruence|].
  inversion Hall as [|? ? Hseg Hrest]; subst.
  destruct rest as [|seg' rest'].
  - simpl. apply split_of_noslash. exact Hseg.
  - change (join_slash (seg :: seg' :: rest')) with (seg ++ slash :: join_slash (seg' :: rest')).
    rewrite split_slash_app, IH by (auto; discriminate).
    rewrite split_of_noslash by exact Hseg. reflexivity.
Qed.

Lemma split_noslash (s : gostring) : Forall noslash (split_slash s).
Proof.
  induction s as [|c s IH]; simpl.
  - constructor; [|constructor]. intros H. inversion H.
  - destruct (Ascii.eqb_spec c slash) as [->|Hc].
    + constructor; [|exact IH]. intros H. inversion H.
    + destruct (split_slash s) as [|seg rest].
      * constructor; [|constructor]. intros H. inversion H; subst; [congruence|].
        match goal with H' : _ ∈ [] |- _ => inversion H' end.
      * inversion IH as [|? ? Hseg Hrest]; subst. constructor; [|exact Hrest].
        intros H. inversion H; subst; [congruence|]. apply Hseg. assumption.
Qed.

Lemma stack_ok_nil rooted : stack_ok rooted [].
Proof. apply (stack_dots rooted O). reflexivity. Qed.

Lemma stack_ok_unrooted rooted out : stack_ok rooted out -> stack_ok false out.
Proof.
  induction 1 as [n Hn|seg out Hp Hok IH].
  - apply stack_dots. discriminate.
  - apply stack_plain; assumption.
Qed.

Lemma stack_ok_take rooted out k : stack_ok rooted out -> stack_ok rooted (take k out).
Proof.
  intros H. revert k. induction H as [n Hn|seg out Hp Hok IH]; intros k.
  - rewrite take_replicate. apply stack_dots. intros Hr. specialize (Hn Hr). lia.
  - destruct k; simpl; [apply stack_ok_nil|]. apply stack_plain; auto.
Qed.

Lemma stack_ok_elems rooted out seg :
  stack_ok rooted out -> seg ∈ out -> plain seg \/ seg = dotdot.
Proof.
  induction 1 as [n Hn|s out Hp Hok IH]; intros Hin.
  - right. apply elem_of_replicate in Hin. tauto.
  - inversion Hin; subst; auto.
Qed.

Lemma stack_ok_noslash rooted out : stack_ok rooted out -> Forall noslash out.
Proof.
  intros H. apply Forall_forall. intros seg Hin.
  destruct (stack_ok_elems _ _ _ H Hin) as [Hp| ->].
  - apply Hp.
  - intros Hs. unfold dotdot in Hs.
    repeat (apply elem_of_cons in Hs as [Hs|Hs]; [discriminate|]).
    inversion Hs.
Qed.

Lemma is_dotdot_true seg : is_dotdot seg = true <-> seg = dotdot.
Proof. unfold is_dotdot. apply bool_decide_eq_true. Qed.

Lemma clean_step_plain rooted out seg : plain seg -> clean_step rooted out seg = seg :: out.
Proof.
  intros (H1 & H2 & H3 & _). unfold clean_step, is_dotdot.
  rewrite !bool_decide_eq_false_2 by assumption. reflexivity.
Qed.

Lemma clean_step_ok rooted out seg :
  noslash seg -> stack_ok rooted out -> stack_ok rooted (clean_step rooted out seg).
Proof.
  intros Hns Hok. unfold clean_step.
  destruct (bool_decide (seg = [])) eqn:E1; [exact Hok|].
  destruct (bool_decide (seg = [dot])) eqn:E2; [exact Hok|]. simpl.
  apply bool_decide_eq_false in E1. apply bool_decide_eq_false in E2.
  destruct (is_dotdot seg) eqn:E3.
  - apply is_dotdot_true in E3. subst seg.
    inversion Hok as [n Hn Heq|top rest Hp Hrest Heq].
    + destruct n as [|n]; simpl.
      * destruct rooted; [apply stack_ok_nil|]. apply (stack_dots false 1). discriminate.
      * replace (is_dotdot dotdot) with true by (symmetry; apply is_dotdot_true; reflexivity).
        destruct rooted; [specialize (Hn eq_refl); discriminate|].
        apply (stack_dots false (S (S n))). discriminate.
    + destruct (is_dotdot top) eqn:E4.
      * apply is_dotdot_true in E4. destruct Hp as (_ & _ & Hp & _). contradiction.
      * exact Hrest.
  - apply stack_plain; [|exact Hok]. repeat split; auto.
    intros ->. unfold is_dotdot in E3. rewrite bool_decide_eq_true_2 in E3 by reflexivity.
    discriminate.
Qed.

Lemma clean_fold_ok rooted segs out :
  Forall noslash segs -> stack_ok rooted out ->
  stack_ok rooted (fold_left (clean_step rooted) segs out).
Proof.
  revert out. induction segs as [|seg segs IH]; intros out Hall Hok; simpl; [exact Hok|].
  inversion Hall; subst. apply IH; [assumption|]. apply clean_step_ok; assumption.
Qed.

(** Reading back an output stack rebuilds it: [Clean] is idempotent on the
    elements it keeps. *)
Lemma clean_fold_stack out :
  stack_ok false out -> fold_left (clean_step false) (rev out) [] = out.
Proof.
  intros Hok.
  induction Hok as [n Hn|seg out Hp Hok IH].
  - clear Hn. induction n as [|n IHn]; simpl; [reflexivity|].
    rewrite fold_left_app, IHn. simpl. unfold clean_step. simpl.
    destruct n; reflexivity.
  - simpl. rewrite fold_left_app, IH. simpl. apply clean_step_plain. exact Hp.
Qed.

(** Every element [Clean] keeps is non-empty and has no separator. *)
Lemma stack_ok_good rooted out seg :
  stack_ok rooted out -> seg ∈ out -> seg <> [] /\ noslash seg /\ seg <> [dot].
Proof.
  intros Hok Hin. destruct (stack_ok_elems _ _ _ Hok Hin) as [Hp| ->].
  - destruct Hp as (? & ? & ? & ?). auto.
  - repeat split; try discriminate.
    intros Hs. unfold dotdot in Hs.
    repeat (apply elem_of_cons in Hs as [Hs|Hs]; [discriminate|]).
    inversion Hs.
Qed.

Lemma join_slash_head (seg : gostring) (rest : list gostring) :
  seg <> [] -> noslash seg ->
  exists c r, join_slash (seg :: rest) = c :: r /\ c <> slash.
Proof.
  intros Hne Hns. destruct seg as [|c seg]; [congruence|].
  exists c. destruct rest as [|s rest].
  - exists seg. split; [reflexivity|]. intros ->. apply Hns. left.
  - exists (seg ++ slash :: join_slash (s :: rest)). split; [reflexivity|].
    intros ->. apply Hns. left.
Qed.

Lemma Clean_join_stack out :
  out <> [] -> stack_ok false out -> Clean (join_slash (rev out)) = join_slash (rev out).
Proof.
  intros Hne Hok.
  assert (Hrne : rev out <> []).
  { intros E. apply Hne. rewrite <- (rev_involutive out), E. reflexivity. }
  assert (Hns : Forall noslash (rev out)).
  { apply Forall_forall. intros seg Hin. apply list_elem_of_In, in_rev, list_elem_of_In in Hin.
    eapply stack_ok_good; eauto. }
  destruct (rev out) as [|seg segs] eqn:Erev; [congruence|].
  assert (Hseg : seg ∈ out).
  { apply list_elem_of_In, in_rev. rewrite Erev. left. reflexivity. }
  destruct (stack_ok_good _ _ _ Hok Hseg) as (Hsne & Hsns & _).
  destruct (join_slash_head seg segs Hsne Hsns) as (c & r & Hj & Hc).
  unfold Clean. rewrite Hj. rewrite <- Hj.
  assert (Hroot : is_rooted (c :: r) = false).
  { simpl. destruct (Ascii.eqb_spec c slash); congruence. }
  rewrite <- Hj in Hroot. rewrite Hroot.
  rewrite split_join by (auto; discriminate).
  rewrite <- Erev, clean_fold_stack by exact Hok.
  destruct out; [congruence|]. reflexivity.
Qed.

Lemma rev_not_nil {A} (l : list A) : l <> [] -> rev l <> [].
Proof.
  intros Hne E. apply Hne. rewrite <- (rev_involutive l), E. reflexivity.
Qed.

Lemma stack_ok_rev_noslash rooted out : stack_ok rooted out -> Forall noslash (rev out).
Proof.
  intros Hok. apply Forall_forall. intros seg Hin.
  apply list_elem_of_In, in_rev, list_elem_of_In in Hin. eapply stack_ok_good; eauto.
Qed.

Lemma join_stack_unrooted rooted out :
  out <> [] -> stack_ok rooted out ->
  exists c r, join_slash (rev out) = c :: r /\ c <> slash.
Proof.
  intros Hne Hok. pose proof (rev_not_nil out Hne) as Hr.
  destruct (rev out) as [|seg segs] eqn:Erev; [congruence|].
  assert (Hseg : seg ∈ out).
  { apply list_elem_of_In, in_rev. rewrite Erev. left. reflexivity. }
  destruct (stack_ok_good _ _ _ Hok Hseg) as (Hsne & Hsns & _).
  apply join_slash_head; assumption.
Qed.

(** The output of [Clean]: [.], the root, or the kept elements joined, after
    a separator exactly when the path was rooted. *)
Lemma Clean_shape (p : gostring) :
  Clean p = [dot] \/ Clean p = [slash] \/
  exists rooted out, out <> [] /\ stack_ok rooted out /\
    is_rooted (Clean p) = rooted /\
    Clean p = (if rooted : bool then [slash] else []) ++ join_slash (rev out).
Proof.
  destruct p as [|c p]; [left; reflexivity|].
  unfold Clean.
  set (rooted := is_rooted (c :: p)).
  pose proof (clean_fold_ok rooted (split_slash (c :: p)) [] (split_noslash _) (stack_ok_nil _)) as Hok.
  destruct (fold_left (clean_step rooted) (split_slash (c :: p)) []) as [|top rest] eqn:E.
  - destruct rooted; auto.
  - right. right. exists rooted, (top :: rest). split; [discriminate|]. split; [exact Hok|].
    destruct rooted; [split; reflexivity|].
    split; [|reflexivity].
    destruct (join_stack_unrooted false (top :: rest)) as (c' & r & -> & Hc); [discriminate|exact Hok|].
    simpl. destruct (Ascii.eqb_spec c' slash); congruence.
Qed.

(** What follows a separator inside a cleaned path is a run of kept
    elements, with no [..] when the path is rooted. *)
Lemma Clean_suffix (t root rest : gostring) :
  root <> [] -> Clean t = root ++ slash :: rest ->
  exists out, out <> [] /\ stack_ok (is_rooted root) out /\ rest = join_slash (rev out).
Proof.
  intros Hroot HC.
  destruct (Clean_shape t) as [E|[E|(rooted & out & Hne & Hok & Hrt & E)]].
  - rewrite E in HC. destruct root as [|? [|? ?]]; try congruence; discriminate.
  - rewrite E in HC. destruct root as [|? [|? ?]]; try congruence; discriminate.
  - assert (Hrr : is_rooted root = rooted).
    { rewrite <- Hrt, HC. destruct root; [congruence|reflexivity]. }
    rewrite E in HC.
    assert (Hsplit : exists X, rev out = X ++ split_slash rest).
    { pose proof (rev_not_nil out Hne) as Hr.
      pose proof (stack_ok_rev_noslash _ _ Hok) as Hns.
      apply (f_equal split_slash) in HC. rewrite split_slash_app in HC.
      destruct rooted; simpl in HC.
      - rewrite split_join in HC by assumption.
        pose proof (split_slash_not_nil root) as Hsr.
        destruct (split_slash root) as [|r0 R]; [congruence|].
        simpl in HC. injection HC as _ HC. exists R. exact HC.
      - rewrite split_join in HC by assumption. eauto. }
    destruct Hsplit as [X HX].
    exists (rev (split_slash rest)). split; [|split].
    + apply rev_not_nil, split_slash_not_nil.
    + rewrite Hrr.
      assert (Hout : out = rev (split_slash rest) ++ rev X).
      { rewrite <- rev_app_distr, <- HX, rev_involutive. reflexivity. }
      rewrite Hout in Hok.
      pose proof (stack_ok_take _ _ (length (rev (split_slash rest))) Hok) as Ht.
      rewrite take_app_length in Ht. exact Ht.
    + rewrite rev_involutive, join_split. reflexivity.
Qed.

Lemma stack_ok_rooted_plain out : stack_ok true out -> Forall plain out.
Proof.
  induction 1 as [n Hn|seg out Hp Hok IH].
  - rewrite (Hn eq_refl). constructor.
  - constructor; assumption.
Qed.

Lemma clean_fold_plain rooted segs out :
  Forall plain segs -> fold_left (clean_step rooted) segs out = rev segs ++ out.
Proof.
  revert out. induction segs as [|seg segs IH]; intros out Hall; simpl; [reflexivity|].
  inversion Hall; subst. rewrite clean_step_plain by assumption.
  rewrite IH by assumption. rewrite <- app_assoc. reflexivity.
Qed.

Lemma plain_noslash segs : Forall plain segs -> Forall noslash segs.
Proof.
  intros H. apply Forall_forall. intros seg Hin.
  rewrite Forall_forall in H. apply (H seg Hin).
Qed.

(** The elements of a rooted path are read through one empty element. *)
Lemma split_rooted segs :
  segs <> [] -> Forall noslash segs -> split_slash (slash :: join_slash segs) = [] :: segs.
Proof. intros. rewrite split_slash_cons_slash, split_join by assumption. reflexivity. Qed.

Lemma Clean_rooted_fold segs :
  segs <> [] -> Forall noslash segs ->
  Clean (slash :: join_slash segs)
  = match fold_left (clean_step true) segs [] with
    | [] => [slash]
    | out => slash :: join_slash (rev out)
    end.
Proof.
  intros Hne Hns. unfold Clean. cbn [is_rooted]. rewrite Ascii.eqb_refl.
  rewrite split_rooted by assumption.
  change (fold_left (clean_step true) ([] :: segs) [])
    with (fold_left (clean_step true) segs []).
  destruct (fold_left (clean_step true) segs []); reflexivity.
Qed.

Lemma join_slash_cons (s : gostring) (l : list gostring) :
  l <> [] -> join_slash (s :: l) = s ++ slash :: join_slash l.
Proof. destruct l; [congruence|reflexivity]. Qed.

Lemma join_slash_snoc (segs : list gostring) (seg tail : gostring) :
  join_slash (segs ++ [seg]) ++ tail = join_slash (segs ++ [seg ++ tail]).
Proof.
  induction segs as [|s segs IH]; [reflexivity|].
  rewrite <- !app_comm_cons.
  rewrite !join_slash_cons by (destruct segs; discriminate).
  rewrite <- IH, <- app_assoc. reflexivity.
Qed.

Lemma join_slash_app (a b : list gostring) :
  a <> [] -> b <> [] ->
  join_slash (a ++ b) = join_slash a ++ slash :: join_slash b.
Proof.
  intros Ha Hb. induction a as [|s a IH]; [congruence|].
  destruct a as [|s' a].
  - simpl. destruct b; [congruence|reflexivity].
  - change (join_slash ((s :: s' :: a) ++ b)) with (s ++ slash :: join_slash ((s' :: a) ++ b)).
    rewrite IH by discriminate.
    change (join_slash (s :: s' :: a)) with (s ++ slash :: join_slash (s' :: a)).
    rewrite <- app_assoc. reflexivity.
Qed.

Lemma stripSpace_none encs c s :
  starts_no_space encs c = true -> stripSpace encs (c :: s) = None.
Proof.
  unfold starts_no_space, stripSpace. intros H.
  apply andb_true_iff in H as [Ha Hf]. apply negb_true_iff in Ha. rewrite Ha.
  induction encs as [|e encs IH]; [reflexivity|].
  simpl in Hf. apply andb_true_iff in Hf as [He Hf].
  destruct e as [|e0 e]; [discriminate|]. apply negb_true_iff in He.
  cbn [find]. cbn [HasPrefix]. rewrite He. apply IH. exact Hf.
Qed.

(** [TrimSpace] leaves a string alone when neither end is part of a space. *)
Lemma TrimSpace_solid (c d : ascii) (m m' : gostring) (s : gostring) :
  s = c :: m -> rev s = d :: m' ->
  starts_no_space unicodeSpace c = true ->
  starts_no_space (map (@rev ascii) unicodeSpace) d = true ->
  TrimSpace s = s.
Proof.
  intros Hs Hr Hc Hd. unfold TrimSpace.
  assert (H1 : trimSpaces unicodeSpace (length s) s = s).
  { rewrite Hs. cbn [length trimSpaces]. rewrite stripSpace_none by exact Hc. reflexivity. }
  rewrite H1.
  assert (H2 : trimSpaces (map (@rev ascii) unicodeSpace) (length s) (rev s) = rev s).
  { rewrite Hr. rewrite Hs. cbn [length trimSpaces].
    rewrite stripSpace_none by exact Hd. reflexivity. }
  rewrite H2. apply rev_involutive.
Qed.

End GoFacts.



(** ** The jail: what [sanitize] accepts and what it returns *)

Module SanitizeFacts.
Import GoStrings GoPath GoFacts Objectstore RemoteFS.

Lemma relOf_nil : relOf [] = [].
Proof. reflexivity. Qed.

Lemma HasPrefix_slash (s : gostring) : HasPrefix s [slash] = is_rooted s.
Proof.
  destruct s as [|c s]; [reflexivity|]. simpl. rewrite Ascii.eqb_sym.
  destruct (Ascii.eqb c slash); reflexivity.
Qed.

Lemma relOf_stack rooted out :
  out <> [] -> stack_ok rooted out -> relOf (join_slash (rev out)) = join_slash (rev out).
Proof.
  intros Hne Hok. unfold relOf.
  rewrite Clean_join_stack by (eauto using stack_ok_unrooted).
  destruct (join_stack_unrooted _ _ Hne Hok) as (c & r & Hj & Hc).
  assert (Htp : TrimPrefix (join_slash (rev out)) [slash] = join_slash (rev out)).
  { unfold TrimPrefix. rewrite HasPrefix_slash, Hj. simpl.
    destruct (Ascii.eqb_spec c slash); [congruence|reflexivity]. }
  rewrite Htp. rewrite bool_decide_eq_false_2; [reflexivity|].
  intros E. pose proof (split_join (rev out) (rev_not_nil _ Hne) (stack_ok_rev_noslash _ _ Hok)) as Hs.
  rewrite E in Hs. simpl in Hs.
  assert (Hin : [dot] ∈ out).
  { apply list_elem_of_In, in_rev. rewrite <- Hs. left. reflexivity. }
  destruct (stack_ok_good _ _ _ Hok Hin) as (_ & _ & Hd). congruence.
Qed.

Lemma relOf_suffix (t root rest : gostring) :
  root <> [] -> Clean t = root ++ slash :: rest -> relOf rest = rest.
Proof.
  intros Hroot HC. destruct (Clean_suffix t root rest Hroot HC) as (out & Hne & Hok & ->).
  eapply relOf_stack; eauto.
Qed.

Lemma app_cons_neq {A} (l r : list A) (x : A) : l <> l ++ x :: r.
Proof.
  intros E. apply (f_equal (@length A)) in E. rewrite length_app in E. simpl in E. lia.
Qed.

Lemma dot_not_under (root rest : gostring) : root <> [] -> [dot] <> root ++ slash :: rest.
Proof.
  intros Hroot E. destruct root as [|c [|d root]]; [congruence|discriminate|discriminate].
Qed.

(** [sanitize] under a root: accepted exactly at the root and below it. *)
Lemma sanitize_accepts_iff (fs : FileSystem) (p rel : gostring) :
  localRoot fs <> [] -> localRoot fs <> [dot] ->
  sanitize fs p = Ok rel <->
    (canonical p = localRoot fs /\ rel = []) \/ canonical p = localRoot fs ++ slash :: rel.
Proof.
  intros Hne Hdot. unfold sanitize, canonical.
  set (root := localRoot fs) in *.
  split.
  - case_bool_decide as Hl; [discriminate|].
    rewrite bool_decide_eq_true_2 by exact Hne.
    case_bool_decide as Ht.
    + destruct (HasPrefix (Clean (TrimSpace p)) (root ++ [slash])) eqn:Hp; simpl; [|discriminate].
      apply HasPrefix_inv in Hp as [r Hr]. rewrite <- app_assoc in Hr. simpl in Hr.
      intros H. injection H as <-. right.
      replace (TrimPrefix (Clean (TrimSpace p)) (root ++ [slash])) with r.
      * rewrite (relOf_suffix _ _ _ Hne Hr). exact Hr.
      * rewrite Hr. change (root ++ slash :: r) with (root ++ [slash] ++ r).
        rewrite app_assoc, TrimPrefix_app. reflexivity.
    + intros H. injection H as <-. left. split; [|reflexivity].
      destruct (decide (Clean (TrimSpace p) = root)); [assumption|contradiction].
  - intros [[Hc ->]|Hc].
    + case_bool_decide as Hl.
      { rewrite Hl in Hc. simpl in Hc. congruence. }
      rewrite bool_decide_eq_true_2 by exact Hne.
      rewrite bool_decide_eq_false_2; [reflexivity|]. intros H. apply H. exact Hc.
    + case_bool_decide as Hl.
      { rewrite Hl in Hc. simpl in Hc. exfalso. eapply dot_not_under; eauto. }
      rewrite bool_decide_eq_true_2 by exact Hne.
      rewrite bool_decide_eq_true_2 by (rewrite Hc; intros E; symmetry in E; eapply app_cons_neq; eauto).
      rewrite Hc. change (root ++ slash :: rel) with (root ++ [slash] ++ rel).
      rewrite app_assoc, HasPrefix_app, TrimPrefix_app. simpl.
      rewrite (relOf_suffix (TrimSpace p) root rel Hne Hc). reflexivity.
Qed.

Lemma normalizeRoot_not_dot (cfg : gostring) : normalizeRoot cfg <> [dot].
Proof.
  unfold normalizeRoot. case_bool_decide; [discriminate|].
  case_bool_decide; [discriminate|assumption].
Qed.

Lemma noslash_check (seg : gostring) :
  forallb (fun c => negb (Ascii.eqb c slash)) seg = true -> noslash seg.
Proof.
  intros H Hin. rewrite forallb_forall in H.
  apply list_elem_of_In in Hin. specialize (H _ Hin).
  rewrite Ascii.eqb_refl in H. discriminate.
Qed.

Lemma noslash_app (a b : gostring) : noslash a -> noslash b -> noslash (a ++ b).
Proof. unfold noslash. intros Ha Hb Hin. apply elem_of_app in Hin. tauto. Qed.

Lemma plain_x : plain (str "x").
Proof.
  split; [|split; [|split]]; try discriminate. apply noslash_check. reflexivity.
Qed.

Lemma plain_other : plain (str "other").
Proof.
  split; [|split; [|split]]; try discriminate. apply noslash_check. reflexivity.
Qed.

Lemma plain_mirror (seg : gostring) : plain seg -> plain (seg ++ str "-mirror").
Proof.
  intros (Hne & _ & _ & Hns).
  assert (Hlen : (length (seg ++ str "-mirror") >= 8)%nat).
  { rewrite length_app. destruct seg; [congruence|]. simpl. lia. }
  split; [|split; [|split]].
  - intros E. rewrite E in Hlen. simpl in Hlen. lia.
  - intros E. rewrite E in Hlen. simpl in Hlen. lia.
  - intros E. rewrite E in Hlen. simpl in Hlen. lia.
  - apply noslash_app; [exact Hns|]. apply noslash_check. reflexivity.
Qed.

(** A rooted root kept by [New] is the separator alone or a separator
    before real path elements. *)
Lemma rooted_root_shape (cfg : gostring) :
  is_rooted (normalizeRoot cfg) = true ->
  normalizeRoot cfg = [slash] \/
  exists segs, segs <> [] /\ Forall plain segs /\ normalizeRoot cfg = slash :: join_slash segs.
Proof.
  unfold normalizeRoot. case_bool_decide; [discriminate|].
  case_bool_decide as Hd; [discriminate|]. intros Hr.
  destruct (Clean_shape (TrimSpace cfg)) as [E|[E|(rooted & out & Hne & Hok & Hrt & E)]];
    [congruence|auto|].
  right. rewrite Hr in Hrt. subst rooted. exists (rev out). split; [|split].
  - apply rev_not_nil. exact Hne.
  - apply Forall_forall. intros seg Hin. apply list_elem_of_In, in_rev, list_elem_of_In in Hin.
    pose proof (stack_ok_rooted_plain _ Hok) as Hp. rewrite Forall_forall in Hp. auto.
  - exact E.
Qed.

Ltac not_nil :=
  let E := fresh in
  intros E; apply (f_equal (@length _)) in E;
  repeat rewrite length_app in E; simpl in E; lia.

Lemma snoc_cases {A} (l : list A) : l <> [] -> exists init x, l = init ++ [x].
Proof.
  intros Hne. destruct (exists_last Hne) as (init & x & ->). eauto.
Qed.

(** Under a rooted root, [<root>-mirror/x] is already canonical. *)
Lemma canonical_lookalike (cfg : gostring) :
  is_rooted (normalizeRoot cfg) = true ->
  canonical (normalizeRoot cfg ++ str "-mirror/x") = normalizeRoot cfg ++ str "-mirror/x".
Proof.
  intros Hr. set (root := normalizeRoot cfg) in *.
  assert (Hhead : exists m, root = slash :: m).
  { destruct root as [|c m]; [discriminate|]. simpl in Hr.
    destruct (Ascii.eqb_spec c slash) as [->|]; [eauto|discriminate]. }
  destruct Hhead as [m Hm].
  unfold canonical. rewrite (TrimSpace_solid slash "x"%char (m ++ str "-mirror/x")
    (rev (str "-mirror/") ++ rev root)).
  - destruct (rooted_root_shape cfg Hr) as [E|(segs & Hne & Hp & E)]; fold root in E.
    + rewrite E. reflexivity.
    + destruct (snoc_cases segs Hne) as (init & lst & ->).
      assert (Heq : root ++ str "-mirror/x"
                    = slash :: join_slash ((init ++ [lst ++ str "-mirror"]) ++ [str "x"])).
      { rewrite E. rewrite (join_slash_app (init ++ [lst ++ str "-mirror"]) [str "x"]) by not_nil.
        rewrite <- join_slash_snoc. change (str "-mirror/x") with (str "-mirror" ++ slash :: str "x").
        simpl. rewrite <- app_assoc. reflexivity. }
      rewrite Heq.
      assert (Hall : Forall plain ((init ++ [lst ++ str "-mirror"]) ++ [str "x"])).
      { apply Forall_app in Hp as [Hi Hl]. inversion Hl; subst.
        apply Forall_app. split; [apply Forall_app; split|]; auto.
        - constructor; [apply plain_mirror; assumption|constructor].
        - constructor; [apply plain_x|constructor]. }
      rewrite Clean_rooted_fold by (auto using plain_noslash; not_nil).
      rewrite clean_fold_plain by exact Hall. rewrite app_nil_r.
      destruct (rev ((init ++ [lst ++ str "-mirror"]) ++ [str "x"])) eqn:Erev.
      * rewrite rev_app_distr in Erev. discriminate.
      * rewrite <- Erev, rev_involutive. reflexivity.
  - rewrite Hm. reflexivity.
  - change (str "-mirror/x") with (str "-mirror/" ++ [("x")%char]).
    rewrite app_assoc, rev_app_distr. simpl. rewrite rev_app_distr. reflexivity.
  - reflexivity.
  - reflexivity.
Qed.

(** Under a rooted root, [<root>/../other] canonicalizes to [other] beside
    the root's last element (or under the separator alone). *)
Lemma canonical_escape (cfg : gostring) (init : list gostring) (lst : gostring) :
  Forall plain (init ++ [lst]) ->
  normalizeRoot cfg = slash :: join_slash (init ++ [lst]) ->
  canonical (normalizeRoot cfg ++ str "/../other") = slash :: join_slash (init ++ [str "other"]).
Proof.
  intros Hp E. set (root := normalizeRoot cfg) in *.
  unfold canonical.
  rewrite (TrimSpace_solid slash "r"%char (join_slash (init ++ [lst]) ++ str "/../other")
    (rev (str "/../othe") ++ rev root)).
  - assert (Heq : root ++ str "/../other"
                  = slash :: join_slash ((init ++ [lst]) ++ [dotdot; str "other"])).
    { rewrite E. rewrite (join_slash_app (init ++ [lst]) [dotdot; str "other"]) by not_nil.
      reflexivity. }
    rewrite Heq.
    rewrite Clean_rooted_fold.
    + rewrite fold_left_app, (clean_fold_plain true (init ++ [lst]) [] Hp).
      rewrite app_nil_r, rev_app_distr. cbn [rev app fold_left].
      assert (Hl : is_dotdot lst = false).
      { apply Forall_app in Hp as [_ Hl]. inversion Hl as [|? ? (_ & _ & Hd & _) _]; subst.
        unfold is_dotdot. apply bool_decide_eq_false_2. exact Hd. }
      unfold clean_step at 2. cbn [orb]. simpl bool_decide at 1 2.
      replace (is_dotdot dotdot) with true by (symmetry; apply is_dotdot_true; reflexivity).
      cbn [orb]. rewrite Hl. rewrite clean_step_plain by apply plain_other.
      rewrite rev_involutive. reflexivity.
    + not_nil.
    + apply Forall_app. split; [apply plain_noslash; exact Hp|].
      repeat constructor; apply noslash_check; reflexivity.
  - rewrite E. reflexivity.
  - change (str "/../other") with (str "/../othe" ++ [("r")%char]).
    rewrite app_assoc, rev_app_distr. simpl. rewrite rev_app_distr. reflexivity.
  - reflexivity.
  - reflexivity.
Qed.

Lemma rooted_not_nil (root : gostring) : is_rooted root = true -> root <> [].
Proof. destruct root; [discriminate|discriminate]. Qed.

(** A canonical path that continues the root with anything but a separator
    is outside: the separator check. *)
Lemma sanitize_rejects_extension (fs : FileSystem) (p x : gostring) (c : ascii) :
  localRoot fs <> [] -> localRoot fs <> [dot] -> c <> slash ->
  canonical p = localRoot fs ++ c :: x -> is_ok (sanitize fs p) = false.
Proof.
  intros Hne Hd Hc Hcan. destruct (sanitize fs p) as [rel|e] eqn:E; [|reflexivity].
  exfalso. apply sanitize_accepts_iff in E; [|assumption|assumption].
  rewrite Hcan in E. destruct E as [[E _]|E].
  - symmetry in E. eapply app_cons_neq; eauto.
  - apply app_inv_head in E. congruence.
Qed.

Lemma sanitize_rejects_lookalike (cfg : gostring) :
  is_rooted (normalizeRoot cfg) = true ->
  is_ok (sanitize (New cfg) (normalizeRoot cfg ++ str "-mirror/x")) = false.
Proof.
  intros Hr.
  apply (sanitize_rejects_extension (New cfg) _ (str "mirror/x") "-"%char).
  - apply rooted_not_nil. exact Hr.
  - apply normalizeRoot_not_dot.
  - discriminate.
  - apply canonical_lookalike. exact Hr.
Qed.

Lemma sanitize_rejects_escape (cfg : gostring) :
  is_rooted (normalizeRoot cfg) = true ->
  last (split_slash (normalizeRoot cfg)) <> Some (str "other") ->
  is_ok (sanitize (New cfg) (normalizeRoot cfg ++ str "/../other")) = false.
Proof.
  intros Hr Hlast.
  destruct (sanitize (New cfg) (normalizeRoot cfg ++ str "/../other")) as [rel|e] eqn:E;
    [|reflexivity].
  exfalso.
  apply sanitize_accepts_iff in E;
    [|apply rooted_not_nil; exact Hr|apply normalizeRoot_not_dot].
  cbn [New localRoot] in E.
  destruct (rooted_root_shape cfg Hr) as [Er|(segs & Hne & Hp & Er)].
  - rewrite Er in E. destruct E as [[E _]|E]; vm_compute in E; discriminate.
  - destruct (snoc_cases segs Hne) as (init & lst & ->).
    rewrite (canonical_escape cfg init lst Hp Er) in E.
    assert (Hns : Forall noslash (init ++ [str "other"])).
    { apply Forall_app in Hp as [Hi _]. apply Forall_app. split; [apply plain_noslash; exact Hi|].
      repeat constructor; apply noslash_check; reflexivity. }
    rewrite Er in E, Hlast.
    destruct E as [[E _]|E].
    + injection E as E. apply (f_equal split_slash) in E.
      rewrite !split_join in E by (auto using plain_noslash; not_nil).
      apply app_inj_tail in E as [_ E].
      apply Hlast. rewrite split_rooted by (auto using plain_noslash).
      rewrite <- E, app_comm_cons. apply last_snoc.
    + injection E as E. apply (f_equal split_slash) in E.
      rewrite split_slash_app in E.
      rewrite !split_join in E by (auto using plain_noslash; not_nil).
      apply (f_equal (@length _)) in E. rewrite !length_app in E. simpl in E.
      pose proof (split_slash_not_nil rel) as Hrel.
      destruct (split_slash rel); [congruence|]. simpl in E. lia.
Qed.

Lemma is_rooted_Clean (p : gostring) : is_rooted (Clean p) = is_rooted p.
Proof.
  destruct p as [|c p]; [reflexivity|].
  unfold Clean. set (rooted := is_rooted (c :: p)).
  pose proof (clean_fold_ok rooted (split_slash (c :: p)) [] (split_noslash _) (stack_ok_nil _)) as Hok.
  destruct (fold_left (clean_step rooted) (split_slash (c :: p)) []) as [|top rest] eqn:E.
  - destruct rooted; reflexivity.
  - destruct rooted; [reflexivity|].
    destruct (join_stack_unrooted false (top :: rest)) as (c' & r & -> & Hc); [discriminate|exact Hok|].
    simpl. destruct (Ascii.eqb_spec c' slash); congruence.
Qed.

Lemma wellformed_nil : wellformed [] = true.
Proof. reflexivity. Qed.

(** Real path elements joined make a well-formed key. *)
Lemma wellformed_stack out :
  out <> [] -> stack_ok true out -> wellformed (join_slash (rev out)) = true.
Proof.
  intros Hne Hok. unfold wellformed.
  destruct (join_stack_unrooted _ _ Hne Hok) as (c & r & Hj & Hc).
  assert (Hr : is_rooted (join_slash (rev out)) = false).
  { rewrite Hj. simpl. destruct (Ascii.eqb_spec c slash); congruence. }
  rewrite Hr. cbn [negb andb].
  rewrite (split_join (rev out) (rev_not_nil _ Hne) (stack_ok_rev_noslash _ _ Hok)).
  apply forallb_forall. intros seg Hin. apply in_rev, list_elem_of_In in Hin.
  pose proof (stack_ok_rooted_plain _ Hok) as Hp. rewrite Forall_forall in Hp.
  destruct (Hp seg Hin) as (_ & Hd & Hdd & _).
  unfold is_dotdot. rewrite !bool_decide_eq_false_2 by assumption. reflexivity.
Qed.

Lemma TrimLeftSlash_unrooted (s : gostring) : is_rooted s = false -> TrimLeftSlash s = s.
Proof.
  destruct s as [|c s]; [reflexivity|]. simpl. intros ->. reflexivity.
Qed.

(** A rooted canonical path always gives a well-formed key. *)
Lemma sanitize_wellformed_canonical (fs : FileSystem) (p rel : gostring) :
  localRoot fs <> [dot] -> is_rooted (canonical p) = true ->
  sanitize fs p = Ok rel -> wellformed rel = true.
Proof.
  intros Hd Hr Hs.
  destruct (decide (localRoot fs = [])) as [Hroot|Hroot].
  - unfold sanitize in Hs. case_bool_decide as Hl; [discriminate|].
    rewrite bool_decide_eq_false_2 in Hs by (intros H; apply H; exact Hroot).
    injection Hs as <-. fold (canonical p).
    destruct (Clean_shape (TrimSpace p)) as [E|[E|(rooted & out & Hne & Hok & Hrt & E)]];
      fold (canonical p) in *.
    + rewrite E in Hr. discriminate.
    + rewrite E. reflexivity.
    + rewrite Hr in Hrt. subst rooted. rewrite E. cbn [app TrimLeftSlash].
      rewrite Ascii.eqb_refl.
      destruct (join_stack_unrooted _ _ Hne Hok) as (c & r & Hj & Hc).
      rewrite TrimLeftSlash_unrooted.
      * rewrite (relOf_stack _ _ Hne Hok). apply wellformed_stack; assumption.
      * rewrite Hj. simpl. destruct (Ascii.eqb_spec c slash); congruence.
  - apply sanitize_accepts_iff in Hs; [|assumption|assumption].
    destruct Hs as [[_ ->]|Hc]; [reflexivity|].
    destruct (Clean_suffix (TrimSpace p) (localRoot fs) rel Hroot Hc) as (out & Hne & Hok & ->).
    assert (Hrr : is_rooted (localRoot fs) = true).
    { rewrite Hc in Hr. destruct (localRoot fs); [congruence|exact Hr]. }
    rewrite Hrr in Hok. apply wellformed_stack; assumption.
Qed.

End SanitizeFacts.

Section JailClaims.
Import GoStrings GoPath GoFacts Objectstore RemoteFS SanitizeFacts.

(** C1.  With a configured, non-empty local root (as [New] keeps it),
    [sanitize] accepts a path exactly when its lexical canonicalization is
    the root, giving the empty key, or begins with the root followed by a
    separator, giving what follows the separator; everything else is an
    error.  A canonical path that merely continues the root's bytes is
    rejected.  For a rooted root, [<root>-mirror/x] is rejected, and so is
    [<root>/../other] unless the root's own last element is [other]. *)
Theorem sanitize_jail (cfgRoot p : gostring) :
  let fs := New cfgRoot in
  let root := localRoot fs in
  root <> [] ->
  (forall rel, sanitize fs p = Ok rel <->
     (canonical p = root /\ rel = []) \/ canonical p = root ++ slash :: rel)
  /\ (is_ok (sanitize fs p) = false <->
        canonical p <> root /\ HasPrefix (canonical p) (root ++ [slash]) = false)
  /\ (forall (c : ascii) (x : gostring),
        c <> slash -> canonical p = root ++ c :: x -> is_ok (sanitize fs p) = false)
  /\ (is_rooted root = true ->
        is_ok (sanitize fs (root ++ str "-mirror/x")) = false)
  /\ (is_rooted root = true -> last (split_slash root) <> Some (str "other") ->
        is_ok (sanitize fs (root ++ str "/../other")) = false).
Proof.
  intros fs root Hne.
  pose proof (normalizeRoot_not_dot cfgRoot) as Hdot.
  assert (Hiff : forall rel, sanitize fs p = Ok rel <->
     (canonical p = root /\ rel = []) \/ canonical p = root ++ slash :: rel).
  { intros rel. apply sanitize_accepts_iff; assumption. }
  split; [exact Hiff|]. split; [|split; [|split]].
  - split.
    + intros Hrej. split.
      * intros Hc. assert (Hok : sanitize fs p = Ok []) by (apply Hiff; auto).
        rewrite Hok in Hrej. discriminate.
      * destruct (HasPrefix (canonical p) (root ++ [slash])) eqn:Hp; [|reflexivity].
        apply HasPrefix_inv in Hp as [r Hr]. rewrite <- app_assoc in Hr.
        assert (Hok : sanitize fs p = Ok r) by (apply Hiff; right; exact Hr).
        rewrite Hok in Hrej. discriminate.
    + intros [Hc Hp]. destruct (sanitize fs p) as [rel|e] eqn:E; [|reflexivity].
      destruct (proj1 (Hiff rel) eq_refl) as [[E' _]|E']; [contradiction|].
      rewrite E' in Hp. change (root ++ slash :: rel) with (root ++ [slash] ++ rel) in Hp.
      rewrite app_assoc, HasPrefix_app in Hp. discriminate.
  - intros c x Hc Hcan. eapply sanitize_rejects_extension; eauto.
  - apply sanitize_rejects_lookalike.
  - apply sanitize_rejects_escape.
Qed.

Lemma sanitize_jail_witness :
  localRoot (New (str "/data")) <> []
  /\ sanitize (New (str "/data")) (str " /data/docs/./report.txt") = Ok (str "docs/report.txt").
Proof.
  assert (H : localRoot (New (str "/data")) <> []) by (vm_compute; discriminate).
  split; [exact H|].
  apply (proj1 (sanitize_jail (str "/data") (str " /data/docs/./report.txt") H)).
  right. reflexivity.
Defined.

(** C2 fails on the code: with no local root configured, a relative input
    keeps its leading [..] elements, so the key returned is not well formed. *)
Theorem sanitize_keeps_dotdot :
  sanitize (New []) (str "../etc/passwd") = Ok (str "../etc/passwd")
  /\ wellformed (str "../etc/passwd") = false
  /\ sanitize (New (str "..")) (str "../../other") = Ok (str "../other").
Proof. repeat split. Qed.

(** X1.  Where C2 does hold: when the local root [New] keeps is rooted, or the
    trimmed input is, every key [sanitize] returns is well formed (no leading
    separator, no [.] and no [..] element). *)
Theorem sanitize_wellformed (cfgRoot p rel : gostring) :
  is_rooted (localRoot (New cfgRoot)) = true \/ is_rooted (TrimSpace p) = true ->
  sanitize (New cfgRoot) p = Ok rel -> wellformed rel = true.
Proof.
  intros Hr Hs.
  apply (sanitize_wellformed_canonical (New cfgRoot) p rel); [apply normalizeRoot_not_dot| |exact Hs].
  destruct Hr as [Hr|Hr].
  - pose proof (rooted_not_nil _ Hr) as Hne.
    apply sanitize_accepts_iff in Hs; [|exact Hne|apply normalizeRoot_not_dot].
    destruct Hs as [[Hc _]|Hc]; rewrite Hc; [exact Hr|].
    destruct (localRoot (New cfgRoot)); [congruence|exact Hr].
  - unfold canonical. rewrite is_rooted_Clean. exact Hr.
Qed.

Lemma sanitize_wellformed_witness :
  sanitize (New (str "/data")) (str "/data/a/../b/./c") = Ok (str "b/c")
  /\ wellformed (str "b/c") = true.
Proof.
  assert (Hs : sanitize (New (str "/data")) (str "/data/a/../b/./c") = Ok (str "b/c"))
    by reflexivity.
  split; [exact Hs|].
  exact (sanitize_wellformed (str "/data") (str "/data/a/../b/./c") (str "b/c")
           (or_introl eq_refl) Hs).
Defined.

End JailClaims.

Example stat_flat_directory :
  fst (RemoteFS.Stat TestStores.flatStore (RemoteFS.New (str "/data")) (str "/data/docs") TestStores.start)
  = Ok (Objectstore.mkFileMeta (str "docs") 0 [] 0 true).
Proof. vm_compute. reflexivity. Qed.

Example stat_missing :
  fst (RemoteFS.Stat TestStores.flatStore (RemoteFS.New (str "/data")) (str "/data/missing.txt") TestStores.start)
  = Err (NotFoundError (str "/data/missing.txt")).
Proof. vm_compute. reflexivity. Qed.

Example warm_tree :
  match RemoteFS.WarmMetadataCache 3 TestStores.background TestStores.treeStore
          (RemoteFS.New (str "/data")) TestStores.start with
  | Some (None, fs, _) =>
      RemoteFS.cachedMeta fs (str "docs/report.txt") = Some (TestStores.file "docs/report.txt" 42)
      /\ RemoteFS.cachedMeta fs (str "docs/archive/old.txt") = Some (TestStores.file "docs/archive/old.txt" 5)
      /\ RemoteFS.cachedMeta fs (str "docs") = Some (TestStores.dir "docs")
      /\ RemoteFS.cachedMeta fs [] = Some (Objectstore.dirMeta [])
  | _ => False
  end.
Proof. vm_compute. repeat split. Qed.

Lemma populate_loop_runs_out (fuel : nat) rel dst w :
  RemoteFS.populateMetadata fuel TestStores.background TestStores.loopStore rel dst w = None.
Proof.
  revert rel dst w. induction fuel as [|fuel IH]; intros rel dst w; [reflexivity|].
  simpl. rewrite IH. reflexivity.
Qed.

Example warm_loop_runs_out (fuel : nat) :
  RemoteFS.WarmMetadataCache fuel TestStores.background TestStores.loopStore
    (RemoteFS.New []) TestStores.start = None.
Proof.
  unfold RemoteFS.WarmMetadataCache. rewrite populate_loop_runs_out. reflexivity.
Qed.

(** ** The facade: [Stat], [ReadDir], [WarmMetadataCache] *)

Module FacadeFacts.
Import GoStrings GoPath GoFacts Objectstore RemoteFS SanitizeFacts.
Export WalkSpec.

Lemma Clean_idem (p : gostring) : Clean (Clean p) = Clean p.
Proof.
  destruct (Clean_shape p) as [E|[E|(rooted & out & Hne & Hok & _ & E)]].
  - rewrite E. reflexivity.
  - rewrite E. reflexivity.
  - rewrite E. destruct rooted; cbn [app].
    + pose proof (stack_ok_rooted_plain _ Hok) as Hp.
      assert (Hpr : Forall plain (rev out)).
      { apply Forall_forall. intros seg Hin.
        apply list_elem_of_In, in_rev, list_elem_of_In in Hin.
        rewrite Forall_forall in Hp. auto. }
      rewrite Clean_rooted_fold by (auto using plain_noslash, rev_not_nil).
      rewrite clean_fold_plain by exact Hpr.
      rewrite app_nil_r, rev_involutive. destruct out; [congruence|reflexivity].
    + apply Clean_join_stack; assumption.
Qed.

(** The path a [NotFoundError] carries: under a configured root it is the
    canonical form of the path that was asked for. *)
Lemma joinLocal_canonical (fs : FileSystem) (p rel : gostring) :
  localRoot fs <> [] -> localRoot fs <> [dot] -> rel <> [] ->
  sanitize fs p = Ok rel -> joinLocal fs rel = canonical p.
Proof.
  intros Hne Hd Hrel Hs. apply sanitize_accepts_iff in Hs; [|assumption|assumption].
  destruct Hs as [[_ ?]|Hc]; [congruence|].
  unfold joinLocal. destruct (localRoot fs) as [|c root] eqn:Er; [congruence|].
  destruct rel as [|d rel]; [congruence|].
  unfold Join. rewrite <- Hc. unfold canonical. apply Clean_idem.
Qed.

Lemma Stat_unfold {W} (store : ObjectStore W) fs p rel (w : World W) :
  sanitize fs p = Ok rel -> rel <> [] -> cachedMeta fs rel = None ->
  Stat store fs p w =
    let '(r, w1) := callHead store rel w in
    match r with
    | Ok m => (Ok m, w1)
    | Err err =>
        if negb (IsNotFound err) then (Err err, w1)
        else
          let '(lr, w2) := callList store rel w1 in
          match lr with
          | Ok (_ :: _) => (Ok (dirMeta rel), w2)
          | Ok [] => (Err (NotFoundError (joinLocal fs rel)), w2)
          | Err listErr =>
              if negb (IsNotFound listErr) then (Err listErr, w2)
              else (Err (NotFoundError (joinLocal fs rel)), w2)
          end
    end.
Proof.
  intros Hs Hrel Hc. unfold Stat. rewrite Hs.
  rewrite bool_decide_eq_false_2 by exact Hrel. rewrite Hc. reflexivity.
Qed.

Lemma keyed_insert (m : gmap gostring FileMeta) (item : FileMeta) :
  keyed m -> keyed (<[Path item := item]> m).
Proof.
  intros Hk k v Hl. destruct (decide (Path item = k)) as [<-|Hne].
  - rewrite lookup_insert_eq in Hl. congruence.
  - rewrite lookup_insert_ne in Hl by exact Hne. eauto.
Qed.

Lemma grows_insert (m : gmap gostring FileMeta) (item : FileMeta) :
  grows m (<[Path item := item]> m).
Proof.
  intros k Hs. destruct (decide (Path item = k)) as [<-|Hne].
  - rewrite lookup_insert_eq. eauto.
  - rewrite lookup_insert_ne by exact Hne. exact Hs.
Qed.

Lemma grows_trans (a b c : gmap gostring FileMeta) : grows a b -> grows b c -> grows a c.
Proof. unfold grows. eauto. Qed.

Lemma listed_grows (cs : list StoreCall) (m m' : gmap gostring FileMeta) : listed cs m -> grows m m' -> listed cs m'.
Proof. unfold listed, grows. eauto. Qed.

Lemma listed_app (cs1 cs2 : list StoreCall) (m : gmap gostring FileMeta) :
  listed cs1 m -> listed cs2 m -> listed (cs1 ++ cs2) m.
Proof.
  intros H1 H2 key items item Hin. apply elem_of_app in Hin as [Hin|Hin]; eauto.
Qed.

Section Walk.
Context {W : Type}.
Variable ctx : Context W.
Variable store : ObjectStore W.

Lemma rangeItems_ok
    (rec : gostring -> gmap gostring FileMeta -> World W ->
           option (option error * gmap gostring FileMeta * World W)) :
  (forall rel d w0 d' w0',
      rec rel d w0 = Some (None, d', w0') -> keyed d -> walked d w0 d' w0') ->
  forall items dst w dst' w',
    rangeItems rec items dst w = Some (None, dst', w') -> keyed dst ->
    walked dst w dst' w' /\ (forall item, item ∈ items -> is_Some (dst' !! Path item)).
Proof.
  intros Hrec. induction items as [|item rest IH]; intros dst w dst' w' Hr Hk.
  - simpl in Hr. injection Hr as <- <-. split.
    + split; [exact Hk|]. split; [intros k; auto|].
      exists []. split; [rewrite app_nil_r; reflexivity|].
      intros key items item Hin. inversion Hin.
    + intros item Hin. inversion Hin.
  - simpl in Hr. pose proof (keyed_insert dst item Hk) as Hk1.
    pose proof (grows_insert dst item) as Hg1.
    assert (Hitem : is_Some (<[Path item := item]> dst !! Path item))
      by (rewrite lookup_insert_eq; eauto).
    destruct (IsDir item).
    + destruct (rec (Path item) (<[Path item := item]> dst) w) as [[[[e|] d] w1]|] eqn:Er;
        try discriminate.
      destruct (Hrec _ _ _ _ _ Er Hk1) as (Hkd & Hgd & cs1 & Hc1 & Hl1).
      destruct (IH _ _ _ _ Hr Hkd) as ((Hk' & Hg' & cs2 & Hc2 & Hl2) & Hrest).
      split.
      * split; [exact Hk'|]. split; [eauto using grows_trans|].
        exists (cs1 ++ cs2). split; [rewrite Hc2, Hc1, app_assoc; reflexivity|].
        apply listed_app; [eapply listed_grows; eauto|exact Hl2].
      * intros i Hin. apply elem_of_cons in Hin as [->|Hin]; [|auto].
        apply Hg', Hgd, Hitem.
    + destruct (IH _ _ _ _ Hr Hk1) as ((Hk' & Hg' & cs2 & Hc2 & Hl2) & Hrest).
      split.
      * split; [exact Hk'|]. split; [eauto using grows_trans|]. eauto.
      * intros i Hin. apply elem_of_cons in Hin as [->|Hin]; [|auto].
        apply Hg', Hitem.
Qed.

Lemma populateMetadata_ok fuel :
  forall rel dst w dst' w',
    populateMetadata fuel ctx store rel dst w = Some (None, dst', w') -> keyed dst ->
    walked dst w dst' w'.
Proof.
  induction fuel as [|fuel IH]; intros rel dst w dst' w' Hp Hk; [discriminate|].
  simpl in Hp. destruct (Done ctx (env w)); [discriminate|].
  unfold callList in Hp. destruct (List store rel (env w)) as [r e1] eqn:El.
  destruct r as [items|err].
  - destruct (rangeItems_ok _ IH _ _ _ _ _ Hp Hk) as ((Hk' & Hg' & cs & Hc & Hl) & Hitems).
    split; [exact Hk'|]. split; [exact Hg'|].
    exists (CallList rel (Ok items) :: cs). split.
    + rewrite Hc. cbn [calls]. rewrite <- app_assoc. reflexivity.
    + intros key its item Hin Hitem. apply elem_of_cons in Hin as [Heq|Hin].
      * injection Heq as -> ->. auto.
      * eapply Hl; eauto.
  - destruct (IsNotFound err); [|discriminate]. injection Hp as <- <-.
    split; [exact Hk|]. split; [intros k; auto|].
    exists [CallList rel (Err err)]. split; [reflexivity|].
    intros key its item Hin. apply elem_of_cons in Hin as [Heq|Hin]; [discriminate|inversion Hin].
Qed.

Lemma rangeItems_mono rec rec' :
  (forall rel d w r, rec rel d w = Some r -> rec' rel d w = Some r) ->
  forall items dst (w : World W) r,
    rangeItems rec items dst w = Some r -> rangeItems rec' items dst w = Some r.
Proof.
  intros Hrec. induction items as [|item rest IH]; intros dst w r Hr; [exact Hr|].
  simpl in *. destruct (IsDir item); [|auto].
  destruct (rec (Path item) (<[Path item := item]> dst) w) as [[[[e|] d] w1]|] eqn:Er;
    try discriminate; rewrite (Hrec _ _ _ _ Er); auto.
Qed.

(** More fuel does not change the outcome of a walk that finished. *)
Lemma populateMetadata_mono fuel fuel' :
  (fuel <= fuel')%nat ->
  forall rel dst w r,
    populateMetadata fuel ctx store rel dst w = Some r ->
    populateMetadata fuel' ctx store rel dst w = Some r.
Proof.
  revert fuel'. induction fuel as [|fuel IH]; intros fuel' Hle rel dst w r Hp; [discriminate|].
  destruct fuel' as [|fuel']; [lia|].
  simpl in *. destruct (Done ctx (env w)); [exact Hp|].
  destruct (callList store rel w) as [[items|err] w1]; [|exact Hp].
  eapply rangeItems_mono; [|exact Hp]. intros. eapply IH; [lia|eassumption].
Qed.

End Walk.

End FacadeFacts.

Section FacadeClaims.
Import GoStrings GoPath GoFacts Objectstore RemoteFS SanitizeFacts FacadeFacts.
Context {W : Type}.
Variable store : ObjectStore W.

(** C5.  For a path that sanitizes to a non-empty key with no warm-cache
    entry, [Stat] calls [Head] first and returns its metadata when it
    succeeds, making no other call.  When [Head] reports not-found it calls
    [List] next: a non-empty listing gives the synthesized directory
    [{Path: rel, IsDir: true, Size: 0}], an empty or not-found listing gives
    [NotFoundError] with the local path rendered by [joinLocal], which under
    a configured root is the canonical form of the input. *)
Theorem Stat_head_then_list (fs : FileSystem) (p rel : gostring) (w : World W) :
  sanitize fs p = Ok rel -> rel <> [] -> cachedMeta fs rel = None ->
  (forall m e1, Head store rel (env w) = (Ok m, e1) ->
     Stat store fs p w = (Ok m, mkWorld e1 (calls w ++ [CallHead rel (Ok m)])))
  /\ (forall err e1 lr e2,
        Head store rel (env w) = (Err err, e1) -> IsNotFound err = true ->
        List store rel e1 = (lr, e2) ->
        let w2 := mkWorld e2 (calls w ++ [CallHead rel (Err err); CallList rel lr]) in
        match lr with
        | Ok (_ :: _) => Stat store fs p w = (Ok (mkFileMeta rel 0 [] 0 true), w2)
        | Ok [] => Stat store fs p w = (Err (NotFoundError (joinLocal fs rel)), w2)
        | Err listErr =>
            IsNotFound listErr = true ->
            Stat store fs p w = (Err (NotFoundError (joinLocal fs rel)), w2)
        end)
  /\ (localRoot fs <> [] -> localRoot fs <> [dot] -> joinLocal fs rel = canonical p).
Proof.
  intros Hs Hrel Hc. split; [|split].
  - intros m e1 Hh. rewrite (Stat_unfold store fs p rel w Hs Hrel Hc).
    unfold callHead. rewrite Hh. reflexivity.
  - intros err e1 lr e2 Hh Hnf Hl w2.
    rewrite (Stat_unfold store fs p rel w Hs Hrel Hc).
    unfold callHead. rewrite Hh, Hnf. cbn [negb].
    unfold callList. cbn [env calls]. rewrite Hl.
    subst w2. rewrite <- app_assoc. cbn [app].
    destruct lr as [[|i items]|listErr]; try reflexivity.
    intros Hnf'. rewrite Hnf'. reflexivity.
  - intros Hne Hd. apply joinLocal_canonical; assumption.
Qed.

End FacadeClaims.

Lemma Stat_head_then_list_witness :
  RemoteFS.Stat TestStores.flatStore (RemoteFS.New (str "/data")) (str "/data/docs") TestStores.start
  = (Ok (Objectstore.mkFileMeta (str "docs") 0 [] 0 true),
     RemoteFS.mkWorld tt
       [ RemoteFS.CallHead (str "docs") (Err (StoreNotFound (str "docs")));
         RemoteFS.CallList (str "docs") (Ok [TestStores.file "docs/report.txt" 42]) ]).
Proof.
  assert (Hs : RemoteFS.sanitize (RemoteFS.New (str "/data")) (str "/data/docs") = Ok (str "docs"))
    by reflexivity.
  assert (Hrel : str "docs" <> []) by discriminate.
  assert (Hc : RemoteFS.cachedMeta (RemoteFS.New (str "/data")) (str "docs") = None) by reflexivity.
  exact (proj1 (proj2 (Stat_head_then_list TestStores.flatStore (RemoteFS.New (str "/data"))
           (str "/data/docs") (str "docs") TestStores.start Hs Hrel Hc))
         (StoreNotFound (str "docs")) tt (Ok [TestStores.file "docs/report.txt" 42]) tt
         eq_refl eq_refl eq_refl).
Defined.

Section WarmClaims.
Import GoStrings GoPath Objectstore RemoteFS FacadeFacts.
Context {W : Type}.
Variable ctx : Context W.
Variable store : ObjectStore W.

(** C6.  [WarmMetadataCache] writes [fs.meta] once, after the walk: when the
    walk returns an error (a cancelled context included) the filesystem is
    left exactly as it was, and when it succeeds the installed map has an
    entry for the root key and, under its own path, an entry for every item
    of every listing the walk read.  A walk that finished gives the same
    result with any larger bound on its depth. *)
Theorem WarmMetadataCache_atomic (fuel : nat) (fs : FileSystem) (w : World W)
    (err : option error) (fs' : FileSystem) (w' : World W) :
  WarmMetadataCache fuel ctx store fs w = Some (err, fs', w') ->
  (forall fuel', (fuel <= fuel')%nat ->
     WarmMetadataCache fuel' ctx store fs w = Some (err, fs', w'))
  /\ (forall e, Done ctx (env w) = Some e -> err = Some e /\ fs' = fs /\ w' = w)
  /\ match err with
     | Some _ => fs' = fs
     | None =>
         exists entries cs,
           fs' = mkFS (localRoot fs) (Some entries)
           /\ is_Some (entries !! [])
           /\ calls w' = calls w ++ cs
           /\ forall key items item,
                CallList key (Ok items) ∈ cs -> item ∈ items ->
                exists item', entries !! Path item = Some item' /\ Path item' = Path item
     end.
Proof.
  unfold WarmMetadataCache. intros Hw.
  set (entries0 := <[ [] := dirMeta [] ]> (∅ : gmap gostring FileMeta)) in *.
  destruct (populateMetadata fuel ctx store [] entries0 w) as [r|] eqn:Ep; [|discriminate].
  split; [|split].
  - intros fuel' Hle.
    rewrite (populateMetadata_mono ctx store fuel fuel' Hle _ _ _ _ Ep). exact Hw.
  - intros e Hd. destruct fuel as [|fuel]; [discriminate|].
    simpl in Ep. rewrite Hd in Ep. injection Ep as <-. injection Hw as <- <- <-. auto.
  - destruct r as [[[e|] entries] w1].
    + injection Hw as <- <- <-. reflexivity.
    + injection Hw as <- <- <-.
      assert (Hk0 : keyed entries0).
      { intros k v Hl. unfold entries0 in Hl.
        destruct (decide ([] = k)) as [<-|Hne].
        - rewrite lookup_insert_eq in Hl. injection Hl as <-. reflexivity.
        - rewrite lookup_insert_ne, lookup_empty in Hl by exact Hne. discriminate. }
      destruct (populateMetadata_ok ctx store fuel _ _ _ _ _ Ep Hk0) as (Hk & Hg & cs & Hc & Hl).
      exists entries, cs. split; [reflexivity|]. split; [|split; [exact Hc|]].
      * apply Hg. unfold entries0. rewrite lookup_insert_eq. eauto.
      * intros key items item Hin Hitem.
        destruct (Hl key items item Hin Hitem) as [item' Hitem'].
        exists item'. split; [exact Hitem'|]. apply Hk. exact Hitem'.
Qed.

End WarmClaims.

Lemma WarmMetadataCache_atomic_witness :
  RemoteFS.WarmMetadataCache 3 TestStores.background TestStores.treeStore
    (RemoteFS.New (str "/data")) TestStores.start
  = Some (None, RemoteFS.mkFS (str "/data") (Some TestStores.treeSnapshot),
          RemoteFS.mkWorld tt TestStores.treeCalls)
  /\ exists item',
       TestStores.treeSnapshot !! str "docs/archive/old.txt" = Some item'
       /\ Objectstore.Path item' = str "docs/archive/old.txt".
Proof.
  assert (E : RemoteFS.WarmMetadataCache 3 TestStores.background TestStores.treeStore
                (RemoteFS.New (str "/data")) TestStores.start
              = Some (None, RemoteFS.mkFS (str "/data") (Some TestStores.treeSnapshot),
                      RemoteFS.mkWorld tt TestStores.treeCalls))
    by reflexivity.
  split; [exact E|].
  destruct (proj2 (proj2 (WarmMetadataCache_atomic TestStores.background TestStores.treeStore
              3 _ _ _ _ _ E))) as (entries & cs & Hfs & _ & Hc & Hl).
  injection Hfs as <-. change (TestStores.treeCalls = cs) in Hc. subst cs.
  apply (Hl (str "docs/archive") [TestStores.file "docs/archive/old.txt" 5]
            (TestStores.file "docs/archive/old.txt" 5)).
  - right. right. left.
  - left.
Defined.

Section ReadDirClaims.
Import GoStrings GoPath Objectstore RemoteFS TestStores.

(** C4 fails on the code: below the root, a listing that failed with a
    transport error is reported as [NotFoundError], not as the error it was
    (which is what [Stat] returns for the same listing failure); and at the
    root a not-found listing is [NotFoundError] as well. *)
Theorem ReadDir_masks_backend_error :
  ReadDir brokenStore (New (str "/data")) (str "/data/docs") start
  = (Err (NotFoundError (str "/data/docs")),
     mkWorld tt [CallList (str "docs") (Err (Errorf (str "list docs: connection reset")))])
  /\ fst (ReadDir brokenStore (New (str "/data")) (str "/data") start)
     = Err (NotFoundError (str "/data"))
  /\ fst (Stat brokenStore (New (str "/data")) (str "/data/docs") start)
     = Err (Errorf (str "list docs: connection reset")).
Proof. split; [|split]; vm_compute; reflexivity. Qed.



End ReadDirClaims.

Example cache_eviction_scenario :
  match Cache.run Cache.plainName
          [ Cache.OpLoadOrCreate (str "a") (Cache.Fetched 60);
            Cache.OpLoadOrCreate (str "b") (Cache.Fetched 60) ]
          (Cache.New (str "/cache") 100, ∅) with
  | Some (c, d) =>
      Cache.used c = 60 /\ Cache.entries c !! str "a" = None
      /\ Cache.order c = [str "b"] /\ elements d = [str "/cache/b"]
  | None => False
  end.
Proof. vm_compute. split; [|split; [|split]]; reflexivity. Qed.

(** ** Facts about the cache *)

Module CacheFacts.
Import GoStrings GoPath Cache.
Export CacheSpec.

Lemma wrap64_id (z : Z) : - 2 ^ 63 <= z < 2 ^ 63 -> wrap64 z = z.
Proof.
  intros H. unfold wrap64. rewrite Z.mod_small by lia. lia.
Qed.

(** *** Sums of sizes *)

Lemma totalSize_empty : totalSize ∅ = 0.
Proof. unfold totalSize. apply map_fold_empty. Qed.

Lemma totalSize_insert (m : gmap gostring cacheEntry) k e :
  m !! k = None -> totalSize (<[k := e]> m) = size e + totalSize m.
Proof.
  intros Hk. unfold totalSize. apply (map_fold_insert_L (fun _ e acc => size e + acc)); [|exact Hk].
  intros. lia.
Qed.

Lemma totalSize_delete (m : gmap gostring cacheEntry) k e :
  m !! k = Some e -> totalSize m = size e + totalSize (delete k m).
Proof.
  intros Hk. unfold totalSize. apply (map_fold_delete_L (fun _ e acc => size e + acc)); [|exact Hk].
  intros. lia.
Qed.

Lemma totalSize_nonneg (m : gmap gostring cacheEntry) :
  (forall k e, m !! k = Some e -> 0 <= size e) -> 0 <= totalSize m.
Proof.
  induction m as [|k e m Hk IH] using map_ind; intros Hs.
  - rewrite totalSize_empty. lia.
  - rewrite totalSize_insert by exact Hk.
    assert (0 <= size e) by (apply (Hs k); apply lookup_insert_eq).
    assert (0 <= totalSize m).
    { apply IH. intros k' e' Hl. apply (Hs k').
      rewrite lookup_insert_ne; [exact Hl|]. intros ->. congruence. }
    lia.
Qed.

(** *** The LRU list *)

Lemma last_removelast (l : list gostring) (k : gostring) :
  last l = Some k -> l = removelast l ++ [k].
Proof.
  induction l as [|x l IH]; intros Hl; [discriminate|].
  destruct l as [|y l].
  - simpl in Hl. injection Hl as ->. reflexivity.
  - change (last (x :: y :: l)) with (last (y :: l)) in Hl.
    change (removelast (x :: y :: l)) with (x :: removelast (y :: l)).
    simpl. f_equal. apply IH. exact Hl.
Qed.

Lemma last_is_Some (l : list gostring) : l <> [] -> is_Some (last l).
Proof.
  induction l as [|x l IH]; intros Hne; [congruence|].
  destruct l as [|y l]; [simpl; eauto|]. apply IH. discriminate.
Qed.

Lemma elem_of_removeElem (key k : gostring) (l : list gostring) :
  NoDup l -> (k ∈ removeElem key l <-> k ∈ l /\ k <> key).
Proof.
  induction l as [|x l IH]; intros Hnd; simpl.
  - split; [intros H; inversion H|intros [H _]; inversion H].
  - apply NoDup_cons in Hnd as [Hx Hnd]. case_bool_decide as Hk.
    + subst x. split.
      * intros Hin. split; [right; exact Hin|]. intros ->. contradiction.
      * intros [Hin Hne]. apply elem_of_cons in Hin as [->|Hin]; [congruence|exact Hin].
    + rewrite !elem_of_cons, IH by exact Hnd. split.
      * intros [->|[Hin Hne]]; auto.
      * intros [[->|Hin] Hne]; auto.
Qed.

Lemma NoDup_removeElem (key : gostring) (l : list gostring) :
  NoDup l -> NoDup (removeElem key l).
Proof.
  induction l as [|x l IH]; intros Hnd; simpl; [constructor|].
  apply NoDup_cons in Hnd as [Hx Hnd]. case_bool_decide; [exact Hnd|].
  apply NoDup_cons. split; [|auto].
  rewrite elem_of_removeElem by exact Hnd. tauto.
Qed.

Lemma removeElem_absent (key : gostring) (l : list gostring) :
  key ∉ l -> removeElem key l = l.
Proof.
  induction l as [|x l IH]; intros Hin; simpl; [reflexivity|].
  apply not_elem_of_cons in Hin as [Hne Hin].
  rewrite bool_decide_eq_false_2 by congruence. rewrite IH by exact Hin. reflexivity.
Qed.

Lemma Inv_New (d : gostring) (maxB : Z) : Inv (New d maxB).
Proof.
  split; simpl.
  - constructor.
  - intros k. rewrite lookup_empty. split; [intros H; inversion H|intros [? H]; discriminate].
  - intros k e H. rewrite lookup_empty in H. discriminate.
  - rewrite totalSize_empty. reflexivity.
  - lia.
Qed.

Lemma Inv_used_nonneg (c : Cache) : Inv c -> 0 <= used c.
Proof. intros H. rewrite (inv_used c H). apply totalSize_nonneg, (inv_sizes c H). Qed.

Lemma Inv_empty_order (c : Cache) : Inv c -> order c = [] -> entries c = ∅ /\ used c = 0.
Proof.
  intros H Ho. assert (He : entries c = ∅).
  { apply map_eq. intros k. rewrite lookup_empty.
    destruct (entries c !! k) eqn:E; [|reflexivity].
    assert (Hin : k ∈ order c) by (apply (inv_dom c H); eauto).
    rewrite Ho in Hin. inversion Hin. }
  split; [exact He|]. rewrite (inv_used c H), He. apply totalSize_empty.
Qed.

Lemma Inv_MoveToFront (c : Cache) (key : gostring) :
  Inv c -> is_Some (entries c !! key) ->
  Inv (mkCache (dir c) (maxBytes c) (entries c) (MoveToFront key (order c)) (used c)).
Proof.
  intros H Hk. split; simpl.
  - unfold MoveToFront. apply NoDup_cons. split.
    + rewrite elem_of_removeElem by apply (inv_nodup c H). tauto.
    + apply NoDup_removeElem, (inv_nodup c H).
  - intros k. unfold MoveToFront. rewrite elem_of_cons, elem_of_removeElem by apply (inv_nodup c H).
    rewrite (inv_dom c H). split.
    + intros [->|[Hs _]]; assumption.
    + intros Hs. destruct (decide (k = key)); auto.
  - apply (inv_sizes c H).
  - apply (inv_used c H).
  - apply (inv_int64 c H).
Qed.

(** Dropping one resident entry, from anywhere in the list. *)
Lemma Inv_drop (c : Cache) (key : gostring) (e : cacheEntry) (l : list gostring) :
  Inv c -> entries c !! key = Some e ->
  NoDup l -> (forall k, k ∈ l <-> k ∈ order c /\ k <> key) ->
  Inv (mkCache (dir c) (maxBytes c) (delete key (entries c)) l (wrap64 (used c - size e)))
  /\ wrap64 (used c - size e) = used c - size e
  /\ 0 <= used c - size e.
Proof.
  intros H He Hnd Hl.
  pose proof (totalSize_delete _ _ _ He) as Ht.
  assert (Hs : forall k e', delete key (entries c) !! k = Some e' -> 0 <= size e').
  { intros k e' Hd. apply lookup_delete_Some in Hd as [_ Hd]. eapply (inv_sizes c H); eauto. }
  pose proof (totalSize_nonneg _ Hs) as Hnn.
  pose proof (inv_used c H) as Hu.
  pose proof (inv_sizes c H _ _ He) as Hse.
  pose proof (inv_int64 c H) as Hr.
  assert (Hw : wrap64 (used c - size e) = used c - size e).
  { apply wrap64_id. lia. }
  split; [|split; [exact Hw|lia]].
  split; simpl.
  - exact Hnd.
  - intros k. rewrite Hl, (inv_dom c H). split.
    + intros [[x Hx] Hne]. exists x. apply lookup_delete_Some. auto.
    + intros [x Hx]. apply lookup_delete_Some in Hx as [Hne Hx]. split; [eauto|congruence].
  - exact Hs.
  - rewrite Hw. lia.
  - rewrite Hw. lia.
Qed.

Lemma Evicted_refl (c : Cache) (d : Disk) (need : Z) : Inv c -> Evicted c d need c d.
Proof.
  intros H. split; auto; try lia; try reflexivity.
  intros k e H1 H2. congruence.
Qed.

Lemma removelast_facts (l : list gostring) (key : gostring) :
  NoDup l -> last l = Some key ->
  NoDup (removelast l)
  /\ (forall k, k ∈ removelast l <-> k ∈ l /\ k <> key)
  /\ length l = S (length (removelast l)).
Proof.
  intros Hnd Hl. pose proof (last_removelast l key Hl) as E.
  rewrite E in Hnd. apply NoDup_app in Hnd as (Hnd & Hdis & _).
  split; [exact Hnd|]. split.
  - intros k. rewrite E at 2. rewrite elem_of_app, list_elem_of_singleton. split.
    + intros Hin. split; [auto|]. intros ->. apply (Hdis key Hin). left.
    + intros [[Hin| ->] Hne]; [exact Hin|congruence].
  - rewrite E at 1. rewrite length_app. simpl. lia.
Qed.

Lemma evict_spec (n : nat) :
  forall c d need,
    Inv c -> 0 <= need -> used c + need < 2 ^ 63 ->
    exists c' d',
      evict n c d need = Some (c', d')
      /\ Evicted c d need c' d'
      /\ ((length (order c) <= n)%nat -> used c' + need <= maxBytes c \/ order c' = []).
Proof.
  induction n as [|n IH]; intros c d need HI Hneed Hsum.
  - exists c, d. split; [reflexivity|]. split; [apply Evicted_refl; exact HI|].
    intros Hlen. right. destruct (order c); [reflexivity|simpl in Hlen; lia].
  - pose proof (Inv_used_nonneg c HI) as Hu.
    simpl. rewrite (wrap64_id (used c + need)) by lia.
    destruct (maxBytes c <? used c + need) eqn:Hcmp; cbn [andb].
    2:{ exists c, d. split; [reflexivity|]. split; [apply Evicted_refl; exact HI|].
        intros _. left. apply Z.ltb_ge in Hcmp. exact Hcmp. }
    apply Z.ltb_lt in Hcmp.
    case_bool_decide as Ho; cbn [negb].
    { exists c, d. split; [reflexivity|]. split; [apply Evicted_refl; exact HI|]. auto. }
    destruct (last_is_Some (order c) Ho) as [key Hlast]. rewrite Hlast.
    destruct (removelast_facts _ _ (inv_nodup c HI) Hlast) as (Hnd' & Hmem & Hlen').
    assert (Hkin : key ∈ order c).
    { rewrite (last_removelast _ _ Hlast). apply elem_of_app. right. left. }
    apply (inv_dom c HI) in Hkin as [entry He]. rewrite He.
    destruct (Inv_drop c key entry (removelast (order c)) HI He Hnd' Hmem) as (HI1 & Hw & Hnn).
    set (c1 := mkCache (dir c) (maxBytes c) (delete key (entries c))
                 (removelast (order c)) (wrap64 (used c - size entry))) in *.
    pose proof (inv_sizes c HI _ _ He) as Hse.
    assert (Hu1 : used c1 = used c - size entry) by exact Hw.
    destruct (IH c1 (d ∖ {[path entry]}) need HI1 Hneed) as (c' & d' & Hev & HE & Hexit).
    { rewrite Hu1. lia. }
    exists c', d'. split; [exact Hev|]. split.
    + destruct HE as [E1 E2 E3 E4 E5 E6 E7 E8 E9].
      assert (Hkey' : entries c' !! key = None).
      { destruct (entries c' !! key) eqn:Ek; [|reflexivity].
        apply E5 in Ek. simpl in Ek. rewrite lookup_delete_eq in Ek. discriminate. }
      split.
      * exact E1.
      * rewrite E2. reflexivity.
      * rewrite E3. reflexivity.
      * rewrite Hu1 in E4. lia.
      * intros k e Hk. apply E5 in Hk. simpl in Hk.
        apply lookup_delete_Some in Hk as [_ Hk]. exact Hk.
      * intros x Hx. apply E6 in Hx. apply elem_of_difference in Hx. tauto.
      * intros f Hf Hcond. apply E7.
        -- apply elem_of_difference. split; [exact Hf|].
           intros Hin. apply elem_of_singleton in Hin. subst f.
           apply (Hcond key entry He Hkey'). reflexivity.
        -- intros k e Hk Hk'. simpl in Hk. apply lookup_delete_Some in Hk as [_ Hk]. eauto.
      * intros k e Hk Hk'. destruct (decide (k = key)) as [->|Hne].
        -- assert (e = entry) by congruence. subst e.
           intros Hin. apply E6 in Hin. apply elem_of_difference in Hin as [_ Hn].
           apply Hn, elem_of_singleton. reflexivity.
        -- apply E8 with k; [|exact Hk']. simpl. apply lookup_delete_Some. auto.
      * intros Hfit. lia.
    + intros Hlen. destruct Hexit as [Hx|Hx]; [simpl; lia| |right; exact Hx].
      left. exact Hx.
Qed.

Lemma Inv_insert (c : Cache) (key p : gostring) (sz : Z) :
  Inv c -> entries c !! key = None -> 0 <= sz -> used c + sz < 2 ^ 63 ->
  Inv (mkCache (dir c) (maxBytes c) (<[key := mkEntry p sz]> (entries c))
         (key :: order c) (wrap64 (used c + sz)))
  /\ wrap64 (used c + sz) = used c + sz.
Proof.
  intros HI Hk Hsz Hsum. pose proof (Inv_used_nonneg c HI) as Hu.
  assert (Hw : wrap64 (used c + sz) = used c + sz) by (apply wrap64_id; lia).
  split; [|exact Hw]. split; simpl.
  - apply NoDup_cons. split; [|apply (inv_nodup c HI)].
    intros Hin. apply (inv_dom c HI) in Hin as [? Hin]. congruence.
  - intros k. rewrite elem_of_cons, (inv_dom c HI). split.
    + intros [->|Hs]; [rewrite lookup_insert_eq; eauto|].
      destruct (decide (key = k)) as [->|Hne]; [rewrite lookup_insert_eq; eauto|].
      rewrite lookup_insert_ne by exact Hne. exact Hs.
    + intros Hs. destruct (decide (key = k)) as [->|Hne]; [auto|].
      rewrite lookup_insert_ne in Hs by exact Hne. auto.
  - intros k e Hl. destruct (decide (key = k)) as [->|Hne].
    + rewrite lookup_insert_eq in Hl. injection Hl as <-. exact Hsz.
    + rewrite lookup_insert_ne in Hl by exact Hne. eapply (inv_sizes c HI); eauto.
  - rewrite Hw, totalSize_insert by exact Hk. simpl. rewrite (inv_used c HI). lia.
  - rewrite Hw. exact Hsum.
Qed.

(** [ensureCapacity] with a positive quota: the loop runs to its exit. *)
Lemma ensureCapacity_spec (c : Cache) (d : Disk) (need : Z) :
  Inv c -> 0 <= need -> used c + need < 2 ^ 63 -> 0 < maxBytes c ->
  exists c1 d1,
    Evicted c d need c1 d1
    /\ (used c1 + need <= maxBytes c \/ order c1 = [])
    /\ ensureCapacity c d need
       = Some (if maxBytes c <? used c1 + need
               then Some (CapacityError (maxBytes c) (used c1 + need))
               else None, c1, d1).
Proof.
  intros HI Hneed Hsum Hmax.
  destruct (evict_spec (length (order c)) c d need HI Hneed Hsum) as (c1 & d1 & Hev & HE & Hexit).
  exists c1, d1. split; [exact HE|]. split; [apply Hexit; lia|].
  unfold ensureCapacity. rewrite (proj2 (Z.leb_gt _ _)) by lia. rewrite Hev.
  pose proof (Inv_used_nonneg c1 (ev_inv _ _ _ _ _ HE)) as Hu1.
  pose proof (ev_used _ _ _ _ _ HE) as Hle.
  rewrite (wrap64_id (used c1 + need)) by lia.
  rewrite (ev_max _ _ _ _ _ HE). destruct (maxBytes c <? used c1 + need); reflexivity.
Qed.

Lemma Touch_inv (c : Cache) (key : gostring) :
  Inv c -> Inv (Touch c key) /\ used (Touch c key) = used c
           /\ maxBytes (Touch c key) = maxBytes c /\ entries (Touch c key) = entries c.
Proof.
  intros HI. unfold Touch. destruct (entries c !! key) eqn:Hk; [|auto].
  split; [apply Inv_MoveToFront; eauto|]. auto.
Qed.

Lemma Remove_inv (c : Cache) (d : Disk) (key : gostring) :
  Inv c ->
  Inv (fst (Remove c d key)) /\ used (fst (Remove c d key)) <= used c
  /\ maxBytes (fst (Remove c d key)) = maxBytes c.
Proof.
  intros HI. unfold Remove. destruct (entries c !! key) as [entry|] eqn:Hk; simpl.
  - destruct (Inv_drop c key entry (removeElem key (order c)) HI Hk) as (HI' & Hw & Hnn).
    + apply NoDup_removeElem, (inv_nodup c HI).
    + intros k. apply elem_of_removeElem, (inv_nodup c HI).
    + split; [exact HI'|]. pose proof (inv_sizes c HI _ _ Hk). split; [lia|reflexivity].
  - split; [exact HI|]. split; [lia|reflexivity].
Qed.

Lemma sizesOk_take (ops : list Op) (n : nat) : sizesOk ops -> sizesOk (take n ops).
Proof.
  revert n. induction ops as [|op ops IH]; intros n Hs; destruct n; simpl; auto.
  destruct op as [key [| | |sz]| |]; simpl in *; auto. destruct Hs. auto.
Qed.

Lemma fetched_nonneg (ops : list Op) : sizesOk ops -> 0 <= fetched ops.
Proof.
  induction ops as [|op ops IH]; intros Hs; simpl; [lia|].
  destruct op as [key [| | |sz]| |]; simpl in *; auto. destruct Hs. specialize (IH ltac:(assumption)). lia.
Qed.

Lemma fetched_take (ops : list Op) (n : nat) :
  sizesOk ops -> fetched (take n ops) <= fetched ops.
Proof.
  revert n. induction ops as [|op ops IH]; intros n Hs; destruct n; simpl; try lia.
  - apply (fetched_nonneg (op :: ops)). exact Hs.
  - destruct op as [key [| | |sz]| |]; simpl in *; auto. destruct Hs. specialize (IH n ltac:(assumption)). lia.
Qed.

Section WithHash.
Variable sha256hex : gostring -> gostring.

(** [LoadOrCreate] keeps the invariant and the quota. *)
Lemma LoadOrCreate_inv (c : Cache) (d : Disk) (key : gostring) (o : FetchOutcome) :
  Inv c -> (0 < maxBytes c -> used c <= maxBytes c) ->
  0 <= fetchSize o -> used c + fetchSize o < 2 ^ 63 ->
  exists r c' d',
    LoadOrCreate sha256hex c d key o = Some (r, c', d')
    /\ Inv c' /\ maxBytes c' = maxBytes c
    /\ (0 < maxBytes c -> used c' <= maxBytes c)
    /\ used c' <= used c + fetchSize o.
Proof.
  intros HI Hq Hsz Hsum. unfold LoadOrCreate.
  destruct (entries c !! key) as [entry|] eqn:Hk.
  { eexists _, _, _. split; [reflexivity|]. split; [apply Inv_MoveToFront; eauto|].
    simpl. split; [reflexivity|]. split; [exact Hq|lia]. }
  destruct o as [msg|e|msg|sz]; simpl in Hsz, Hsum;
    try (eexists _, _, _; split; [reflexivity|]; split; [exact HI|];
         split; [reflexivity|]; split; [exact Hq|simpl; lia]).
  destruct (Z_le_gt_dec (maxBytes c) 0) as [Hmax|Hmax].
  - unfold ensureCapacity. rewrite (proj2 (Z.leb_le _ _)) by lia.
    destruct (Inv_insert c key (keyPath sha256hex c key) sz HI Hk Hsz Hsum) as [HI' Hw].
    eexists _, _, _. split; [reflexivity|]. split; [exact HI'|].
    simpl. rewrite Hw. split; [reflexivity|]. split; lia.
  - destruct (ensureCapacity_spec c ({[keyPath sha256hex c key]} ∪ d) sz HI Hsz Hsum)
      as (c1 & d1 & HE & Hexit & Hens); [lia|].
    rewrite Hens.
    pose proof (ev_inv _ _ _ _ _ HE) as HI1.
    pose proof (ev_used _ _ _ _ _ HE) as Hle.
    pose proof (ev_max _ _ _ _ _ HE) as Hm1.
    destruct (maxBytes c <? used c1 + sz) eqn:Hcmp.
    + eexists _, _, _. split; [reflexivity|]. split; [exact HI1|].
      split; [exact Hm1|]. split; [intros Hp; specialize (Hq Hp); lia|simpl; lia].
    + apply Z.ltb_ge in Hcmp.
      assert (Hk1 : entries c1 !! key = None).
      { destruct (entries c1 !! key) eqn:Ek; [|reflexivity].
        apply (ev_kept _ _ _ _ _ HE) in Ek. congruence. }
      destruct (Inv_insert c1 key (keyPath sha256hex c key) sz HI1 Hk1 Hsz) as [HI' Hw]; [lia|].
      eexists _, _, _. split; [reflexivity|]. split; [exact HI'|].
      simpl. rewrite Hw. split; [exact Hm1|]. split; lia.
Qed.

(** Every sequence of operations keeps the invariant and the quota, as long
    as the bytes it fetches fit an [int64] together with those resident. *)
Lemma run_inv (ops : list Op) :
  forall c d,
    Inv c -> (0 < maxBytes c -> used c <= maxBytes c) ->
    sizesOk ops -> used c + fetched ops < 2 ^ 63 ->
    exists c' d',
      run sha256hex ops (c, d) = Some (c', d')
      /\ Inv c' /\ maxBytes c' = maxBytes c
      /\ (0 < maxBytes c -> used c' <= maxBytes c).
Proof.
  induction ops as [|op ops IH]; intros c d HI Hq Hs Hf.
  - exists c, d. auto.
  - destruct op as [key o|key|key].
    + assert (Ho : 0 <= fetchSize o /\ sizesOk ops /\ fetched (OpLoadOrCreate key o :: ops) = fetchSize o + fetched ops).
      { destruct o; simpl in *; try (repeat split; auto; lia). tauto. }
      destruct Ho as (Ho & Hs' & Hfe). rewrite Hfe in Hf.
      assert (Hfn : 0 <= fetched ops).
      { clear -Hs'. induction ops as [|[k [| | |sz]| |] ops IH]; simpl in *; try lia; try tauto.
        destruct Hs'. specialize (IH ltac:(assumption)). lia. }
      destruct (LoadOrCreate_inv c d key o HI Hq Ho) as (r & c1 & d1 & E & HI1 & Hm1 & Hq1 & Hu1); [lia|].
      destruct (IH c1 d1 HI1) as (c' & d' & Er & HI' & Hm' & Hq'); [rewrite Hm1; exact Hq1|exact Hs'|lia|].
      exists c', d'. simpl. rewrite E. split; [exact Er|]. split; [exact HI'|].
      rewrite Hm', Hm1 in *. auto.
    + destruct (Touch_inv c key HI) as (HI1 & Hu1 & Hm1 & _).
      destruct (IH (Touch c key) d HI1) as (c' & d' & Er & HI' & Hm' & Hq').
      * rewrite Hm1, Hu1. exact Hq.
      * exact Hs.
      * rewrite Hu1. exact Hf.
      * exists c', d'. simpl. split; [exact Er|]. split; [exact HI'|]. rewrite Hm', Hm1 in *. auto.
    + destruct (Remove_inv c d key HI) as (HI1 & Hu1 & Hm1).
      destruct (Remove c d key) as [c1 d1] eqn:ER. simpl in HI1, Hu1, Hm1.
      destruct (IH c1 d1 HI1) as (c' & d' & Er & HI' & Hm' & Hq').
      * rewrite Hm1. intros Hpos. specialize (Hq Hpos). lia.
      * exact Hs.
      * simpl in Hf. lia.
      * exists c', d'. simpl. rewrite ER. split; [exact Er|]. split; [exact HI'|].
        rewrite Hm', Hm1 in *. auto.
Qed.

End WithHash.

End CacheFacts.

Section CacheClaims.
Import GoStrings GoPath Cache CacheFacts.
Variable sha256hex : gostring -> gostring.

(** C7.  From a fresh cache, after every prefix of a sequence of
    [LoadOrCreate], [Touch] and [Remove] run one after the other, the
    operations have all returned, [used] is the sum of the sizes of the
    resident entries and, under a positive quota, [used] is at most
    [maxBytes].  File sizes are not negative and the bytes fetched by the
    whole sequence fit an [int64]. *)
Theorem cache_accounting (dirname : gostring) (maxB : Z) (d0 : Disk)
    (ops : list Op) (n : nat) :
  sizesOk ops -> fetched ops < 2 ^ 63 ->
  exists c d,
    run sha256hex (take n ops) (New dirname maxB, d0) = Some (c, d)
    /\ used c = totalSize (entries c)
    /\ (0 < maxB -> used c <= maxB).
Proof.
  intros Hs Hf.
  destruct (run_inv sha256hex (take n ops) (New dirname maxB) d0) as (c & d & Er & HI & Hm & Hq).
  - apply Inv_New.
  - simpl. lia.
  - apply sizesOk_take. exact Hs.
  - pose proof (fetched_take ops n Hs). simpl. lia.
  - exists c, d. split; [exact Er|]. split; [apply (inv_used c HI)|exact Hq].
Qed.

(** C3, as the code has it.  When a missing key's object is larger than a
    positive quota, [LoadOrCreate] evicts every resident entry, removing its
    file, and only then fails with the capacity error: the destination file
    is removed, no entry is inserted, the map is left empty with [used] at
    zero, and files that belong to no entry are untouched. *)
Theorem oversized_object_rejected (c : Cache) (d : Disk) (key : gostring) (sz : Z) :
  Inv c -> entries c !! key = None ->
  0 < maxBytes c -> maxBytes c < sz -> used c + sz < 2 ^ 63 ->
  exists d',
    LoadOrCreate sha256hex c d key (Fetched sz)
    = Some (Err (CapacityError (maxBytes c) sz), mkCache (dir c) (maxBytes c) ∅ [] 0, d')
    /\ (keyPath sha256hex c key ∉ d')
    /\ (forall k e, entries c !! k = Some e -> path e ∉ d')
    /\ (forall f, f ∈ d -> f <> keyPath sha256hex c key ->
          (forall k e, entries c !! k = Some e -> path e <> f) -> f ∈ d').
Proof.
  intros HI Hk Hmax Hsz Hsum. set (p := keyPath sha256hex c key).
  destruct (ensureCapacity_spec c ({[p]} ∪ d) sz HI) as (c1 & d1 & HE & Hexit & Hens); try lia.
  pose proof (ev_inv _ _ _ _ _ HE) as HI1.
  pose proof (Inv_used_nonneg c1 HI1) as Hu1.
  destruct Hexit as [Hx|Hx]; [lia|].
  destruct (Inv_empty_order c1 HI1 Hx) as [He Hu].
  assert (Hc1 : c1 = mkCache (dir c) (maxBytes c) ∅ [] 0).
  { pose proof (ev_dir _ _ _ _ _ HE). pose proof (ev_max _ _ _ _ _ HE).
    destruct c1; simpl in *; subst; reflexivity. }
  exists (d1 ∖ {[p]}). split; [|split; [|split]].
  - unfold LoadOrCreate. rewrite Hk. fold p. rewrite Hens, Hu.
    rewrite (proj2 (Z.ltb_lt _ _)) by lia. rewrite Hc1. reflexivity.
  - intros Hin. apply elem_of_difference in Hin as [_ Hn]. apply Hn, elem_of_singleton. reflexivity.
  - intros k e Hl Hin. apply elem_of_difference in Hin as [Hin _].
    apply (ev_gone _ _ _ _ _ HE k e Hl); [|exact Hin]. rewrite He. apply lookup_empty.
  - intros f Hf Hne Hcond. apply elem_of_difference. split.
    + apply (ev_frame _ _ _ _ _ HE).
      * apply elem_of_union. right. exact Hf.
      * intros k e Hl _. apply (Hcond k e Hl).
    + intros Hin. apply elem_of_singleton in Hin. contradiction.
Qed.

(** C10.  With [maxBytes <= 0] the quota is off: a successful fetch of any
    size for a missing key is inserted at the front, nothing is evicted and
    no file is removed, the result is never the capacity error, and [used]
    grows by the size (as an [int64]); a resident key is served as it is. *)
Theorem quota_disabled (c : Cache) (d : Disk) (key : gostring) (sz : Z) :
  maxBytes c <= 0 ->
  (entries c !! key = None ->
     LoadOrCreate sha256hex c d key (Fetched sz)
     = Some (Ok (keyPath sha256hex c key),
             mkCache (dir c) (maxBytes c)
               (<[key := mkEntry (keyPath sha256hex c key) sz]> (entries c))
               (key :: order c) (wrap64 (used c + sz)),
             {[keyPath sha256hex c key]} ∪ d)
     /\ (forall k e, entries c !! k = Some e ->
           <[key := mkEntry (keyPath sha256hex c key) sz]> (entries c) !! k = Some e)
     /\ (0 <= used c -> 0 <= sz -> used c + sz < 2 ^ 63 ->
           wrap64 (used c + sz) = used c + sz))
  /\ (forall entry o, entries c !! key = Some entry ->
        LoadOrCreate sha256hex c d key o
        = Some (Ok (path entry),
                mkCache (dir c) (maxBytes c) (entries c) (MoveToFront key (order c)) (used c),
                d)).
Proof.
  intros Hmax. split.
  - intros Hk. split; [|split].
    + unfold LoadOrCreate, ensureCapacity. rewrite Hk.
      rewrite (proj2 (Z.leb_le _ _)) by exact Hmax. reflexivity.
    + intros k e Hl. rewrite lookup_insert_ne; [exact Hl|]. intros ->. congruence.
    + intros. apply wrap64_id. lia.
  - intros entry o Hk. unfold LoadOrCreate. rewrite Hk. reflexivity.
Qed.

(** X3.  [Touch] leaves the map and [used] as they are; for a key that is
    not resident it changes nothing, for a resident key it puts the key at
    the front of the list, and touching twice is touching once. *)
Theorem Touch_promotes (c : Cache) (key : gostring) :
  entries (Touch c key) = entries c
  /\ used (Touch c key) = used c
  /\ match entries c !! key with
     | None => Touch c key = c
     | Some _ => head (order (Touch c key)) = Some key
     end
  /\ Touch (Touch c key) key = Touch c key.
Proof.
  unfold Touch. destruct (entries c !! key) as [entry|] eqn:Hk.
  - cbn [entries used order]. rewrite Hk.
    repeat split. unfold MoveToFront. cbn [removeElem].
    rewrite bool_decide_eq_true_2 by reflexivity. reflexivity.
  - rewrite Hk. repeat split.
Qed.

End CacheClaims.

Section CacheExampleFacts.
Import Cache CacheFacts CacheExamples.

Lemma residentA_run :
  run plainName [OpLoadOrCreate (str "a") (Fetched 60)] (New (str "/cache") 100, ∅)
  = Some (residentA, {[ str "/cache/a" ]} ∪ ∅).
Proof. reflexivity. Qed.

Lemma Inv_residentA : Inv residentA.
Proof.
  destruct (Inv_insert (New (str "/cache") 100) (str "a") (str "/cache/a") 60) as [HI _].
  - apply Inv_New.
  - apply lookup_empty.
  - lia.
  - simpl. lia.
  - exact HI.
Qed.

End CacheExampleFacts.

Lemma cache_accounting_witness :
  exists c d,
    Cache.run Cache.plainName (take 3 CacheExamples.demoOps) (Cache.New (str "/cache") 100, ∅)
    = Some (c, d)
    /\ Cache.used c = Cache.totalSize (Cache.entries c)
    /\ (0 < 100 -> Cache.used c <= 100).
Proof.
  apply (cache_accounting Cache.plainName (str "/cache") 100 ∅ CacheExamples.demoOps 3).
  - simpl. lia.
  - vm_compute. reflexivity.
Defined.

(** C3 as stated fails: a cache of quota 100 holds [a] (60 bytes); loading
    [b] (150 bytes) returns the capacity error, and afterwards [a] is gone
    from the map and from the disk and [used] is 0. *)
Lemma oversized_object_flushes_cache :
  Cache.used CacheExamples.residentA = 60
  /\ Cache.size <$> (Cache.entries CacheExamples.residentA !! str "a") = Some 60
  /\ Cache.entries CacheExamples.residentA !! str "b" = None
  /\ match Cache.LoadOrCreate Cache.plainName CacheExamples.residentA CacheExamples.diskA
             (str "b") (Cache.Fetched 150) with
     | Some (r, c', d') =>
         r = Err (CapacityError 100 150)
         /\ Cache.used c' = 0
         /\ Cache.entries c' !! str "a" = None
         /\ elements d' = []
     | None => False
     end.
Proof.
  split; [reflexivity|]. split; [vm_compute; reflexivity|]. split; [vm_compute; reflexivity|].
  vm_compute. split; [|split; [|split]]; reflexivity.
Qed.

Lemma oversized_object_rejected_witness :
  exists d',
    Cache.LoadOrCreate Cache.plainName CacheExamples.residentA CacheExamples.diskA
      (str "b") (Cache.Fetched 150)
    = Some (Err (CapacityError 100 150), Cache.mkCache (str "/cache") 100 ∅ [] 0, d')
    /\ (str "/cache/b" ∉ d') /\ (str "/cache/a" ∉ d').
Proof.
  assert (Hk : Cache.entries CacheExamples.residentA !! str "b" = None)
    by (vm_compute; reflexivity).
  assert (Hmax : 0 < Cache.maxBytes CacheExamples.residentA) by (simpl; lia).
  assert (Hsz : Cache.maxBytes CacheExamples.residentA < 150) by (simpl; lia).
  assert (Hsum : Cache.used CacheExamples.residentA + 150 < 2 ^ 63) by (simpl; lia).
  destruct (oversized_object_rejected Cache.plainName CacheExamples.residentA
              CacheExamples.diskA (str "b") 150 Inv_residentA Hk Hmax Hsz Hsum)
    as (d' & E & Hb & Ha & _).
  exists d'. split; [exact E|]. split; [exact Hb|].
  apply (Ha (str "a") (Cache.mkEntry (str "/cache/a") 60)). apply lookup_insert_eq.
Defined.

Lemma quota_disabled_witness :
  Cache.LoadOrCreate Cache.plainName (Cache.New (str "/cache") 0) ∅ (str "a")
    (Cache.Fetched 1000000000000)
  = Some (Ok (str "/cache/a"),
          Cache.mkCache (str "/cache") 0
            (<[str "a" := Cache.mkEntry (str "/cache/a") 1000000000000]> ∅)
            [str "a"] 1000000000000,
          {[ str "/cache/a" ]} ∪ ∅).
Proof.
  assert (Hmax : Cache.maxBytes (Cache.New (str "/cache") 0) <= 0) by (simpl; lia).
  assert (Hk : Cache.entries (Cache.New (str "/cache") 0) !! str "a" = None)
    by apply lookup_empty.
  exact (proj1 (proj1 (quota_disabled Cache.plainName (Cache.New (str "/cache") 0) ∅
                         (str "a") 1000000000000 Hmax) Hk)).
Defined.

Section IPCClaims.
Import Objectstore RemoteFS IPC.

(** C9.  Every entry the server renders has mode [0o040000 | 0o550] for a
    directory and [0o100000 | 0o440] otherwise, the effective uid and gid
    read when the server was built, and the store's modification time
    unless that is the zero time, in which case it is the time of the
    response; path, size, ETag and the directory flag are the store's. *)
Theorem entryFromMeta_posix (os : OS) (fs : FileSystem) (meta : FileMeta) (now : Time) :
  match NewIPCServer os (Some fs) with
  | Err _ => False
  | Ok s =>
      let e := entryFromMeta s meta now in
      Mode e = (if IsDir meta
                then Z.lor (octal [0; 4; 0; 0; 0; 0]) (octal [5; 5; 0])
                else Z.lor (octal [1; 0; 0; 0; 0; 0]) (octal [4; 4; 0]))
      /\ Mode e = (if IsDir meta then 16744 else 33056)
      /\ UID e = Geteuid os /\ GID e = Getegid os
      /\ ELastModified e = (if Z.eq_dec (LastModified meta) 0 then now else LastModified meta)
      /\ EPath e = Path meta /\ ESize e = Size meta /\ EETag e = ETag meta
      /\ EIsDir e = IsDir meta
  end.
Proof.
  simpl. unfold defaultMode, IsZero.
  repeat split; try (destruct (IsDir meta); reflexivity).
  destruct (Z.eq_dec (LastModified meta) 0) as [E|E].
  - rewrite E. reflexivity.
  - apply Z.eqb_neq in E. rewrite E. reflexivity.
Qed.

End IPCClaims.

Module ShimFacts.
Import Shim.

Lemma land_lor_l (f a b : Z) : Z.land f a <> 0 -> Z.land f (Z.lor a b) <> 0.
Proof.
  intros H E. rewrite Z.land_lor_distr_r in E. apply Z.lor_eq_0_iff in E. tauto.
Qed.

Lemma land_lor_r (f a b : Z) : Z.land f b <> 0 -> Z.land f (Z.lor a b) <> 0.
Proof.
  intros H E. rewrite Z.land_lor_distr_r in E. apply Z.lor_eq_0_iff in E. tauto.
Qed.

Lemma nonzero_true (x : Z) : x <> 0 -> nonzero x = true.
Proof. intros H. unfold nonzero. apply Z.eqb_neq in H. rewrite H. reflexivity. Qed.

(** A write-intent flag makes [allow_open_flags] refuse, with
    [EROFS] and nothing else changed. *)
Lemma allow_open_flags_refuses (pl : Platform) (flags : Z) (s : Process) :
  write_intent pl flags -> allow_open_flags pl flags s = (false, set_errno (EROFS pl) s).
Proof.
  intros Hw. unfold allow_open_flags.
  destruct (nonzero (Z.land flags
    (Z.lor (Z.lor (Z.lor (Z.lor (O_WRONLY pl) (O_RDWR pl)) (O_CREAT pl)) (O_TRUNC pl))
       (O_APPEND pl)))) eqn:Hm; [reflexivity|].
  assert (Hz : Z.land flags
    (Z.lor (Z.lor (Z.lor (Z.lor (O_WRONLY pl) (O_RDWR pl)) (O_CREAT pl)) (O_TRUNC pl))
       (O_APPEND pl)) = 0).
  { unfold nonzero in Hm. apply negb_false_iff, Z.eqb_eq in Hm. exact Hm. }
  destruct Hw as [H|[H|[H|[H|[H|(t & Ht & H)]]]]].
  - exfalso. revert Hz. do 4 apply land_lor_l. exact H.
  - exfalso. revert Hz. do 3 apply land_lor_l. apply land_lor_r. exact H.
  - exfalso. revert Hz. do 2 apply land_lor_l. apply land_lor_r. exact H.
  - exfalso. revert Hz. apply land_lor_l, land_lor_r. exact H.
  - exfalso. revert Hz. apply land_lor_r. exact H.
  - rewrite Ht, (nonzero_true _ H). reflexivity.
Qed.

End ShimFacts.

Example shim_open_readonly :
  Shim.open Shim.linux ShimExamples.demoEnv (str "/remote/docs/report.txt") 0 0 ShimExamples.fresh
  = (4, Shim.mkProcess 0 true
          [ (str "/stat", str "/remote/docs/report.txt");
            (str "/cat", str "/remote/docs/report.txt") ]).
Proof. reflexivity. Qed.

Section ShimClaims.
Import Shim ShimFacts.
Variable pl : Platform.
Variable env : Env.

(** C8.  When [flags] carries a write-intent flag ([O_WRONLY], [O_RDWR],
    [O_CREAT], [O_TRUNC], [O_APPEND], or [O_TMPFILE] where it is defined),
    [open], [open64] and [openat] on a path inside the jail return -1 with
    [errno] set to [EROFS], and the process is otherwise as initialization
    left it: no request has been sent to the daemon. *)
Theorem open_write_intent_erofs (flags : Z) (s : Process) :
  write_intent pl flags ->
  (forall abs_path,
     remote_open_file pl env abs_path flags s = (-1, set_errno (EROFS pl) s))
  /\ (forall path mode abs_path,
        path_within_root env path (ensure_initialized s) = Some abs_path ->
        open pl env path flags mode s
        = (-1, mkProcess (EROFS pl) true (requests s))
        /\ open64 pl env path flags mode s
           = (-1, mkProcess (EROFS pl) true (requests s)))
  /\ (forall dirfd path mode abs0 abs_path,
        resolve_absolute env dirfd path (ensure_initialized s) = Some abs0 ->
        path_within_root env abs0 (ensure_initialized s) = Some abs_path ->
        openat pl env dirfd path flags mode s
        = (-1, mkProcess (EROFS pl) true (requests s))).
Proof.
  intros Hw.
  assert (Hgate : forall abs_path s0,
            remote_open_file pl env abs_path flags s0 = (-1, set_errno (EROFS pl) s0)).
  { intros abs_path s0. unfold remote_open_file.
    rewrite (allow_open_flags_refuses pl flags s0 Hw). reflexivity. }
  split; [|split].
  - intros abs_path. apply Hgate.
  - intros path mode abs_path Hin. unfold open, open64, handle_open_common.
    rewrite Hin, Hgate. split; reflexivity.
  - intros dirfd path mode abs0 abs_path Hres Hin. unfold openat.
    rewrite Hres, Hin, Hgate. reflexivity.
Qed.

End ShimClaims.

Lemma open_write_intent_erofs_witness :
  Shim.open Shim.linux ShimExamples.demoEnv (str "/remote/docs/report.txt") 65 420 ShimExamples.fresh
  = (-1, Shim.mkProcess 30 true []).
Proof.
  assert (Hw : Shim.write_intent Shim.linux 65).
  { left. vm_compute. discriminate. }
  exact (proj1 (proj1 (proj2 (open_write_intent_erofs Shim.linux ShimExamples.demoEnv 65
                                ShimExamples.fresh Hw))
                  (str "/remote/docs/report.txt") 420 (str "/remote/docs/report.txt") eq_refl)).
Defined.

(** ** The S3 store: keys and listings *)

Module S3Facts.
Import GoStrings GoPath Objectstore RemoteFS S3 PathSpec GoFacts SanitizeFacts S3Spec.

Lemma HasSuffix_slash (s : gostring) : HasSuffix s [slash] = is_rooted (rev s).
Proof. unfold HasSuffix. simpl. apply HasPrefix_slash. Qed.

Lemma HasSuffix_app (s suffix : gostring) : HasSuffix (s ++ suffix) suffix = true.
Proof. unfold HasSuffix. rewrite rev_app_distr. apply HasPrefix_app. Qed.

Lemma TrimSuffix_app (s suffix : gostring) : TrimSuffix (s ++ suffix) suffix = s.
Proof.
  unfold TrimSuffix. rewrite HasSuffix_app, length_app.
  replace (length s + length suffix - length suffix)%nat with (length s) by lia.
  apply take_app_length.
Qed.

Lemma TrimSuffix_nil (suffix : gostring) : suffix <> [] -> TrimSuffix [] suffix = [].
Proof. unfold TrimSuffix. destruct (HasSuffix [] suffix); reflexivity. Qed.

Lemma TrimLeftSlash_is_unrooted (s : gostring) : is_rooted (TrimLeftSlash s) = false.
Proof.
  induction s as [|c s IH]; simpl; [reflexivity|].
  destruct (Ascii.eqb c slash) eqn:E; [exact IH|]. simpl. exact E.
Qed.

Lemma TrimLeftSlash_suffix (s : gostring) : exists l, s = l ++ TrimLeftSlash s.
Proof.
  induction s as [|c s [l IH]]; simpl.
  - exists []. reflexivity.
  - destruct (Ascii.eqb c slash).
    + exists (c :: l). simpl. f_equal. exact IH.
    + exists []. reflexivity.
Qed.

Lemma is_rooted_rev_suffix (l s : gostring) :
  is_rooted (rev (l ++ s)) = false -> is_rooted (rev s) = false.
Proof.
  rewrite rev_app_distr. destruct (rev s) as [|c r]; [reflexivity|]. simpl. tauto.
Qed.

Lemma TrimSlash_shape (p : gostring) :
  is_rooted (TrimSlash p) = false /\ HasSuffix (TrimSlash p) [slash] = false.
Proof.
  unfold TrimSlash. split; [apply TrimLeftSlash_is_unrooted|].
  rewrite HasSuffix_slash.
  destruct (TrimLeftSlash_suffix (TrimRightSlash p)) as [l E].
  apply (is_rooted_rev_suffix l). rewrite <- E.
  unfold TrimRightSlash. rewrite rev_involutive. apply TrimLeftSlash_is_unrooted.
Qed.

Lemma TrimSlash_fixed (q : gostring) :
  is_rooted q = false -> HasSuffix q [slash] = false -> TrimSlash q = q.
Proof.
  intros Hl Hr. rewrite HasSuffix_slash in Hr. unfold TrimSlash, TrimRightSlash.
  rewrite (TrimLeftSlash_unrooted _ Hr), rev_involutive.
  apply TrimLeftSlash_unrooted, Hl.
Qed.

Lemma TrimSlash_closed (q : gostring) :
  is_rooted q = false -> HasSuffix q [slash] = false -> TrimSlash (q ++ [slash]) = q.
Proof.
  intros Hl Hr. rewrite HasSuffix_slash in Hr. unfold TrimSlash, TrimRightSlash.
  rewrite rev_app_distr.
  change (TrimLeftSlash (rev [slash] ++ rev q)) with (TrimLeftSlash (rev q)).
  rewrite (TrimLeftSlash_unrooted _ Hr), rev_involutive.
  apply TrimLeftSlash_unrooted, Hl.
Qed.

Lemma NewS3Store_prefix_eq (b p : gostring) :
  prefix (NewS3Store b p)
  = if bool_decide (TrimSlash p = []) then [] else TrimSlash p ++ [slash].
Proof.
  unfold NewS3Store. simpl. destruct (TrimSlash_shape p) as [_ Hr]. rewrite Hr.
  repeat case_bool_decide; simpl; congruence.
Qed.

Lemma join_plain_not_nil (segs : list gostring) :
  segs <> [] -> Forall plain segs -> join_slash segs <> [].
Proof.
  intros Hne Hp. destruct segs as [|seg rest]; [congruence|].
  inversion Hp as [|? ? [Hs _] _]; subst.
  destruct rest; simpl; [exact Hs|].
  destruct seg; [congruence|discriminate].
Qed.

Lemma join_plain_not_dot (segs : list gostring) :
  segs <> [] -> Forall plain segs -> join_slash segs <> [dot].
Proof.
  intros Hne Hp E. destruct segs as [|seg rest]; [congruence|].
  inversion Hp as [|? ? (Hs & Hd & _) _]; subst.
  destruct rest as [|r rest']; simpl in E; [congruence|].
  destruct seg as [|c seg]; [congruence|].
  simpl in E. injection E as _ E. destruct seg; discriminate.
Qed.

Lemma join_plain_unrooted (segs : list gostring) :
  Forall plain segs -> is_rooted (join_slash segs) = false.
Proof.
  intros Hp. destruct segs as [|seg rest]; [reflexivity|].
  inversion Hp as [|? ? (Hs & _ & _ & Hn) _]; subst.
  assert (is_rooted seg = false) as Hr.
  { destruct seg as [|c seg]; [congruence|]. simpl.
    destruct (Ascii.eqb c slash) eqn:E; [|reflexivity].
    apply Ascii.eqb_eq in E. subst. exfalso. apply Hn. left. }
  destruct rest; simpl; [exact Hr|].
  destruct seg; [congruence|]. exact Hr.
Qed.

(** The key of a relative path, in closed form. *)
Lemma key_cases (s : S3Store) (rel : gostring) :
  (key s rel = TrimSuffix (prefix s) [slash])
  \/ exists segs, segs <> [] /\ Forall plain segs /\ key s rel = prefix s ++ join_slash segs.
Proof.
  unfold key.
  pose proof (is_rooted_Clean (slash :: rel)) as Hr.
  change (is_rooted (slash :: rel)) with true in Hr.
  destruct (Clean_shape (slash :: rel)) as [E | [E | (rooted & out & Hne & Hok & Hro & E)]].
  - rewrite E in Hr. discriminate.
  - rewrite E. left. reflexivity.
  - rewrite Hr in Hro. subst rooted. rewrite E.
    change (TrimPrefix ([slash] ++ join_slash (rev out)) [slash]) with (join_slash (rev out)).
    assert (Forall plain (rev out)) as Hp.
    { apply Forall_rev. apply stack_ok_rooted_plain, Hok. }
    assert (rev out <> []) as Hne' by (apply rev_not_nil, Hne).
    right. exists (rev out). split; [exact Hne'|]. split; [exact Hp|].
    rewrite (bool_decide_false (join_slash (rev out) = [dot]))
      by (apply join_plain_not_dot; assumption).
    rewrite (bool_decide_false (join_slash (rev out) = []))
      by (apply join_plain_not_nil; assumption).
    case_bool_decide as Hp0; [rewrite Hp0|]; reflexivity.
Qed.

Lemma key_plain (s : S3Store) (segs : list gostring) :
  segs <> [] -> Forall plain segs -> key s (join_slash segs) = prefix s ++ join_slash segs.
Proof.
  intros Hne Hp. unfold key.
  rewrite Clean_rooted_fold by (auto using plain_noslash).
  rewrite clean_fold_plain by exact Hp. rewrite app_nil_r.
  destruct (rev segs) as [|x l] eqn:E.
  { exfalso. apply (rev_not_nil segs Hne). exact E. }
  rewrite <- E, rev_involutive.
  change (TrimPrefix (slash :: join_slash segs) [slash]) with (join_slash segs).
  rewrite (bool_decide_false (join_slash segs = [dot]))
    by (apply join_plain_not_dot; assumption).
  rewrite (bool_decide_false (join_slash segs = []))
    by (apply join_plain_not_nil; assumption).
  case_bool_decide as Hp0; [rewrite Hp0|]; reflexivity.
Qed.

Lemma key_root (s : S3Store) : key s [] = TrimSuffix (prefix s) [slash].
Proof. reflexivity. Qed.

Lemma NewS3Store_trim (b p : gostring) :
  TrimSuffix (prefix (NewS3Store b p)) [slash] = TrimSlash p.
Proof.
  rewrite NewS3Store_prefix_eq. case_bool_decide as E.
  - rewrite E. reflexivity.
  - apply TrimSuffix_app.
Qed.

Lemma plain_stack_ok rooted (l : list gostring) : Forall plain l -> stack_ok rooted l.
Proof.
  induction 1 as [|seg l Hp _ IH]; [apply stack_ok_nil|].
  apply stack_plain; assumption.
Qed.

Lemma Clean_join_plain (segs : list gostring) :
  segs <> [] -> Forall plain segs -> Clean (join_slash segs) = join_slash segs.
Proof.
  intros Hne Hp. rewrite <- (rev_involutive segs).
  apply Clean_join_stack.
  - apply rev_not_nil, Hne.
  - apply plain_stack_ok, Forall_rev, Hp.
Qed.

Lemma HasSuffix_app_ne (a b suffix : gostring) :
  (length suffix <= length b)%nat -> HasSuffix (a ++ b) suffix = HasSuffix b suffix.
Proof.
  unfold HasSuffix. rewrite rev_app_distr. intros Hlen.
  rewrite <- (length_rev suffix), <- (length_rev b) in Hlen.
  generalize dependent (rev b). generalize (rev a). generalize (rev suffix).
  induction l as [|c l IH]; intros a' b' Hlen; [destruct b'; reflexivity|].
  destruct b' as [|d b']; [simpl in Hlen; lia|].
  simpl. destruct (Ascii.eqb c d); [|reflexivity].
  apply IH. simpl in Hlen. lia.
Qed.

Lemma plain_no_trailing_slash (seg : gostring) : plain seg -> HasSuffix seg [slash] = false.
Proof.
  intros (Hne & _ & _ & Hn). rewrite HasSuffix_slash.
  destruct (rev seg) as [|c r] eqn:E; [reflexivity|]. simpl.
  destruct (Ascii.eqb c slash) eqn:Ec; [|reflexivity].
  apply Ascii.eqb_eq in Ec. subst c. exfalso. apply Hn.
  apply list_elem_of_In, in_rev. rewrite E. left. reflexivity.
Qed.

Lemma join_plain_no_trailing_slash (segs : list gostring) :
  segs <> [] -> Forall plain segs -> HasSuffix (join_slash segs) [slash] = false.
Proof.
  intros Hne Hp. destruct (snoc_cases segs Hne) as (init & x & ->).
  apply Forall_app in Hp as [_ Hx]. inversion Hx as [|? ? Hpx _]; subst.
  destruct init as [|i init'].
  - simpl. apply plain_no_trailing_slash, Hpx.
  - rewrite join_slash_app by (try discriminate; not_nil).
    simpl (join_slash [x]).
    rewrite (HasSuffix_app_ne (join_slash (i :: init')) (slash :: x) [slash])
      by (simpl; lia).
    change (slash :: x) with ([slash] ++ x).
    destruct Hpx as (Hne' & _).
    rewrite HasSuffix_app_ne by (destruct x; [congruence|simpl; lia]).
    apply plain_no_trailing_slash. inversion Hx; assumption.
Qed.

Lemma ContainsSlash_false (seg : gostring) : noslash seg -> ContainsSlash seg = false.
Proof.
  intros Hn. unfold ContainsSlash. apply not_true_is_false. intros E.
  apply existsb_exists in E as (c & Hin & Hc). apply Ascii.eqb_eq in Hc. subst c.
  apply Hn, list_elem_of_In, Hin.
Qed.

Lemma TrimPrefix_unrooted (s : gostring) : is_rooted s = false -> TrimPrefix s [slash] = s.
Proof. intros H. unfold TrimPrefix. rewrite HasPrefix_slash, H. reflexivity. Qed.

Lemma plain_unrooted (seg : gostring) : plain seg -> is_rooted seg = false.
Proof. intros Hp. apply (join_plain_unrooted [seg]). constructor; [exact Hp|constructor]. Qed.

(** The request prefix below the root. *)
Lemma listPrefix_plain (s : S3Store) (segs : list gostring) :
  segs <> [] -> Forall plain segs ->
  listPrefix s (join_slash segs) = prefix s ++ join_slash segs ++ [slash].
Proof.
  intros Hne Hp. unfold listPrefix. rewrite key_plain by assumption.
  assert (join_slash segs <> []) as Hj by (apply join_plain_not_nil; assumption).
  rewrite HasSuffix_app_ne
    by (destruct (join_slash segs); [congruence|simpl; lia]).
  rewrite join_plain_no_trailing_slash by assumption.
  rewrite bool_decide_true; [simpl; rewrite <- app_assoc; reflexivity|].
  intros E. apply app_eq_nil in E as [_ E]. contradiction.
Qed.

(** The request prefix at the root. *)
Lemma listPrefix_root (b p : gostring) :
  listPrefix (NewS3Store b p) [] = prefix (NewS3Store b p).
Proof.
  unfold listPrefix. rewrite key_root, NewS3Store_trim, NewS3Store_prefix_eq.
  destruct (TrimSlash_shape p) as [_ Hr]. rewrite Hr.
  repeat case_bool_decide; simpl; congruence.
Qed.

Lemma prefixEntry_root (s : S3Store) (d : gostring) :
  plain d ->
  prefixEntry s [] (prefix s ++ d ++ [slash]) = Some (mkFileMeta d 0 [] 0 true).
Proof.
  intros Hd. unfold prefixEntry. rewrite TrimPrefix_app, TrimSuffix_app.
  destruct Hd as (Hne & _). rewrite (bool_decide_false _ Hne). reflexivity.
Qed.

Lemma prefixEntry_below (s : S3Store) (segs : list gostring) (d : gostring) :
  segs <> [] -> Forall plain segs -> plain d ->
  prefixEntry s (join_slash segs) (prefix s ++ (join_slash segs ++ [slash]) ++ d ++ [slash])
  = Some (mkFileMeta (join_slash segs ++ slash :: join_slash segs ++ slash :: d) 0 [] 0 true).
Proof.
  intros Hne Hp Hd. unfold prefixEntry. rewrite TrimPrefix_app.
  replace ((join_slash segs ++ [slash]) ++ d ++ [slash])
    with ((join_slash segs ++ slash :: d) ++ [slash])
    by (repeat rewrite <- app_assoc; reflexivity).
  rewrite TrimSuffix_app.
  assert (join_slash segs <> []) as Hj by (apply join_plain_not_nil; assumption).
  rewrite bool_decide_false by (destruct (join_slash segs); [congruence|discriminate]).
  rewrite (bool_decide_true _ Hj).
  f_equal. f_equal. unfold Join.
  destruct (join_slash segs) as [|c r] eqn:E; [congruence|]. rewrite <- E.
  assert (join_slash segs ++ slash :: join_slash segs ++ slash :: d
          = join_slash (segs ++ segs ++ [d])) as ->.
  { rewrite join_slash_app by (try assumption; not_nil).
    rewrite join_slash_app by (try assumption; discriminate). reflexivity. }
  apply Clean_join_plain; [not_nil|].
  repeat (apply Forall_app; split); try assumption. constructor; [exact Hd|constructor].
Qed.

Lemma objectEntry_root (s : S3Store) (reqPrefix : gostring) (o : Object) :
  plain (OKey o) ->
  objectEntry s [] reqPrefix (mkObject (prefix s ++ OKey o) (OSize o) (OETag o) (OLastModified o))
  = if bool_decide (reqPrefix <> []) && bool_decide (prefix s ++ OKey o = reqPrefix) then None
    else Some (mkFileMeta (OKey o) (OSize o) (OETag o) (OLastModified o) false).
Proof.
  intros Hp. unfold objectEntry. simpl.
  destruct (bool_decide (reqPrefix <> []) && bool_decide (prefix s ++ OKey o = reqPrefix));
    [reflexivity|].
  rewrite TrimPrefix_app, (TrimPrefix_unrooted _ (plain_unrooted _ Hp)).
  destruct Hp as (_ & _ & _ & Hn). rewrite (ContainsSlash_false _ Hn). reflexivity.
Qed.

Lemma objectEntry_below (s : S3Store) (segs : list gostring) (o : Object) :
  segs <> [] -> Forall plain segs -> plain (OKey o) ->
  objectEntry s (join_slash segs) (prefix s ++ join_slash segs ++ [slash])
    (mkObject ((prefix s ++ join_slash segs ++ [slash]) ++ OKey o) (OSize o) (OETag o)
       (OLastModified o))
  = Some (mkFileMeta (join_slash segs ++ slash :: OKey o) (OSize o) (OETag o)
            (OLastModified o) false).
Proof.
  intros Hne Hp Ho. unfold objectEntry. simpl.
  assert (join_slash segs <> []) as Hj by (apply join_plain_not_nil; assumption).
  rewrite (bool_decide_false ((prefix s ++ join_slash segs ++ [slash]) ++ OKey o
                              = prefix s ++ join_slash segs ++ [slash])).
  2:{ intros E. rewrite <- (app_nil_r (prefix s ++ join_slash segs ++ [slash])) in E at 2.
      apply app_inv_head in E. destruct Ho as [Hne' _]. contradiction. }
  rewrite andb_false_r.
  replace ((prefix s ++ join_slash segs ++ [slash]) ++ OKey o)
    with (prefix s ++ (join_slash segs ++ [slash]) ++ OKey o)
    by (repeat rewrite <- app_assoc; reflexivity).
  rewrite TrimPrefix_app.
  rewrite TrimPrefix_unrooted.
  2:{ rewrite <- app_assoc.
      pose proof (join_plain_unrooted segs Hp) as Hu.
      destruct (join_slash segs); [congruence|exact Hu]. }
  rewrite (bool_decide_true _ Hj), HasPrefix_app, TrimPrefix_app. simpl.
  destruct Ho as (_ & _ & _ & Hn). rewrite (ContainsSlash_false _ Hn).
  rewrite <- app_assoc. reflexivity.
Qed.

Lemma omap_map_Some {A B C} (f : B -> option C) (g : A -> B) (h : A -> C) (l : list A) :
  Forall (fun a => f (g a) = Some (h a)) l -> omap f (map g l) = map h l.
Proof.
  induction 1 as [|a l Ha _ IH]; [reflexivity|].
  simpl. rewrite Ha. simpl. f_equal. exact IH.
Qed.

Lemma listPages_below (s : S3Store) (segs : list gostring)
    (pages : list (list gostring * list Object)) (out : list FileMeta) :
  segs <> [] -> Forall plain segs -> Forall childrenOk pages ->
  let rel := join_slash segs in
  listPages s rel (prefix s ++ rel ++ [slash])
    (map (fun pg => childPage (prefix s ++ rel ++ [slash]) (fst pg) (snd pg)) pages) out
  = Ok (out ++ concat (map (fun pg =>
          childEntries (fun d => rel ++ slash :: rel ++ slash :: d)
                       (fun f => rel ++ slash :: f) (fst pg) (snd pg)) pages)).
Proof.
  intros Hne Hp Hpages rel. revert out.
  induction Hpages as [|[ds fs] pages [Hds Hfs] _ IH]; intros out; simpl.
  { rewrite app_nil_r. reflexivity. }
  rewrite IH, <- app_assoc. f_equal. f_equal. f_equal.
  unfold pageEntries, childEntries. simpl. f_equal.
  - apply omap_map_Some. eapply Forall_impl; [exact Hds|].
    intros d Hd. simpl. subst rel.
    replace ((prefix s ++ join_slash segs ++ [slash]) ++ d ++ [slash])
      with (prefix s ++ (join_slash segs ++ [slash]) ++ d ++ [slash])
      by (repeat rewrite <- app_assoc; reflexivity).
    apply prefixEntry_below; assumption.
  - apply omap_map_Some. eapply Forall_impl; [exact Hfs|].
    intros o Ho. simpl. subst rel. apply objectEntry_below; assumption.
Qed.

Lemma listPages_root (s : S3Store) (pages : list (list gostring * list Object))
    (out : list FileMeta) :
  Forall childrenOk pages ->
  listPages s [] (prefix s)
    (map (fun pg => childPage (prefix s) (fst pg) (snd pg)) pages) out
  = Ok (out ++ concat (map (fun pg =>
          childEntries (fun d => d) (fun f => f) (fst pg) (snd pg)) pages)).
Proof.
  intros Hpages. revert out.
  induction Hpages as [|[ds fs] pages [Hds Hfs] _ IH]; intros out; simpl.
  { rewrite app_nil_r. reflexivity. }
  rewrite IH, <- app_assoc. f_equal. f_equal. f_equal.
  unfold pageEntries, childEntries. simpl. f_equal.
  - apply omap_map_Some. eapply Forall_impl; [exact Hds|].
    intros d Hd. simpl. apply prefixEntry_root, Hd.
  - apply omap_map_Some. eapply Forall_impl; [exact Hfs|].
    intros o Ho. simpl. rewrite objectEntry_root by exact Ho.
    rewrite (bool_decide_false (prefix s ++ OKey o = prefix s)); [rewrite andb_false_r; reflexivity|].
    intros E. rewrite <- (app_nil_r (prefix s)) in E at 2.
    apply app_inv_head in E. destruct Ho as [Hne' _]. contradiction.
Qed.

End S3Facts.

Example key_reroots_dotdot :
  S3.key S3Examples.tenant (str "../../etc/passwd") = str "tenant/etc/passwd".
Proof. reflexivity. Qed.

Example key_of_root : S3.key S3Examples.tenant (str "./") = str "tenant".
Proof. reflexivity. Qed.

Section S3Claims.
Import GoStrings GoPath Objectstore RemoteFS S3 PathSpec GoFacts SanitizeFacts S3Spec S3Facts.

(** X4.  [NewS3Store] keeps the prefix in one normal form: empty, or the
    given prefix without its leading and trailing separators followed by
    one separator.  Normalising a normalised prefix changes nothing. *)
Theorem NewS3Store_prefix_normal (b p : gostring) :
  let s := NewS3Store b p in
  prefix s = (if bool_decide (TrimSlash p = []) then [] else TrimSlash p ++ [slash])
  /\ is_rooted (TrimSlash p) = false
  /\ HasSuffix (TrimSlash p) [slash] = false
  /\ NewS3Store b (prefix s) = s.
Proof.
  intros s. split; [apply NewS3Store_prefix_eq|].
  destruct (TrimSlash_shape p) as [Hl Hr].
  split; [exact Hl|]. split; [exact Hr|].
  subst s. rewrite NewS3Store_prefix_eq.
  destruct (decide (TrimSlash p = [])) as [E | E].
  - rewrite (bool_decide_true _ E). unfold NewS3Store. rewrite E. reflexivity.
  - rewrite (bool_decide_false _ E). unfold NewS3Store.
    rewrite (TrimSlash_closed _ Hl Hr), Hr. reflexivity.
Qed.

(** X5.  No relative path leaves the prefix: for every [rel], the object
    key is the prefix itself (without its closing separator) or the prefix
    followed by real path elements, none of them empty, [.] or [..].  A
    path made of such elements is kept as it is. *)
Theorem S3Store_key_confined (s : S3Store) (rel : gostring) :
  (key s rel = TrimSuffix (prefix s) [slash]
   \/ exists segs, segs <> [] /\ Forall plain segs
        /\ key s rel = prefix s ++ join_slash segs)
  /\ (forall segs, segs <> [] -> Forall plain segs ->
        key s (join_slash segs) = prefix s ++ join_slash segs)
  /\ key s [] = TrimSuffix (prefix s) [slash]
  /\ (forall b p, TrimSuffix (prefix (NewS3Store b p)) [slash] = TrimSlash p).
Proof.
  split; [apply key_cases|]. split; [intros segs; apply key_plain|].
  split; [apply key_root|]. apply NewS3Store_trim.
Qed.

(** X6.  The key of a sanitized path.  Under a rooted local root, the key
    [sanitize] returns reaches S3 as prefix + key: the store's own cleaning
    changes nothing, and the root maps to the prefix itself. *)
Theorem sanitize_then_key (s : S3Store) (fs : FileSystem) (p rel : gostring) :
  is_rooted (localRoot fs) = true -> sanitize fs p = Ok rel ->
  key s rel = if bool_decide (rel = []) then TrimSuffix (prefix s) [slash]
              else prefix s ++ rel.
Proof.
  intros Hr Hs.
  pose proof (rooted_not_nil _ Hr) as Hne.
  assert (localRoot fs <> [dot]) as Hnd.
  { intros E. rewrite E in Hr. discriminate. }
  apply sanitize_accepts_iff in Hs; [|exact Hne|exact Hnd].
  destruct Hs as [[_ ->]|Hc]; [reflexivity|].
  destruct (Clean_suffix _ _ _ Hne Hc) as (out & Hout & Hok & ->).
  rewrite Hr in Hok.
  assert (Forall plain (rev out)) as Hp by (apply Forall_rev, stack_ok_rooted_plain, Hok).
  assert (rev out <> []) as Hne' by (apply rev_not_nil, Hout).
  rewrite (bool_decide_false _ (join_plain_not_nil _ Hne' Hp)).
  apply key_plain; assumption.
Qed.

Lemma sanitize_then_key_witness :
  key S3Examples.tenant (str "docs/report.txt") = str "tenant/docs/report.txt".
Proof.
  exact (sanitize_then_key S3Examples.tenant (New (str "/data"))
           (str " /data/docs/./report.txt") (str "docs/report.txt") eq_refl eq_refl).
Defined.

(** X7.  What [List] reports.  S3 answers a listing of [rel] with common
    prefixes and keys that start with the request prefix, which is the
    store prefix at the root and prefix + rel + separator below it.  At
    the root every child is reported under its own name.  Below the root
    an object [f] is reported as [rel/f], but a sub-directory [d] is
    reported as [rel/rel/d]: its name is taken relative to the store
    prefix, so it already begins with [rel], and is joined to [rel] again. *)
Theorem S3Store_List_paths (client : ListInput -> list PageResult) (b p : gostring)
    (segs : list gostring) (pages : list (list gostring * list Object)) :
  let s := NewS3Store b p in
  let rel := join_slash segs in
  Forall plain segs -> Forall childrenOk pages ->
  client (listInput s rel)
  = map (fun pg => childPage (listPrefix s rel) (fst pg) (snd pg)) pages ->
  listPrefix s rel = prefix s ++ (if bool_decide (segs = []) then [] else rel ++ [slash])
  /\ List client s rel
     = Ok (concat (map (fun pg =>
             childEntries
               (fun d => if bool_decide (segs = []) then d
                         else rel ++ slash :: rel ++ slash :: d)
               (fun f => if bool_decide (segs = []) then f else rel ++ slash :: f)
               (fst pg) (snd pg)) pages)).
Proof.
  intros s rel Hp Hpages Hclient. unfold List. rewrite Hclient. clear Hclient.
  destruct (decide (segs = [])) as [E | E].
  - rewrite (bool_decide_true _ E). subst segs rel. simpl join_slash.
    subst s. rewrite listPrefix_root, app_nil_r. split; [reflexivity|].
    rewrite listPages_root by exact Hpages. reflexivity.
  - rewrite (bool_decide_false _ E). subst rel.
    rewrite listPrefix_plain by assumption. split; [reflexivity|].
    rewrite listPages_below by assumption. reflexivity.
Qed.

End S3Claims.

Lemma S3Store_List_paths_witness :
  S3.List S3Examples.docsClient S3Examples.tenant (str "docs")
  = Ok [ Objectstore.mkFileMeta (str "docs/docs/archive") 0 [] 0 true;
         Objectstore.mkFileMeta (str "docs/report.txt") 42 (str "etag-1") 7 false ].
Proof.
  assert (Hd : PathSpec.plain (str "docs")).
  { split; [|split; [|split]]; try discriminate.
    apply SanitizeFacts.noslash_check. reflexivity. }
  assert (Ha : PathSpec.plain (str "archive")).
  { split; [|split; [|split]]; try discriminate.
    apply SanitizeFacts.noslash_check. reflexivity. }
  assert (Hf : PathSpec.plain (str "report.txt")).
  { split; [|split; [|split]]; try discriminate.
    apply SanitizeFacts.noslash_check. reflexivity. }
  refine (proj2 (S3Store_List_paths S3Examples.docsClient (str "media") (str "/tenant/")
                   [str "docs"] S3Examples.docsChildren _ _ eq_refl)).
  - apply Forall_cons_2; [exact Hd|apply Forall_nil_2].
  - apply Forall_cons_2; [|apply Forall_nil_2].
    split; (apply Forall_cons_2; [|apply Forall_nil_2]); [exact Ha|exact Hf].
Defined.

(** ** The shim: canonical paths and the root test *)

Module ShimPathFacts.
Import GoStrings GoPath RemoteFS ShimPath PathSpec GoFacts SanitizeFacts FacadeFacts S3Facts.
Import ShimPathSpec.

Lemma canon_segment_nil PM st : canon_segment PM st [] = Value st.
Proof. reflexivity. Qed.

Lemma run_segs_trim PM (p : gostring) st :
  run_segs PM (split_slash (TrimLeftSlash p)) st = run_segs PM (split_slash p) st.
Proof.
  induction p as [|c p IH]; [reflexivity|].
  simpl TrimLeftSlash. destruct (Ascii.eqb c slash) eqn:E; [|reflexivity].
  apply Ascii.eqb_eq in E. subst c. rewrite split_slash_cons_slash. simpl. exact IH.
Qed.

Lemma segment_split (q : gostring) :
  split_slash q
  = fst (segment q) :: match snd (segment q) with
                       | [] => []
                       | _ :: r => split_slash r
                       end.
Proof.
  induction q as [|c q IH]; [reflexivity|].
  simpl. destruct (Ascii.eqb c slash) eqn:E; [reflexivity|].
  rewrite IH. destruct (segment q) as [seg rest]. reflexivity.
Qed.

Lemma segment_rest (q : gostring) :
  (length (snd (segment q)) <= length q)%nat
  /\ match snd (segment q) with
     | [] => True
     | c :: _ => c = slash
     end.
Proof.
  induction q as [|c q [IH1 IH2]]; [simpl; auto|].
  simpl. destruct (Ascii.eqb c slash) eqn:E.
  - simpl. split; [lia|]. apply Ascii.eqb_eq, E.
  - destruct (segment q) as [seg rest]. simpl in *. split; [lia|exact IH2].
Qed.

Lemma segment_head (c : ascii) (q : gostring) :
  Ascii.eqb c slash = false -> (length (snd (segment (c :: q))) <= length q)%nat.
Proof.
  intros E. simpl. rewrite E. pose proof (segment_rest q) as [H _].
  destruct (segment q). exact H.
Qed.

Lemma canon_loop_S PM (fuel : nat) (p : gostring) (st : Canon) :
  canon_loop PM (S fuel) p st
  = if bool_decide (TrimLeftSlash p = []) then Value st
    else
      match canon_segment PM st (fst (segment (TrimLeftSlash p))) with
      | Value st' => canon_loop PM fuel (snd (segment (TrimLeftSlash p))) st'
      | Refused => Refused
      | OutOfBounds => OutOfBounds
      end.
Proof.
  cbn [canon_loop]. destruct (TrimLeftSlash p) as [|c q]; [reflexivity|].
  rewrite bool_decide_false by discriminate.
  destruct (segment (c :: q)). reflexivity.
Qed.

Lemma canon_loop_run PM (fuel : nat) :
  forall p st, (length p < fuel)%nat ->
    canon_loop PM fuel p st = run_segs PM (split_slash p) st.
Proof.
  induction fuel as [|fuel IH]; intros p st Hlen; [lia|].
  rewrite <- run_segs_trim, canon_loop_S.
  destruct (TrimLeftSlash_suffix p) as [l El].
  pose proof (TrimLeftSlash_is_unrooted p) as Hu.
  destruct (TrimLeftSlash p) as [|c q] eqn:Eq; [reflexivity|].
  rewrite bool_decide_false by discriminate.
  simpl in Hu.
  rewrite (segment_split (c :: q)).
  pose proof (segment_head c q Hu) as Hrest.
  pose proof (segment_rest (c :: q)) as [_ Hsl].
  destruct (segment (c :: q)) as [seg rest]. simpl fst. simpl snd in *.
  simpl run_segs.
  destruct (canon_segment PM st seg) as [st'| |]; try reflexivity.
  assert (length rest < fuel)%nat as Hlt.
  { apply (f_equal (@length _)) in El. rewrite length_app in El. simpl in El. lia. }
  rewrite IH by exact Hlt.
  destruct rest as [|d r]; [reflexivity|]. subst d.
  rewrite split_slash_cons_slash. reflexivity.
Qed.

Lemma length_join_slash (segs : list gostring) :
  segs <> [] ->
  S (length (join_slash segs)) = list_sum (map (fun s => S (length s)) segs).
Proof.
  induction segs as [|s rest IH]; [congruence|]. intros _.
  destruct rest as [|r rest'].
  - simpl. lia.
  - rewrite join_slash_cons by discriminate. rewrite length_app. cbn [length].
    change (list_sum (map (fun s0 => S (length s0)) (s :: r :: rest')))
      with (S (length s) + list_sum (map (fun s0 => S (length s0)) (r :: rest')))%nat.
    rewrite <- IH by discriminate. lia.
Qed.

Lemma wt_plain (segs : list gostring) :
  Forall plain segs -> wt segs = list_sum (map (fun s => S (length s)) segs).
Proof.
  induction 1 as [|s l (Hne & _) _ IH]; [reflexivity|].
  simpl. rewrite (bool_decide_false _ Hne), IH. reflexivity.
Qed.

Lemma list_sum_rev (l : list nat) : list_sum (rev l) = list_sum l.
Proof.
  induction l as [|x l IH]; [reflexivity|].
  simpl. rewrite list_sum_app. simpl. lia.
Qed.

(** The length of [result] when it holds [out]. *)
Lemma rlen_plain (out : list gostring) :
  out <> [] -> Forall plain out -> length (slash :: join_slash (rev out)) = wt out.
Proof.
  intros Hne Hp. cbn [length]. rewrite length_join_slash by (apply rev_not_nil, Hne).
  rewrite wt_plain by exact Hp. rewrite map_rev, list_sum_rev. reflexivity.
Qed.

Lemma wt_count (out : list gostring) : Forall plain out -> (2 * length out <= wt out)%nat.
Proof.
  induction 1 as [|s l (Hne & _) _ IH]; [simpl; lia|].
  simpl. rewrite (bool_decide_false _ Hne). destruct s; [congruence|]. simpl. lia.
Qed.

Lemma list_sum_cons (x : nat) (l : list nat) : list_sum (x :: l) = (x + list_sum l)%nat.
Proof. reflexivity. Qed.

Lemma split_slash_weight (p : gostring) :
  list_sum (map (fun s => S (length s)) (split_slash p)) = S (length p).
Proof.
  induction p as [|c p IH]; [reflexivity|].
  cbn [split_slash length]. destruct (Ascii.eqb c slash).
  - rewrite map_cons, list_sum_cons. rewrite IH. reflexivity.
  - destruct (split_slash p) as [|seg rest];
      repeat rewrite map_cons in *; repeat rewrite list_sum_cons in *;
      cbn [length] in *; [simpl in IH|]; lia.
Qed.

Lemma wt_le_sum (segs : list gostring) :
  (wt segs <= list_sum (map (fun s => S (length s)) segs))%nat.
Proof.
  induction segs as [|s segs IH]; [reflexivity|].
  rewrite map_cons, list_sum_cons. cbn [wt]. case_bool_decide; lia.
Qed.

Lemma wt_le_length (p : gostring) : (wt (split_slash p) <= S (length p))%nat.
Proof. rewrite <- split_slash_weight. apply wt_le_sum. Qed.

Lemma lens_length (out : list gostring) : length (lens out) = S (length out).
Proof. induction out as [|s out IH]; [reflexivity|]. simpl. rewrite IH. reflexivity. Qed.

Lemma join_rev_cons (seg : gostring) (out : list gostring) :
  join_slash (rev (seg :: out))
  = if bool_decide (out = []) then seg else join_slash (rev out) ++ slash :: seg.
Proof.
  destruct out as [|s out']; [reflexivity|].
  rewrite (bool_decide_false (s :: out' = [])) by discriminate.
  change (rev (seg :: s :: out')) with (rev (s :: out') ++ [seg]).
  rewrite join_slash_app by (try discriminate; apply rev_not_nil; discriminate).
  reflexivity.
Qed.

(** Popping the last element. *)
Lemma repr_pop PM (seg : gostring) (out : list gostring) :
  canon_segment PM (repr (seg :: out)) dotdot = Value (repr out).
Proof.
  unfold canon_segment.
  rewrite bool_decide_false by discriminate.
  rewrite bool_decide_false by discriminate.
  rewrite bool_decide_true by reflexivity.
  assert (take (length (slash :: join_slash (rev out))) (slash :: join_slash (rev (seg :: out)))
          = slash :: join_slash (rev out)) as Htake.
  { rewrite join_rev_cons. case_bool_decide as E.
    - subst out. reflexivity.
    - change (slash :: join_slash (rev out) ++ slash :: seg)
        with ((slash :: join_slash (rev out)) ++ slash :: seg).
      apply take_app_length. }
  unfold repr. cbn [stack result]. cbn [lens].
  destruct out as [|s out'].
  - reflexivity.
  - cbn [lens]. rewrite Htake. reflexivity.
Qed.

Lemma repr_pop_nil PM : canon_segment PM (repr []) dotdot = Value (repr []).
Proof. reflexivity. Qed.

(** Pushing a real element. *)
Lemma repr_push PM (seg : gostring) (out : list gostring) :
  plain seg -> Forall plain out ->
  (wt (seg :: out) < PM)%nat -> (length out + 1 < PM / 2)%nat ->
  canon_segment PM (repr out) seg = Value (repr (seg :: out)).
Proof.
  intros Hps Hp Hw Hk. pose proof Hps as (Hne & Hnd & Hndd & Hns).
  unfold canon_segment.
  rewrite bool_decide_false by (destruct seg; [congruence|discriminate]).
  rewrite (bool_decide_false _ Hnd), (bool_decide_false _ Hndd).
  change (result (repr out)) with (slash :: join_slash (rev out)).
  change (stack (repr out)) with (lens out).
  rewrite lens_length.
  assert (wt (seg :: out) = S (length seg) + wt out)%nat as Hwt.
  { cbn [wt]. rewrite (bool_decide_false _ Hne). reflexivity. }
  pose proof (rlen_plain (seg :: out) ltac:(discriminate) (Forall_cons_2 _ _ _ Hps Hp))
    as Hnew.
  set (R := slash :: join_slash (rev out)) in *.
  assert ((1 <? length R)%nat = negb (bool_decide (out = []))
          /\ (length R < PM)%nat) as [H1 H2].
  { subst R. destruct out as [|s out'].
    - split; [reflexivity|]. simpl. lia.
    - rewrite rlen_plain by (try discriminate; exact Hp).
      pose proof (wt_count _ Hp) as Hc. cbn [length] in Hc.
      rewrite bool_decide_false by discriminate.
      split; [apply Nat.ltb_lt; lia|lia]. }
  rewrite H1, (proj2 (Nat.leb_gt _ _) H2), andb_false_r.
  assert ((if negb (bool_decide (out = [])) then R ++ [slash] else R) ++ seg
          = slash :: join_slash (rev (seg :: out))) as H3.
  { subst R. rewrite join_rev_cons. case_bool_decide as E.
    - subst out. reflexivity.
    - cbn [negb]. rewrite <- app_assoc. reflexivity. }
  cbv zeta. rewrite <- length_app, H3, Hnew.
  rewrite (proj2 (Nat.leb_gt _ _) Hw).
  rewrite (proj2 (Nat.leb_gt _ _)) by lia.
  unfold repr. cbn [lens]. rewrite Hnew. reflexivity.
Qed.

Lemma clean_step_rooted_plain (out : list gostring) (seg : gostring) :
  Forall plain out -> noslash seg ->
  Forall plain (clean_step true out seg)
  /\ (wt (clean_step true out seg) <= wt out + wt [seg])%nat.
Proof.
  intros Hp Hn. unfold clean_step.
  destruct (bool_decide (seg = [])) eqn:E1; simpl.
  { split; [exact Hp|lia]. }
  destruct (bool_decide (seg = [dot])) eqn:E2; simpl.
  { split; [exact Hp|lia]. }
  apply bool_decide_eq_false in E1, E2.
  destruct (is_dotdot seg) eqn:E3.
  - destruct out as [|top rest]; [split; [exact Hp|lia]|].
    inversion Hp as [|? ? Htop Hrest]; subst.
    assert (is_dotdot top = false) as ->.
    { apply not_true_is_false. intros H. apply is_dotdot_true in H.
      destruct Htop as (_ & _ & Hdd & _). contradiction. }
    split; [exact Hrest|]. simpl. lia.
  - assert (plain seg) as Hps.
    { split; [exact E1|]. split; [exact E2|]. split; [|exact Hn].
      intros H. apply is_dotdot_true in H. congruence. }
    split; [constructor; assumption|].
    simpl. rewrite (bool_decide_false _ E1). lia.
Qed.

(** The loop over a list of segments computes [Clean]'s stack. *)
Lemma run_segs_clean PM (segs : list gostring) :
  forall out,
    Nat.even PM = true -> Forall noslash segs -> Forall plain out ->
    (wt out + wt segs < PM)%nat ->
    run_segs PM segs (repr out) = Value (repr (fold_left (clean_step true) segs out)).
Proof.
  induction segs as [|seg segs IH]; intros out Hev Hns Hp Hw; [reflexivity|].
  inversion Hns as [|? ? Hn Hns']; subst.
  destruct (clean_step_rooted_plain out seg Hp Hn) as [Hp' Hw'].
  assert (wt (seg :: segs) = wt [seg] + wt segs)%nat as Hsplit by (simpl; lia).
  simpl run_segs. simpl fold_left.
  assert (canon_segment PM (repr out) seg = Value (repr (clean_step true out seg))) as ->.
  { unfold clean_step.
    destruct (bool_decide (seg = [])) eqn:E1.
    { apply bool_decide_eq_true in E1. subst seg. reflexivity. }
    destruct (bool_decide (seg = [dot])) eqn:E2.
    { apply bool_decide_eq_true in E2. subst seg. reflexivity. }
    cbn [orb].
    apply bool_decide_eq_false in E1, E2.
    destruct (is_dotdot seg) eqn:E3.
    - apply is_dotdot_true in E3. subst seg.
      destruct out as [|top rest]; [reflexivity|].
      inversion Hp as [|? ? Htop Hrest]; subst.
      assert (is_dotdot top = false) as ->.
      { apply not_true_is_false. intros H. apply is_dotdot_true in H.
        destruct Htop as (_ & _ & Hdd & _). contradiction. }
      apply repr_pop.
    - assert (plain seg) as Hps.
      { split; [exact E1|]. split; [exact E2|]. split; [|exact Hn].
        intros H. apply is_dotdot_true in H. congruence. }
      assert (wt (seg :: out) = wt [seg] + wt out)%nat as Hso by (simpl; lia).
      apply repr_push; [exact Hps|exact Hp|lia|].
      pose proof (wt_count (seg :: out) ltac:(constructor; assumption)) as Hc.
      simpl length in Hc.
      apply Nat.even_spec in Hev as [m Hm]. subst PM.
      replace (2 * m / 2)%nat with m by (symmetry; rewrite Nat.mul_comm; apply Nat.div_mul; lia).
      lia. }
  apply IH; try assumption. lia.
Qed.

(** [canonicalize_path] on its scratch string. *)
Lemma canonicalize_scratch PM (cwd : option gostring) (path scratch : gostring) :
  Nat.even PM = true -> (2 <= PM)%nat ->
  scratch_of PM cwd path = Some scratch -> is_rooted scratch = true ->
  canonicalize_path PM cwd path PM = Value (Clean scratch).
Proof.
  intros Hev H2 Hs Hr. unfold canonicalize_path.
  rewrite bool_decide_false by lia. rewrite Hs.
  assert (length scratch <= PM - 1)%nat as Hlen.
  { unfold scratch_of in Hs. destruct (is_rooted path).
    - injection Hs as <-. rewrite length_take. lia.
    - destruct cwd; [|discriminate]. injection Hs as <-. rewrite length_take. lia. }
  rewrite canon_loop_run by lia.
  destruct scratch as [|c t]; [discriminate|].
  simpl in Hr. apply Ascii.eqb_eq in Hr. subst c.
  rewrite split_slash_cons_slash. simpl run_segs.
  change (mkCanon [slash] [1%nat]) with (repr []).
  pose proof (wt_le_length t) as Hwt. simpl length in Hlen.
  rewrite run_segs_clean;
    [|exact Hev|apply split_noslash|constructor|simpl; lia].
  pose proof (clean_fold_ok true (split_slash t) [] (split_noslash t) (stack_ok_nil true))
    as Hok.
  apply stack_ok_rooted_plain in Hok.
  set (out := fold_left (clean_step true) (split_slash t) []) in *.
  assert (wt out <= wt (split_slash t))%nat as Hwo.
  { subst out. clear Hok Hwt Hlen.
    assert (forall segs o, Forall noslash segs -> Forall plain o ->
              (wt (fold_left (clean_step true) segs o) <= wt o + wt segs)%nat) as G.
    { induction segs as [|s segs IH]; intros o Hn Hp; [simpl; lia|].
      inversion Hn; subst. destruct (clean_step_rooted_plain o s Hp) as [Hp' Hw']; [assumption|].
      simpl fold_left. specialize (IH _ H3 Hp'). simpl in *. lia. }
    specialize (G (split_slash t) [] (split_noslash t) (Forall_nil_2 _)). simpl in G. lia. }
  assert (Clean (slash :: t) = slash :: join_slash (rev out)) as ->.
  { rewrite <- (join_split t) at 1.
    rewrite Clean_rooted_fold by (apply split_slash_not_nil || apply split_noslash).
    fold out. destruct out; reflexivity. }
  cbn [result repr].
  rewrite bool_decide_false by discriminate.
  assert (length (slash :: join_slash (rev out)) < PM)%nat as Hfit.
  { destruct out as [|s o'] eqn:Eo; [simpl; lia|].
    rewrite rlen_plain by (try discriminate; exact Hok). lia. }
  rewrite (proj2 (Nat.leb_gt _ _)) by exact Hfit.
  rewrite take_ge by lia. reflexivity.
Qed.

Lemma is_rooted_take (n : nat) (p : gostring) :
  (1 <= n)%nat -> is_rooted (take n p) = is_rooted p.
Proof. intros Hn. destruct n; [lia|]. destruct p; reflexivity. Qed.

Lemma is_rooted_app (a b : gostring) : is_rooted a = true -> is_rooted (a ++ b) = true.
Proof. destruct a; [discriminate|]. simpl. tauto. Qed.

(** What [canonicalize_path] returns, when [getcwd] gives an absolute
    path. *)
Lemma canonicalize_cases PM (cwd : option gostring) (p : gostring) :
  Nat.even PM = true -> (2 <= PM)%nat ->
  (forall c, cwd = Some c -> is_rooted c = true) ->
  match scratch_of PM cwd p with
  | Some scratch => canonicalize_path PM cwd p PM = Value (Clean scratch)
  | None => canonicalize_path PM cwd p PM = Refused
  end.
Proof.
  intros Hev H2 Hcwd. destruct (scratch_of PM cwd p) as [scratch|] eqn:Es.
  - apply canonicalize_scratch; try assumption.
    unfold scratch_of in Es. destruct (is_rooted p) eqn:Er.
    + injection Es as <-. rewrite is_rooted_take by lia. exact Er.
    + destruct cwd as [c|]; [|discriminate]. injection Es as <-.
      rewrite is_rooted_take by lia. apply is_rooted_app. apply Hcwd. reflexivity.
  - unfold canonicalize_path. rewrite Es. case_bool_decide; reflexivity.
Qed.

Lemma canonicalize_fits PM (cwd : option gostring) (p n : gostring) (out_len : nat) :
  canonicalize_path PM cwd p out_len = Value n -> (length n < out_len)%nat.
Proof.
  unfold canonicalize_path. case_bool_decide as E0; [discriminate|].
  destruct (scratch_of PM cwd p); [|discriminate].
  destruct (canon_loop _ _ _ _) as [st| |]; try discriminate.
  destruct (_ <=? _)%nat eqn:El; [discriminate|].
  apply Nat.leb_gt in El. intros [= <-]. rewrite length_take. lia.
Qed.

Lemma strncmp_prefix (n root : gostring) :
  strncmp_eq n root (length root) = true <-> exists r, n = root ++ r.
Proof.
  unfold strncmp_eq. rewrite bool_decide_eq_true. rewrite firstn_all. split.
  - intros E. exists (drop (length root) n). rewrite <- E at 1. symmetry. apply take_drop.
  - intros [r ->]. apply take_app_length.
Qed.

(** The root test on a canonical path. *)
Lemma within_root_cases PM (root n : gostring) :
  (length n < PM)%nat ->
  (if negb (strncmp_eq n root (length root)) then Refused
   else
     let at_slash :=
       (length root <? length n)%nat
       && match n !! length root with
          | Some c => Ascii.eqb c slash
          | None => false
          end in
     match (if (1 <? length root)%nat then
              if at_slash then Some (S (length root))
              else if (length root <? length n)%nat then None
              else Some (length root)
            else if at_slash then Some (S (length root))
            else Some (length root)) with
     | None => Refused
     | Some offset =>
         Value (take (PM - 1) n,
                take (PM - 1) (if (length n <=? offset)%nat then [] else drop offset n))
     end)
  = if bool_decide (n = root) then Value (n, [])
    else if HasPrefix n (root ++ [slash]) then Value (n, drop (S (length root)) n)
    else if (1 <? length root)%nat then Refused
    else if HasPrefix n root then Value (n, drop (length root) n)
    else Refused.
Proof.
  intros Hfit.
  assert (forall x : gostring, (length x <= length n)%nat -> take (PM - 1) x = x) as Htk.
  { intros x Hx. apply take_ge. lia. }
  destruct (strncmp_eq n root (length root)) eqn:Ecmp.
  - apply strncmp_prefix in Ecmp as [r ->]. cbn [negb].
    destruct r as [|c r].
    + rewrite app_nil_r in *. rewrite bool_decide_true by reflexivity.
      rewrite Nat.ltb_irrefl. cbn [andb].
      destruct (1 <? length root)%nat;
        rewrite Nat.leb_refl, Htk by lia; destruct (PM - 1)%nat; reflexivity.
    + rewrite (bool_decide_false (root ++ c :: r = root)) by (symmetry; apply app_cons_neq).
      rewrite length_app. cbn [length].
      rewrite (proj2 (Nat.ltb_lt (length root) (length root + S (length r)))) by lia.
      cbn [andb].
      rewrite list_lookup_middle by reflexivity.
      assert (HasPrefix (root ++ c :: r) (root ++ [slash]) = Ascii.eqb slash c) as ->.
      { clear. induction root as [|x root IH]; simpl.
        - destruct (Ascii.eqb slash c); [|reflexivity]. destruct r; reflexivity.
        - rewrite Ascii.eqb_refl. exact IH. }
      rewrite Ascii.eqb_sym. rewrite HasPrefix_app.
      assert (drop (S (length root)) (root ++ c :: r) = r) as Hd1.
      { change (root ++ c :: r) with (root ++ [c] ++ r). rewrite app_assoc.
        replace (S (length root)) with (length (root ++ [c]))
          by (rewrite length_app; simpl; lia).
        apply drop_app_length. }
      assert (drop (length root) (root ++ c :: r) = c :: r) as Hd2
        by apply drop_app_length.
      rewrite (Htk (root ++ c :: r)) by lia.
      destruct (Ascii.eqb slash c) eqn:Ec.
      * rewrite Hd1.
        assert ((if (1 <? length root)%nat then Some (S (length root))
                 else Some (S (length root))) = Some (S (length root))) as ->
          by (destruct (1 <? length root)%nat; reflexivity).
        destruct (length root + S (length r) <=? S (length root))%nat eqn:El.
        -- apply Nat.leb_le in El. rewrite take_nil, ?Hd1.
           destruct r; [reflexivity|simpl in El; lia].
        -- rewrite ?Hd1. rewrite Htk by (rewrite length_app; simpl; lia). reflexivity.
      * destruct (1 <? length root)%nat; [reflexivity|].
        rewrite (proj2 (Nat.leb_gt _ _)) by lia.
        rewrite ?Hd2. rewrite Htk by (rewrite length_app; simpl; lia). reflexivity.
  - cbn [negb].
    assert (forall r, n <> root ++ r) as Hno.
    { intros r E. apply not_true_iff_false in Ecmp. apply Ecmp, strncmp_prefix.
      exists r. exact E. }
    rewrite bool_decide_false by (intros E; apply (Hno []); rewrite app_nil_r; exact E).
    assert (HasPrefix n (root ++ [slash]) = false) as ->.
    { apply not_true_is_false. intros H. apply HasPrefix_inv in H as [r E].
      apply (Hno ([slash] ++ r)). rewrite E, <- app_assoc. reflexivity. }
    assert (HasPrefix n root = false) as ->.
    { apply not_true_is_false. intros H. apply HasPrefix_inv in H as [r E].
      apply (Hno r). exact E. }
    destruct (1 <? length root)%nat; reflexivity.
Qed.

Lemma path_within_root_eq PM (root : gostring) (cwd : option gostring) (p : gostring) :
  path_within_root PM root cwd p
  = match canonicalize_path PM cwd p PM with
    | Value n =>
        if bool_decide (n = root) then Value (n, [])
        else if HasPrefix n (root ++ [slash]) then Value (n, drop (S (length root)) n)
        else if (1 <? length root)%nat then Refused
        else if HasPrefix n root then Value (n, drop (length root) n)
        else Refused
    | Refused => Refused
    | OutOfBounds => OutOfBounds
    end.
Proof.
  unfold path_within_root.
  destruct (canonicalize_path PM cwd p PM) as [n| |] eqn:E; try reflexivity.
  apply canonicalize_fits in E. apply within_root_cases, E.
Qed.

Lemma Clean_no_double_slash (p rest : gostring) : Clean p <> slash :: slash :: rest.
Proof.
  intros E.
  destruct (Clean_shape p) as [H | [H | (rooted & out & Hne & Hok & _ & H)]];
    rewrite H in E; try discriminate.
  destruct (join_stack_unrooted rooted out Hne Hok) as (c & r & Hj & Hc).
  rewrite Hj in E. destruct rooted; simpl in E.
  - injection E as E _. congruence.
  - injection E as E _. congruence.
Qed.

End ShimPathFacts.

Module ShimJailFacts.
Import GoStrings GoPath RemoteFS ShimPath PathSpec GoFacts SanitizeFacts FacadeFacts.
Import ShimPathFacts.

Section WithLimits.
Variable PATH_MAX : nat.
Variable cwd : option gostring.
Hypothesis Heven : Nat.even PATH_MAX = true.
Hypothesis Hmin : (2 <= PATH_MAX)%nat.
Hypothesis Hcwd : forall c, cwd = Some c -> is_rooted c = true.

(** What [canonicalize_path] returns is clean, absolute and fits. *)
Lemma canonical_value (path out : gostring) :
  canonicalize_path PATH_MAX cwd path PATH_MAX = Value out ->
  Clean out = out /\ is_rooted out = true /\ (length out < PATH_MAX)%nat.
Proof.
  pose proof (canonicalize_cases PATH_MAX cwd path Heven Hmin Hcwd) as H.
  unfold scratch_of in H. intros Ho. split; [|split].
  - destruct (is_rooted path); [|destruct cwd]; rewrite H in Ho; try discriminate;
      injection Ho as <-; apply Clean_idem.
  - destruct (is_rooted path) eqn:Hr.
    + rewrite H in Ho. injection Ho as <-.
      rewrite is_rooted_Clean, is_rooted_take by lia. exact Hr.
    + destruct cwd as [c|] eqn:Hc; rewrite H in Ho; [|discriminate].
      injection Ho as <-. rewrite is_rooted_Clean, is_rooted_take by lia.
      apply is_rooted_app, Hcwd. reflexivity.
  - apply (canonicalize_fits _ _ _ _ _ Ho).
Qed.

(** The paths [path_within_root] accepts, for a root longer than the
    separator. *)
Lemma jail_cases (root path : gostring) :
  (1 < length root)%nat ->
  match canonicalize_path PATH_MAX cwd path PATH_MAX with
  | Value normalized =>
      (forall abs rel,
         path_within_root PATH_MAX root cwd path = Value (abs, rel) <->
         abs = normalized
         /\ ((normalized = root /\ rel = []) \/ normalized = root ++ slash :: rel))
      /\ (path_within_root PATH_MAX root cwd path = Refused <->
            normalized <> root /\ HasPrefix normalized (root ++ [slash]) = false)
      /\ (forall (c : ascii) (x : gostring), c <> slash -> normalized = root ++ c :: x ->
            path_within_root PATH_MAX root cwd path = Refused)
  | Refused => path_within_root PATH_MAX root cwd path = Refused
  | OutOfBounds => False
  end.
Proof.
  intros Hroot. rewrite path_within_root_eq.
  pose proof (canonicalize_cases PATH_MAX cwd path Heven Hmin Hcwd) as Hc.
  destruct (canonicalize_path PATH_MAX cwd path PATH_MAX) as [n| |] eqn:E.
  2: reflexivity.
  2: { destruct (scratch_of PATH_MAX cwd path); discriminate. }
  rewrite (proj2 (Nat.ltb_lt _ _) Hroot).
  assert (forall rel, n = root ++ slash :: rel -> n <> root) as Hneq.
  { intros rel -> Heq. symmetry in Heq. revert Heq. apply app_cons_neq. }
  assert (forall rel, n = root ++ slash :: rel ->
            HasPrefix n (root ++ [slash]) = true /\ drop (S (length root)) n = rel) as Hpre.
  { intros rel ->. split.
    - change (root ++ slash :: rel) with (root ++ [slash] ++ rel).
      rewrite app_assoc. apply HasPrefix_app.
    - change (root ++ slash :: rel) with (root ++ [slash] ++ rel). rewrite app_assoc.
      replace (S (length root)) with (length (root ++ [slash]))
        by (rewrite length_app; simpl; lia).
      apply drop_app_length. }
  split; [|split].
  - intros abs rel. case_bool_decide as E1.
    + split.
      * intros [= <- <-]. split; [reflexivity|]. left. split; [exact E1|reflexivity].
      * intros (-> & [[_ ->] | H]); [reflexivity|]. exfalso. exact (Hneq _ H E1).
    + destruct (HasPrefix n (root ++ [slash])) eqn:E2.
      * apply HasPrefix_inv in E2 as [r Hr]. rewrite <- app_assoc in Hr. simpl in Hr.
        destruct (Hpre _ Hr) as [_ Hd]. rewrite Hd. split.
        -- intros [= <- <-]. split; [reflexivity|]. right. exact Hr.
        -- intros (-> & [[H _] | H]); [contradiction|].
           rewrite Hr in H. apply app_inv_head in H. injection H as ->. reflexivity.
      * split; [discriminate|].
        intros (_ & [[H _] | H]); [contradiction|].
        destruct (Hpre _ H) as [H' _]. congruence.
  - case_bool_decide as E1; [split; [discriminate|intros [H _]; contradiction]|].
    destruct (HasPrefix n (root ++ [slash])) eqn:E2.
    + split; [discriminate|intros [_ H]; discriminate].
    + split; [intros _; split; [exact E1|reflexivity]|reflexivity].
  - intros c x Hcs Hn.
    rewrite bool_decide_false by (rewrite Hn; symmetry; apply app_cons_neq).
    assert (HasPrefix n (root ++ [slash]) = false) as ->; [|reflexivity].
    apply not_true_is_false. intros H. apply HasPrefix_inv in H as [r Hr].
    rewrite Hn, <- app_assoc in Hr. apply app_inv_head in Hr. injection Hr as Hr _.
    contradiction.
Qed.

(** Under the daemon's root, what the shim accepts [sanitize] accepts, with
    the same key. *)
Lemma accepted_sanitize (fs : FileSystem) (path abs rel : gostring) :
  is_rooted (localRoot fs) = true -> (1 < length (localRoot fs))%nat ->
  path_within_root PATH_MAX (localRoot fs) cwd path = Value (abs, rel) ->
  TrimSpace abs = abs -> sanitize fs abs = Ok rel.
Proof.
  intros Hr Hlen Ew Ht.
  pose proof (rooted_not_nil _ Hr) as Hne.
  assert (localRoot fs <> [dot]) as Hnd by (intros E; rewrite E in Hr; discriminate).
  pose proof (jail_cases (localRoot fs) path Hlen) as Hj.
  destruct (canonicalize_path PATH_MAX cwd path PATH_MAX) as [n| |] eqn:E.
  - destruct (canonical_value path n E) as (Hclean & _ & _).
    destruct Hj as (Hv & _ & _).
    apply (sanitize_accepts_iff fs abs rel Hne Hnd).
    destruct (proj1 (Hv abs rel) Ew) as (-> & Hcase).
    unfold canonical. rewrite Ht, Hclean. exact Hcase.
  - rewrite Hj in Ew. discriminate.
  - destruct Hj.
Qed.

(** The absolute path [path_within_root] hands back is the canonical one. *)
Lemma accepted_canonical (root path abs rel : gostring) :
  path_within_root PATH_MAX root cwd path = Value (abs, rel) ->
  Clean abs = abs /\ is_rooted abs = true /\ (length abs < PATH_MAX)%nat.
Proof.
  rewrite path_within_root_eq.
  destruct (canonicalize_path PATH_MAX cwd path PATH_MAX) as [n| |] eqn:E;
    [|discriminate..].
  intros H. assert (abs = n) as ->.
  { repeat (destruct (_ : bool) in H; try discriminate); injection H as <- _; reflexivity. }
  exact (canonical_value path n E).
Qed.

End WithLimits.

End ShimJailFacts.

Example canonicalize_relative :
  ShimPath.canonicalize_path ShimPath.linux_PATH_MAX (Some (str "/home/u")) (str "../v/./x//y")
    ShimPath.linux_PATH_MAX
  = Value (str "/home/v/x/y").
Proof. vm_compute. reflexivity. Qed.

Example within_root_lookalike :
  ShimPath.path_within_root ShimPath.linux_PATH_MAX (str "/remote") None (str "/remote-mirror/x")
  = Refused.
Proof. vm_compute. reflexivity. Qed.

Section ShimPathClaims.
Import GoStrings GoPath RemoteFS ShimPath PathSpec GoFacts SanitizeFacts FacadeFacts.
Import ShimPathFacts ShimJailFacts.

(** The size of the buffers is even and at least 2 (4096 on Linux, 1024 on
    macOS), and [getcwd] returns an absolute path when it returns one. *)
Variable PATH_MAX : nat.
Variable cwd : option gostring.
Hypothesis Heven : Nat.even PATH_MAX = true.
Hypothesis Hmin : (2 <= PATH_MAX)%nat.
Hypothesis Hcwd : forall c, cwd = Some c -> is_rooted c = true.

(** X8.  The shim's [canonicalize_path] computes Go's [path.Clean]: of the
    first [PATH_MAX - 1] bytes of an absolute path, and of the working
    directory, a separator and the path (cut likewise) for a relative one.
    It refuses only when [getcwd] fails, never because a buffer is short,
    and it never writes outside [result] or [stack].  So what it returns is
    clean, absolute and shorter than [PATH_MAX]. *)
Theorem canonicalize_path_is_Clean (path : gostring) :
  (is_rooted path = true ->
     canonicalize_path PATH_MAX cwd path PATH_MAX
     = Value (Clean (take (PATH_MAX - 1) path)))
  /\ (is_rooted path = false -> forall c, cwd = Some c ->
        canonicalize_path PATH_MAX cwd path PATH_MAX
        = Value (Clean (take (PATH_MAX - 1) (c ++ slash :: path))))
  /\ (is_rooted path = false -> cwd = None ->
        canonicalize_path PATH_MAX cwd path PATH_MAX = Refused)
  /\ (forall out, canonicalize_path PATH_MAX cwd path PATH_MAX = Value out ->
        Clean out = out /\ is_rooted out = true /\ (length out < PATH_MAX)%nat).
Proof.
  pose proof (canonicalize_cases PATH_MAX cwd path Heven Hmin Hcwd) as H.
  unfold scratch_of in H. split; [|split; [|split]].
  - intros Hr. rewrite Hr in H. exact H.
  - intros Hr c Hc. rewrite Hr, Hc in H. rewrite Hc. exact H.
  - intros Hr Hc. rewrite Hr, Hc in H. rewrite Hc. exact H.
  - intros out Ho. exact (canonical_value PATH_MAX cwd Heven Hmin Hcwd path out Ho).
Qed.

(** X9.  The jail of the shim.  For a root longer than the separator,
    [path_within_root] accepts a path exactly when its canonical form is
    the root (the relative form is empty) or the root, a separator and the
    relative form; it hands back the canonical form as the absolute one.
    It refuses every other path, so a sibling whose name only begins with
    the root's is outside. *)
Theorem path_within_root_jail (root path : gostring) :
  (1 < length root)%nat ->
  match canonicalize_path PATH_MAX cwd path PATH_MAX with
  | Value normalized =>
      (forall abs rel,
         path_within_root PATH_MAX root cwd path = Value (abs, rel) <->
         abs = normalized
         /\ ((normalized = root /\ rel = []) \/ normalized = root ++ slash :: rel))
      /\ (path_within_root PATH_MAX root cwd path = Refused <->
            normalized <> root /\ HasPrefix normalized (root ++ [slash]) = false)
      /\ (forall (c : ascii) (x : gostring), c <> slash -> normalized = root ++ c :: x ->
            path_within_root PATH_MAX root cwd path = Refused)
  | Refused => path_within_root PATH_MAX root cwd path = Refused
  | OutOfBounds => False
  end.
Proof.
  exact (jail_cases PATH_MAX cwd Heven Hmin Hcwd root path).
Qed.

(** X10.  The shim and the daemon draw the same line.  When the daemon's
    local root is the shim's root (absolute, longer than the separator),
    every path the shim accepts is accepted by [sanitize] with the same
    relative key, and the canonical form of every path the shim refuses is
    refused by [sanitize]; this for canonical forms that [TrimSpace] leaves
    alone, since [sanitize] trims what it is sent. *)
Theorem shim_agrees_with_sanitize (fs : FileSystem) (path : gostring) :
  is_rooted (localRoot fs) = true -> (1 < length (localRoot fs))%nat ->
  match path_within_root PATH_MAX (localRoot fs) cwd path with
  | Value (abs, rel) => TrimSpace abs = abs -> sanitize fs abs = Ok rel
  | Refused =>
      forall abs, canonicalize_path PATH_MAX cwd path PATH_MAX = Value abs ->
        TrimSpace abs = abs -> is_ok (sanitize fs abs) = false
  | OutOfBounds => False
  end.
Proof.
  intros Hr Hlen.
  pose proof (rooted_not_nil _ Hr) as Hne.
  assert (localRoot fs <> [dot]) as Hnd by (intros E; rewrite E in Hr; discriminate).
  pose proof (jail_cases PATH_MAX cwd Heven Hmin Hcwd (localRoot fs) path Hlen) as Hj.
  destruct (canonicalize_path PATH_MAX cwd path PATH_MAX) as [n| |] eqn:E.
  - destruct (canonical_value PATH_MAX cwd Heven Hmin Hcwd path n E) as (Hclean & _ & _).
    destruct Hj as (Hv & Hrf & _).
    destruct (path_within_root PATH_MAX (localRoot fs) cwd path) as [[abs rel]| |] eqn:Ew.
    + intros Ht. apply (sanitize_accepts_iff fs abs rel Hne Hnd).
      destruct (proj1 (Hv abs rel) eq_refl) as (-> & Hcase).
      unfold canonical. rewrite Ht, Hclean. exact Hcase.
    + intros abs [= <-] Ht.
      destruct (proj1 Hrf eq_refl) as [H1 H2].
      destruct (sanitize fs n) as [rel|e] eqn:Es; [|reflexivity].
      apply (sanitize_accepts_iff fs n rel Hne Hnd) in Es.
      unfold canonical in Es. rewrite Ht, Hclean in Es.
      destruct Es as [[H _] | H]; [contradiction|].
      exfalso. rewrite H in H2.
      change (localRoot fs ++ slash :: rel) with (localRoot fs ++ [slash] ++ rel) in H2.
      rewrite app_assoc, HasPrefix_app in H2. discriminate.
    + rewrite path_within_root_eq, E in Ew.
      repeat (destruct (_ : bool) in Ew; try discriminate).
  - rewrite Hj. intros abs H. discriminate.
  - destruct Hj.
Qed.

(** X11.  With the root [/] the two disagree: the shim accepts every
    absolute path, with its leading separator dropped as the relative
    form, while a daemon whose local root is [/] accepts only the root
    itself, since no cleaned path starts with two separators. *)
Theorem root_slash_mismatch (fs : FileSystem) (path : gostring) :
  localRoot fs = [slash] ->
  (forall abs, canonicalize_path PATH_MAX cwd path PATH_MAX = Value abs ->
     path_within_root PATH_MAX [slash] cwd path = Value (abs, drop 1 abs))
  /\ (forall p rel, sanitize fs p = Ok rel -> rel = [] /\ canonical p = [slash]).
Proof.
  intros Hroot. split.
  - intros abs E. rewrite path_within_root_eq, E.
    destruct (canonical_value PATH_MAX cwd Heven Hmin Hcwd path abs E) as (Hclean & Hrt & _).
    destruct abs as [|c abs']; [discriminate|].
    simpl in Hrt. apply Ascii.eqb_eq in Hrt. subst c.
    case_bool_decide as E1.
    + injection E1 as ->. reflexivity.
    + assert (HasPrefix (slash :: abs') ([slash] ++ [slash]) = false) as ->.
      { apply not_true_is_false. intros H. apply HasPrefix_inv in H as [r Hr].
        rewrite <- Hclean in Hr. revert Hr. apply Clean_no_double_slash. }
      change (1 <? length [slash])%nat with false. cbv iota.
      change (HasPrefix (slash :: abs') [slash]) with true. cbv iota. reflexivity.
  - intros p rel Hs.
    apply sanitize_accepts_iff in Hs; [|rewrite Hroot; discriminate..].
    rewrite Hroot in Hs. destruct Hs as [[H ->] | H]; [split; [reflexivity|exact H]|].
    exfalso. revert H. apply Clean_no_double_slash.
Qed.

End ShimPathClaims.

Lemma canonicalize_path_is_Clean_witness :
  ShimPath.canonicalize_path ShimPath.linux_PATH_MAX (Some (str "/home/u"))
    (str "/remote//docs/../a/./b") ShimPath.linux_PATH_MAX
  = Value (str "/remote/a/b").
Proof.
  assert (Hcwd : forall c, Some (str "/home/u") = Some c -> GoPath.is_rooted c = true)
    by (intros c [= <-]; reflexivity).
  exact (proj1 (canonicalize_path_is_Clean ShimPath.linux_PATH_MAX (Some (str "/home/u"))
                  eq_refl (proj1 (Nat.leb_le 2 ShimPath.linux_PATH_MAX) eq_refl) Hcwd
                  (str "/remote//docs/../a/./b")) eq_refl).
Defined.

Lemma path_within_root_jail_witness :
  ShimPath.path_within_root ShimPath.linux_PATH_MAX (str "/remote") (Some (str "/home/u"))
    (str "/remote-mirror/x")
  = Refused.
Proof.
  assert (Hcwd : forall c, Some (str "/home/u") = Some c -> GoPath.is_rooted c = true)
    by (intros c [= <-]; reflexivity).
  assert (E : ShimPath.canonicalize_path ShimPath.linux_PATH_MAX (Some (str "/home/u"))
                (str "/remote-mirror/x") ShimPath.linux_PATH_MAX
              = Value (str "/remote-mirror/x")) by (vm_compute; reflexivity).
  pose proof (path_within_root_jail ShimPath.linux_PATH_MAX (Some (str "/home/u"))
                eq_refl (proj1 (Nat.leb_le 2 ShimPath.linux_PATH_MAX) eq_refl) Hcwd
                (str "/remote") (str "/remote-mirror/x")
                (proj1 (Nat.ltb_lt 1 7) eq_refl)) as H.
  rewrite E in H. destruct H as (_ & _ & H).
  apply (H "-"%char (str "mirror/x")); [discriminate|reflexivity].
Defined.

Lemma shim_agrees_with_sanitize_witness :
  ShimPath.path_within_root ShimPath.linux_PATH_MAX (str "/remote") (Some (str "/home/u"))
    (str "/remote/docs/../a.txt")
  = Value (str "/remote/a.txt", str "a.txt")
  /\ RemoteFS.sanitize (RemoteFS.New (str "/remote")) (str "/remote/a.txt") = Ok (str "a.txt").
Proof.
  assert (Hcwd : forall c, Some (str "/home/u") = Some c -> GoPath.is_rooted c = true)
    by (intros c [= <-]; reflexivity).
  assert (E : ShimPath.path_within_root ShimPath.linux_PATH_MAX (str "/remote")
                (Some (str "/home/u")) (str "/remote/docs/../a.txt")
              = Value (str "/remote/a.txt", str "a.txt")) by (vm_compute; reflexivity).
  pose proof (shim_agrees_with_sanitize ShimPath.linux_PATH_MAX (Some (str "/home/u"))
                eq_refl (proj1 (Nat.leb_le 2 ShimPath.linux_PATH_MAX) eq_refl) Hcwd
                (RemoteFS.New (str "/remote")) (str "/remote/docs/../a.txt")
                eq_refl (proj1 (Nat.ltb_lt 1 7) eq_refl)) as H.
  change (RemoteFS.localRoot (RemoteFS.New (str "/remote"))) with (str "/remote") in H.
  rewrite E in H. split; [exact E|]. apply H. reflexivity.
Defined.

Lemma root_slash_mismatch_witness :
  ShimPath.path_within_root ShimPath.linux_PATH_MAX [GoStrings.slash] (Some (str "/home/u"))
    (str "/etc/passwd")
  = Value (str "/etc/passwd", str "etc/passwd").
Proof.
  assert (Hcwd : forall c, Some (str "/home/u") = Some c -> GoPath.is_rooted c = true)
    by (intros c [= <-]; reflexivity).
  apply (proj1 (root_slash_mismatch ShimPath.linux_PATH_MAX (Some (str "/home/u"))
                  eq_refl (proj1 (Nat.leb_le 2 ShimPath.linux_PATH_MAX) eq_refl) Hcwd
                  (RemoteFS.New (str "/")) (str "/etc/passwd") eq_refl)).
  vm_compute. reflexivity.
Defined.

(** ** The query string: what the shim encodes, the daemon decodes *)

Module URLFacts.
Import GoStrings GoURL ShimURL URLSpec.

Ltac all_bytes c := destruct c as [[] [] [] [] [] [] [] []].

(** An escaped byte decodes to itself. *)
Lemma escape_roundtrip (c : ascii) :
  let n := nat_of_ascii c in
  let h1 := nth (n / 16 mod 16) hex "0"%char in
  let h2 := nth (n mod 16) hex "0"%char in
  ishex h1 && ishex h2 = true
  /\ ascii_of_nat (unhex h1 * 16 + unhex h2) = c
  /\ urlsafe h1 = true /\ urlsafe h2 = true.
Proof. all_bytes c; vm_compute; repeat split. Qed.

(** An unreserved byte is neither a percent sign nor a plus sign, nor a
    byte that separates settings. *)
Lemma unreserved_plain (c : ascii) :
  unreserved c = true ->
  Ascii.eqb c "%" = false /\ Ascii.eqb c "+" = false
  /\ Ascii.eqb c "&" = false /\ Ascii.eqb c ";" = false /\ Ascii.eqb c "=" = false.
Proof. all_bytes c; vm_compute; intros H; repeat split; congruence. Qed.

Lemma url_encode_safe (p : gostring) : forallb urlsafe (url_encode p) = true.
Proof.
  induction p as [|c p IH]; [reflexivity|].
  cbn [url_encode]. destruct (unreserved c) eqn:E.
  - cbn [forallb]. unfold urlsafe at 1. rewrite E, IH. reflexivity.
  - destruct (escape_roundtrip c) as (_ & _ & H1 & H2).
    cbn [forallb]. cbv zeta in H1, H2. rewrite H1, H2, IH. reflexivity.
Qed.

Lemma url_encode_roundtrip (p : gostring) : QueryUnescape (url_encode p) = Some p.
Proof.
  induction p as [|c p IH]; [reflexivity|].
  cbn [url_encode]. destruct (unreserved c) eqn:E.
  - destruct (unreserved_plain c E) as (H1 & H2 & _).
    cbn [QueryUnescape]. rewrite H1, H2, IH. reflexivity.
  - destruct (escape_roundtrip c) as (H1 & H2 & _). cbv zeta in H1, H2.
    cbn [QueryUnescape]. change (Ascii.eqb "%" "%") with true. cbv iota.
    rewrite H1, H2, IH. reflexivity.
Qed.

Lemma url_encode_length (p : gostring) :
  (length p <= length (url_encode p) <= 3 * length p)%nat.
Proof.
  induction p as [|c p IH]; [simpl; lia|].
  cbn [url_encode]. destruct (unreserved c); cbn [length]; lia.
Qed.

Lemma urlsafe_plain (c : ascii) :
  urlsafe c = true ->
  Ascii.eqb c "&" = false /\ Ascii.eqb c ";" = false /\ Ascii.eqb c "=" = false.
Proof. all_bytes c; vm_compute; intros H; repeat split; congruence. Qed.

Lemma split_on_none (sep : ascii) (s : gostring) :
  forallb (fun c => negb (Ascii.eqb c sep)) s = true -> split_on sep s = [s].
Proof.
  induction s as [|c s IH]; [reflexivity|].
  cbn [forallb split_on]. intros H. apply andb_prop in H as [H1 H2].
  apply negb_true_iff in H1. rewrite H1, (IH H2). reflexivity.
Qed.

Lemma forallb_impl {A} (f g : A -> bool) (l : list A) :
  (forall a, f a = true -> g a = true) -> forallb f l = true -> forallb g l = true.
Proof.
  intros Hfg. induction l as [|a l IH]; [reflexivity|].
  cbn [forallb]. intros H. apply andb_prop in H as [H1 H2].
  rewrite (Hfg _ H1), (IH H2). reflexivity.
Qed.

(** The daemon reads back the path the shim encoded. *)
Lemma query_roundtrip (p : gostring) : QueryGet (query_of p) (str "path") = p.
Proof.
  unfold QueryGet, ParseQuery, query_of.
  pose proof (url_encode_safe p) as Hs.
  set (enc := url_encode p) in *.
  assert (forallb (fun c => negb (Ascii.eqb c "&")) (str "path=" ++ enc) = true) as Hamp.
  { rewrite forallb_app. apply andb_true_intro. split; [reflexivity|].
    revert Hs. apply forallb_impl. intros c Hc. destruct (urlsafe_plain c Hc) as (-> & _).
    reflexivity. }
  rewrite (split_on_none _ _ Hamp). cbn [omap list_omap].
  assert (parseSetting (str "path=" ++ enc) = Some (str "path", p)) as ->.
  { unfold parseSetting.
    assert (existsb (fun c => Ascii.eqb c ";") (str "path=" ++ enc) = false) as ->.
    { rewrite existsb_app. apply orb_false_intro; [reflexivity|].
      apply not_true_is_false. intros H. apply existsb_exists in H as (c & Hin & Hc).
      rewrite forallb_forall in Hs. destruct (urlsafe_plain c (Hs c Hin)) as (_ & H & _).
      congruence. }
    rewrite bool_decide_false by discriminate.
    change (Cut "=" (str "path=" ++ enc)) with (str "path", enc).
    change (QueryUnescape (str "path")) with (Some (str "path")). cbv iota beta.
    subst enc. rewrite url_encode_roundtrip. reflexivity. }
  reflexivity.
Qed.

End URLFacts.

Example url_encode_space :
  ShimURL.url_encode (str "/remote/a b+c&d.txt") = str "/remote/a%20b%2Bc%26d.txt".
Proof. reflexivity. Qed.

Example unescape_malformed : GoURL.QueryUnescape (str "/remote/100%") = None.
Proof. reflexivity. Qed.

Section URLClaims.
Import GoStrings GoURL ShimURL URLSpec URLFacts.

(** X12.  The path survives the query string.  [url_encode] writes only
    letters, digits, [/ - _ . ~] and percent escapes, at most three bytes
    for one; Go's [QueryUnescape] decodes what it wrote to the path it was
    given, so two paths are never encoded alike, and the handlers'
    [r.URL.Query().Get("path")] on the shim's query string is that path. *)
Theorem url_encode_read_back (p : gostring) :
  forallb urlsafe (url_encode p) = true
  /\ QueryUnescape (url_encode p) = Some p
  /\ QueryGet (query_of p) (str "path") = p
  /\ (length p <= length (url_encode p) <= 3 * length p)%nat
  /\ (forall q, url_encode p = url_encode q -> p = q).
Proof.
  split; [apply url_encode_safe|]. split; [apply url_encode_roundtrip|].
  split; [apply query_roundtrip|]. split; [apply url_encode_length|].
  intros q E. apply (f_equal QueryUnescape) in E.
  rewrite !url_encode_roundtrip in E. congruence.
Qed.

End URLClaims.

(** ** The shim: attributes *)

Module ShimStatFacts.
Import GoStrings Objectstore IPC Shim ShimStat.

Lemma mode_t_range (x : Z) : 0 <= mode_t x < 2 ^ 32.
Proof. unfold mode_t. apply Z.mod_pos_bound. lia. Qed.

(** Bits outside [b] are not touched by setting bits of [b]. *)
Lemma land_lor_outside (m b k : Z) : Z.land b k = 0 -> Z.land (Z.lor m b) k = Z.land m k.
Proof. intros H. rewrite Z.land_lor_distr_l, H, Z.lor_0_r. reflexivity. Qed.

Lemma land_lor_inside (m b k : Z) :
  Z.land m k = 0 -> Z.land (Z.lor m b) k = Z.land b k.
Proof. intros H. rewrite Z.land_lor_distr_l, H, Z.lor_0_l. reflexivity. Qed.

Lemma land_lor_keep (m b : Z) : Z.land (Z.lor m b) m = m.
Proof.
  apply Z.bits_inj'. intros n _. rewrite Z.land_spec, Z.lor_spec.
  destruct (Z.testbit m n), (Z.testbit b n); reflexivity.
Qed.

Lemma lor_land_absorb (g p : Z) : Z.lor g (Z.land p g) = g.
Proof.
  apply Z.bits_inj'. intros n _. rewrite Z.lor_spec, Z.land_spec.
  destruct (Z.testbit g n), (Z.testbit p n); reflexivity.
Qed.

End ShimStatFacts.

Example derive_mode_fills_in :
  ShimStat.derive_mode Shim.linux (ShimStat.mkMeta (str "docs") 0 0 0 0 true) = 16744
  /\ ShimStat.derive_mode Shim.linux (ShimStat.mkMeta (str "a.txt") 5 0 0 0 false) = 33056
  /\ ShimStat.derive_mode Shim.linux (ShimStat.mkMeta (str "a.txt") 5 420 0 0 false) = 33188.
Proof. vm_compute. repeat split. Qed.

Section ShimStatClaims.
Import GoStrings Objectstore IPC Shim ShimStat ShimStatFacts.

(** X13.  [derive_mode] only fills in what is missing.  With the constants
    of Linux, the mode it returns keeps every bit the daemon sent, always
    has a file type and a permission bit, and has exactly the write bits
    the daemon sent: the bits it adds ([S_IFDIR] or [S_IFREG], [0550] or
    [0440]) grant no write access.  When the daemon sent no type, the type
    is a directory exactly for [is_dir].  For an entry built by
    [entryFromMeta] nothing is missing: the mode is the daemon's
    [defaultMode], without any write bit, and a directory exactly when the
    entry is one. *)
Theorem derive_mode_readonly (meta : remote_meta) :
  let given := mode_t (rm_mode meta) in
  let m := derive_mode linux meta in
  Z.land m (octal [2; 2; 2]) = Z.land given (octal [2; 2; 2])
  /\ Z.land m given = given
  /\ Z.land m (S_IFMT linux) <> 0
  /\ Z.land m (octal [7; 7; 7]) <> 0
  /\ (Z.land given (S_IFMT linux) = 0 -> S_ISDIR linux m = is_dir meta)
  /\ (forall (s : IPCServer) (fm : FileMeta) (now : Time),
        meta = meta_of_entry (entryFromMeta s fm now) ->
        m = defaultMode (IsDir fm)
        /\ Z.land m (octal [2; 2; 2]) = 0
        /\ S_ISDIR linux m = IsDir fm).
Proof.
  intros given m. subst m. unfold derive_mode. fold given.
  set (t := if is_dir meta then S_IFDIR linux else S_IFREG).
  set (p := if is_dir meta then octal [5; 5; 0] else octal [4; 4; 0]).
  assert (Ht : Z.land t (octal [2; 2; 2]) = 0 /\ Z.land t (octal [7; 7; 7]) = 0
               /\ Z.land t (S_IFMT linux) = t /\ t <> 0)
    by (subst t; destruct (is_dir meta); repeat split; discriminate).
  assert (Hp : Z.land p (octal [2; 2; 2]) = 0 /\ Z.land p (S_IFMT linux) = 0
               /\ Z.land p (octal [7; 7; 7]) = p /\ p <> 0)
    by (subst p; destruct (is_dir meta); repeat split; discriminate).
  destruct Ht as (Ht1 & Ht2 & Ht3 & Ht4). destruct Hp as (Hp1 & Hp2 & Hp3 & Hp4).
  set (m1 := if Z.land given (S_IFMT linux) =? 0 then Z.lor given t else given).
  assert (H1 : Z.land m1 (octal [2; 2; 2]) = Z.land given (octal [2; 2; 2])
               /\ Z.land m1 given = given
               /\ Z.land m1 (S_IFMT linux) <> 0
               /\ Z.land m1 (octal [7; 7; 7]) = Z.land given (octal [7; 7; 7])
               /\ (Z.land given (S_IFMT linux) = 0 -> Z.land m1 (S_IFMT linux) = t)).
  { subst m1. destruct (Z.land given (S_IFMT linux) =? 0) eqn:E.
    - apply Z.eqb_eq in E. repeat split.
      + apply land_lor_outside, Ht1.
      + apply land_lor_keep.
      + rewrite (land_lor_inside _ _ _ E), Ht3. exact Ht4.
      + apply land_lor_outside, Ht2.
      + intros _. rewrite (land_lor_inside _ _ _ E). exact Ht3.
    - apply Z.eqb_neq in E. repeat split; try assumption.
      + apply Z.land_diag.
      + intros H. contradiction. }
  destruct H1 as (Ha & Hb & Hc & Hd & He).
  assert (H2 : let m := if Z.land m1 (octal [7; 7; 7]) =? 0 then Z.lor m1 p else m1 in
               Z.land m (octal [2; 2; 2]) = Z.land given (octal [2; 2; 2])
               /\ Z.land m given = given
               /\ Z.land m (S_IFMT linux) = Z.land m1 (S_IFMT linux)
               /\ Z.land m (octal [7; 7; 7]) <> 0).
  { cbv zeta. destruct (Z.land m1 (octal [7; 7; 7]) =? 0) eqn:E.
    - apply Z.eqb_eq in E. repeat split.
      + rewrite (land_lor_outside _ _ _ Hp1). exact Ha.
      + rewrite Z.land_lor_distr_l, Hb. apply lor_land_absorb.
      + apply land_lor_outside, Hp2.
      + rewrite (land_lor_inside _ _ _ E), Hp3. exact Hp4.
    - apply Z.eqb_neq in E. repeat split; assumption. }
  cbv zeta in H2. destruct H2 as (Hf & Hg & Hh & Hi).
  split; [exact Hf|]. split; [exact Hg|]. split; [rewrite Hh; exact Hc|].
  split; [exact Hi|]. split.
  - intros Hz. unfold S_ISDIR. rewrite Hh, (He Hz). subst t.
    destruct (is_dir meta); reflexivity.
  - intros s [pth sz etag lm isdir] now ->. subst given m1 t p.
    destruct isdir; vm_compute; repeat split.
Qed.

End ShimStatClaims.

(** ** The shim: directory handles *)

Module ShimDirFacts.
Import GoStrings GoPath ShimPath ShimStat ShimDir ShimOpendir DirSpec PathSpec.
Import GoFacts SanitizeFacts ShimPathFacts.

Lemma lookup_store_eq (h : Z) (d d' : shim_dir) (g : Dirs) :
  lookup_dir h g = Some d -> lookup_dir h (store_dir h d' g) = Some d'.
Proof.
  induction g as [|[h0 d0] g IH]; [discriminate|].
  cbn [lookup_dir store_dir]. destruct (h0 =? h) eqn:E.
  - intros _. cbn [lookup_dir]. rewrite E. reflexivity.
  - intros H. cbn [lookup_dir]. rewrite E. apply IH, H.
Qed.

Lemma lookup_store_ne (h h' : Z) (d' : shim_dir) (g : Dirs) :
  h' <> h -> lookup_dir h' (store_dir h d' g) = lookup_dir h' g.
Proof.
  intros Hne. induction g as [|[h0 d0] g IH]; [reflexivity|].
  cbn [lookup_dir store_dir]. destruct (h0 =? h) eqn:E.
  - apply Z.eqb_eq in E. subst h0. cbn [lookup_dir].
    rewrite (proj2 (Z.eqb_neq h h')) by congruence. reflexivity.
  - cbn [lookup_dir]. rewrite IH. reflexivity.
Qed.

Lemma store_store (h : Z) (d1 d2 : shim_dir) (g : Dirs) :
  store_dir h d2 (store_dir h d1 g) = store_dir h d2 g.
Proof.
  induction g as [|[h0 d0] g IH]; [reflexivity|].
  cbn [store_dir]. destruct (h0 =? h) eqn:E; cbn [store_dir]; rewrite E; [reflexivity|].
  rewrite IH. reflexivity.
Qed.

Lemma store_same (h : Z) (d : shim_dir) (g : Dirs) :
  lookup_dir h g = Some d -> store_dir h d g = g.
Proof.
  induction g as [|[h0 d0] g IH]; [reflexivity|].
  cbn [lookup_dir store_dir]. destruct (h0 =? h) eqn:E.
  - intros [= ->]. reflexivity.
  - intros H. rewrite (IH H). reflexivity.
Qed.

(** [readdir] on a handle of the shim. *)
Lemma readdir_step (h : Z) (d : shim_dir) (g : Dirs) :
  lookup_dir h g = Some d -> count d = length (entries d) ->
  readdir h g
  = if (count d <=? index d)%nat then (Answered None, g)
    else (Answered (entries d !! index d), store_dir h (set_index d (S (index d))) g).
Proof.
  intros Hl Hc. unfold readdir, dir_next_entry. rewrite Hl.
  destruct (count d <=? index d)%nat; [|reflexivity].
  rewrite (store_same _ _ _ Hl). reflexivity.
Qed.

Lemma readdir_n_from (n : nat) :
  forall (h : Z) (d : shim_dir) (g : Dirs),
    lookup_dir h g = Some d -> count d = length (entries d) ->
    (index d <= count d)%nat ->
    readdir_n n h g
    = (map (fun e => Answered (Some e)) (take n (drop (index d) (entries d)))
       ++ replicate (n - (count d - index d)) (Answered None),
       store_dir h (set_index d (Nat.min (index d + n) (count d))) g).
Proof.
  induction n as [|n IH]; intros h d g Hl Hc Hi.
  - cbn [readdir_n take map replicate Nat.sub app].
    rewrite Nat.add_0_r, Nat.min_l by exact Hi.
    replace (set_index d (index d)) with d by (destruct d; reflexivity).
    rewrite (store_same _ _ _ Hl). reflexivity.
  - cbn [readdir_n]. rewrite (readdir_step h d g Hl Hc).
    destruct (count d <=? index d)%nat eqn:E.
    + apply Nat.leb_le in E. assert (index d = count d) as Ei by lia.
      rewrite (IH h d g Hl Hc Hi).
      rewrite drop_ge by lia. rewrite !take_nil. cbn [map app].
      replace (S n - (count d - index d))%nat with (S (n - (count d - index d)))%nat by lia.
      cbn [replicate]. rewrite !Nat.min_r by lia. reflexivity.
    + apply Nat.leb_gt in E.
      set (d1 := set_index d (S (index d))).
      assert (lookup_dir h (store_dir h d1 g) = Some d1) as Hl1
        by (apply (lookup_store_eq h d d1 g Hl)).
      rewrite (IH h d1 (store_dir h d1 g) Hl1); [|exact Hc|subst d1; cbn; lia].
      subst d1. cbn [index count entries set_index].
      destruct (entries d !! index d) as [e|] eqn:Ee.
      2:{ apply lookup_ge_None in Ee. lia. }
      rewrite (drop_S _ _ _ Ee). cbn [take map app].
      rewrite store_store.
      replace (S n - (count d - index d))%nat with (n - (count d - S (index d)))%nat by lia.
      replace (S (index d) + n)%nat with (index d + S n)%nat by lia.
      reflexivity.
Qed.

Lemma populate_count PM (abs rel : gostring) (children : list remote_meta) :
  let d := populate_directory PM abs rel children in
  count d = length (entries d) /\ index d = O /\ (2 <= count d)%nat.
Proof. cbn. repeat split; lia. Qed.

Lemma segment_noslash (s : gostring) : noslash s -> segment s = (s, []).
Proof.
  induction s as [|c s IH]; [reflexivity|]. intros Hn.
  cbn [segment]. destruct (Ascii.eqb c slash) eqn:E.
  - apply Ascii.eqb_eq in E. subst c. exfalso. apply Hn. left.
  - rewrite IH; [reflexivity|]. intros H. apply Hn. right. exact H.
Qed.

Lemma segment_app_slash (s rest : gostring) :
  fst (segment (s ++ slash :: rest)) = fst (segment s).
Proof.
  induction s as [|c s IH]; [reflexivity|].
  cbn [app segment]. destruct (Ascii.eqb c slash); [reflexivity|].
  destruct (segment (s ++ slash :: rest)), (segment s). cbn [fst] in *. congruence.
Qed.

Lemma strncmp_app (a b : gostring) : strncmp_eq (a ++ b) a (length a) = true.
Proof. apply strncmp_prefix. exists b. reflexivity. Qed.

(** The name of a child the daemon lists under [rel]. *)
Lemma relative_name_child (rel name : gostring) :
  noslash name ->
  relative_name rel (if bool_decide (rel = []) then name else rel ++ slash :: name) = name.
Proof.
  intros Hn. unfold relative_name, before_slash. case_bool_decide as E.
  - rewrite (segment_noslash _ Hn). reflexivity.
  - rewrite strncmp_app. cbn [negb]. rewrite drop_app_length.
    change (Ascii.eqb slash slash) with true. cbv iota.
    rewrite (segment_noslash _ Hn). reflexivity.
Qed.

(** The name of a path that repeats [rel]. *)
Lemma relative_name_doubled (rel d : gostring) :
  rel <> [] ->
  relative_name rel (rel ++ slash :: rel ++ slash :: d) = before_slash rel.
Proof.
  intros E. unfold relative_name, before_slash.
  rewrite (bool_decide_false _ E), strncmp_app. cbn [negb]. rewrite drop_app_length.
  change (Ascii.eqb slash slash) with true. cbv iota.
  apply segment_app_slash.
Qed.


Lemma lookup_unregister_ne (h h' : Z) (g : Dirs) :
  h' <> h -> lookup_dir h' (unregister_dir h g) = lookup_dir h' g.
Proof.
  intros Hne. induction g as [|[h0 d0] g IH]; [reflexivity|].
  cbn [lookup_dir unregister_dir]. destruct (h0 =? h) eqn:E.
  - apply Z.eqb_eq in E. subst h0.
    rewrite (proj2 (Z.eqb_neq h h')) by congruence. reflexivity.
  - cbn [lookup_dir]. rewrite IH. reflexivity.
Qed.

Lemma lookup_None_notin (h : Z) (g : Dirs) : h ∉ map fst g -> lookup_dir h g = None.
Proof.
  induction g as [|[h0 d0] g IH]; [reflexivity|].
  cbn [map fst lookup_dir]. intros Hn. apply not_elem_of_cons in Hn as [Hne Hn].
  rewrite (proj2 (Z.eqb_neq h0 h)) by congruence. apply IH, Hn.
Qed.

Lemma lookup_unregister_eq (h : Z) (g : Dirs) :
  NoDup (map fst g) -> lookup_dir h (unregister_dir h g) = None.
Proof.
  induction g as [|[h0 d0] g IH]; [reflexivity|].
  cbn [map fst]. intros Hnd. apply NoDup_cons in Hnd as [Hn Hnd].
  cbn [unregister_dir]. destruct (h0 =? h) eqn:E.
  - apply Z.eqb_eq in E. subst h0. apply lookup_None_notin, Hn.
  - cbn [lookup_dir]. rewrite E. apply IH, Hnd.
Qed.

End ShimDirFacts.

Section ShimDirClaims.
Import GoStrings GoPath Objectstore ShimPath ShimStat ShimDir ShimOpendir DirSpec PathSpec.
Import S3 S3Spec GoFacts SanitizeFacts S3Facts ShimDirFacts.

(** X14.  [readdir] walks the cached listing once.  On a handle of the
    shim, as many calls as there are entries left return those entries in
    order, every later call returns [NULL], the position then equals the
    number of entries, and no other handle is touched. *)
Theorem readdir_enumerates (handle : Z) (dir : shim_dir) (g : Dirs) (k : nat) :
  lookup_dir handle g = Some dir -> handle_ok dir ->
  let left := drop (index dir) (entries dir) in
  let '(answers, g') := readdir_n (length left + k) handle g in
  answers = map (fun e => Answered (Some e)) left ++ replicate k (Answered None)
  /\ telldir handle g' = Answered (Z.of_nat (count dir))
  /\ (forall other, other <> handle -> lookup_dir other g' = lookup_dir other g).
Proof.
  intros Hl [Hc Hi] left.
  rewrite (readdir_n_from _ handle dir g Hl Hc Hi).
  assert (length left = count dir - index dir)%nat as Hlen
    by (subst left; rewrite length_drop; lia).
  split; [|split].
  - rewrite take_ge by (fold left; lia).
    replace (length left + k - (count dir - index dir))%nat with k by lia. reflexivity.
  - unfold telldir. rewrite (lookup_store_eq _ _ _ _ Hl). cbn [index set_index].
    rewrite Nat.min_r by lia. reflexivity.
  - intros other Ho. apply lookup_store_ne, Ho.
Qed.

(** X15.  [seekdir] and [telldir].  A location inside the listing is
    taken: [telldir] then returns it and [readdir] returns the entry at
    it.  A location outside, the end of the listing included, is ignored;
    so the position [telldir] gives after the last entry cannot be
    restored once the handle is rewound.  Other handles are not
    touched. *)
Theorem seekdir_restores (handle : Z) (dir : shim_dir) (g : Dirs) (loc : Z) :
  lookup_dir handle g = Some dir -> handle_ok dir ->
  let g' := snd (seekdir handle loc g) in
  (0 <= loc < Z.of_nat (count dir) ->
     telldir handle g' = Answered loc
     /\ fst (readdir handle g') = Answered (entries dir !! Z.to_nat loc))
  /\ (loc < 0 \/ Z.of_nat (count dir) <= loc -> g' = g)
  /\ telldir handle (snd (seekdir handle (Z.of_nat (count dir)) (snd (rewinddir handle g))))
     = Answered 0
  /\ (forall other, other <> handle -> lookup_dir other g' = lookup_dir other g).
Proof.
  intros Hl [Hc Hi] g'. subst g'. unfold seekdir. rewrite Hl.
  split; [|split; [|split]].
  - intros Hloc.
    rewrite (proj2 (Z.leb_le 0 loc)) by lia.
    rewrite (proj2 (Z.ltb_lt loc (Z.of_nat (count dir)))) by lia.
    cbn [andb snd].
    set (d1 := set_index dir (Z.to_nat loc)).
    assert (lookup_dir handle (store_dir handle d1 g) = Some d1) as Hl1
      by (apply (lookup_store_eq _ _ _ _ Hl)).
    split.
    + unfold telldir. rewrite Hl1. subst d1. cbn [index set_index].
      rewrite Z2Nat.id by lia. reflexivity.
    + rewrite (readdir_step _ _ _ Hl1 Hc). subst d1. cbn [index set_index count entries].
      rewrite (proj2 (Nat.leb_gt _ _)) by lia. reflexivity.
  - intros Hloc.
    destruct ((0 <=? loc) && (loc <? Z.of_nat (count dir))) eqn:E; [|reflexivity].
    apply andb_prop in E as [E1 E2]. apply Z.leb_le in E1. apply Z.ltb_lt in E2. lia.
  - unfold rewinddir. rewrite Hl. cbn [snd].
    rewrite (lookup_store_eq _ _ _ _ Hl). cbn [count set_index].
    rewrite Z.ltb_irrefl, andb_false_r. cbn [snd].
    unfold telldir. rewrite (lookup_store_eq _ _ _ _ Hl). reflexivity.
  - intros other Ho.
    destruct ((0 <=? loc) && (loc <? Z.of_nat (count dir))); cbn [snd]; [|reflexivity].
    apply lookup_store_ne, Ho.
Qed.


(** X17.  [closedir] forgets the handle: afterwards the wrappers pass calls
    on it to the real functions, and the other handles are as before.
    Addresses of live handles are distinct. *)
Theorem closedir_forgets (handle : Z) (dir : shim_dir) (g : Dirs) :
  lookup_dir handle g = Some dir -> NoDup (map fst g) ->
  let '(r, g') := closedir handle g in
  r = Answered 0
  /\ lookup_dir handle g' = None
  /\ readdir handle g' = (Passed, g')
  /\ closedir handle g' = (Passed, g')
  /\ (forall other, other <> handle -> lookup_dir other g' = lookup_dir other g).
Proof.
  intros Hl Hnd. unfold closedir at 1. rewrite Hl.
  pose proof (lookup_unregister_eq handle g Hnd) as Hu.
  split; [reflexivity|]. split; [exact Hu|].
  split; [unfold readdir; rewrite Hu; reflexivity|].
  split; [unfold closedir; rewrite Hu; reflexivity|].
  intros other Ho. apply lookup_unregister_ne, Ho.
Qed.

(** X18.  The names the shim shows for what [S3Store.List] reports below
    the root: an object [rel/f] is shown as [f], but a sub-directory,
    reported as [rel/rel/d], is shown under the first element of [rel],
    whatever [d] is. *)
Theorem names_of_S3_listing (segs ds : list gostring) (fs : list Object) :
  segs <> [] -> Forall plain segs -> Forall (fun o => plain (OKey o)) fs ->
  let rel := join_slash segs in
  map (fun e => relative_name rel (Path e))
    (childEntries (fun d => rel ++ slash :: rel ++ slash :: d)
       (fun f => rel ++ slash :: f) ds fs)
  = map (fun _ => hd [] segs) ds ++ map OKey fs.
Proof.
  intros Hne Hp Hfs rel. unfold childEntries.
  assert (rel <> []) as Hrel by (apply join_plain_not_nil; assumption).
  rewrite map_app, !map_map. cbn [Path]. f_equal.
  - apply map_ext. intros d. rewrite (relative_name_doubled rel d Hrel).
    unfold before_slash. subst rel. destruct segs as [|s rest]; [congruence|].
    inversion Hp as [|? ? (_ & _ & _ & Hn) _]; subst.
    destruct rest as [|r rest'].
    + cbn [join_slash hd]. rewrite (segment_noslash _ Hn). reflexivity.
    + rewrite join_slash_cons by discriminate. rewrite segment_app_slash.
      rewrite (segment_noslash _ Hn). reflexivity.
  - apply map_ext_Forall. eapply Forall_impl; [exact Hfs|].
    intros o (_ & _ & _ & Hn). cbn beta.
    pose proof (relative_name_child rel (OKey o) Hn) as H.
    rewrite (bool_decide_false _ Hrel) in H. exact H.
Qed.

End ShimDirClaims.

Example readdir_docs :
  map (fun a => match a with
                | ShimDir.Answered (Some e) => Some (ShimDir.d_name e, ShimDir.d_off e)
                | _ => None
                end)
    (fst (ShimDir.readdir_n 5 4096 ShimDirExamples.opened))
  = [ Some (str ".", 0); Some (str "..", 1); Some (str "a.txt", 2); Some (str "sub", 3);
      None ].
Proof. vm_compute. reflexivity. Qed.

Lemma readdir_enumerates_witness :
  let left := drop (ShimDir.index ShimDirExamples.docsDir)
                (ShimDir.entries ShimDirExamples.docsDir) in
  let '(answers, g') := ShimDir.readdir_n (length left + 1) 4096 ShimDirExamples.opened in
  answers = map (fun e => ShimDir.Answered (Some e)) left
            ++ replicate 1 (ShimDir.Answered None)
  /\ ShimDir.telldir 4096 g'
     = ShimDir.Answered (Z.of_nat (ShimDir.count ShimDirExamples.docsDir))
  /\ (forall other, other <> 4096 ->
        ShimDir.lookup_dir other g' = ShimDir.lookup_dir other ShimDirExamples.opened).
Proof.
  exact (readdir_enumerates 4096 ShimDirExamples.docsDir ShimDirExamples.opened 1
           eq_refl (conj eq_refl (Nat.le_0_l _))).
Defined.

Lemma seekdir_restores_witness :
  ShimDir.telldir 4096 (snd (ShimDir.seekdir 4096 2 ShimDirExamples.opened))
  = ShimDir.Answered 2
  /\ fst (ShimDir.readdir 4096 (snd (ShimDir.seekdir 4096 2 ShimDirExamples.opened)))
     = ShimDir.Answered (ShimDir.entries ShimDirExamples.docsDir !! Z.to_nat 2).
Proof.
  exact (proj1 (seekdir_restores 4096 ShimDirExamples.docsDir ShimDirExamples.opened 2
                  eq_refl (conj eq_refl (Nat.le_0_l _)))
           (conj (proj1 (Z.leb_le 0 2) eq_refl) (proj1 (Z.ltb_lt 2 4) eq_refl))).
Defined.


Lemma closedir_forgets_witness :
  let '(r, g') := ShimDir.closedir 4096 ShimDirExamples.opened in
  r = ShimDir.Answered 0
  /\ ShimDir.lookup_dir 4096 g' = None
  /\ ShimDir.readdir 4096 g' = (ShimDir.Passed, g')
  /\ ShimDir.closedir 4096 g' = (ShimDir.Passed, g')
  /\ (forall other, other <> 4096 ->
        ShimDir.lookup_dir other g' = ShimDir.lookup_dir other ShimDirExamples.opened).
Proof.
  assert (Hn : NoDup (map fst ShimDirExamples.opened)).
  { apply NoDup_cons. split; [apply not_elem_of_nil|apply NoDup_nil_2]. }
  exact (closedir_forgets 4096 ShimDirExamples.docsDir ShimDirExamples.opened eq_refl Hn).
Defined.

Lemma names_of_S3_listing_witness :
  map (fun e => ShimDir.relative_name (str "docs") (Objectstore.Path e))
    [ Objectstore.mkFileMeta (str "docs/docs/archive") 0 [] 0 true;
      Objectstore.mkFileMeta (str "docs/report.txt") 42 (str "etag-1") 7 false ]
  = [str "docs"; str "report.txt"].
Proof.
  assert (Hd : PathSpec.plain (str "docs")).
  { split; [|split; [|split]]; try discriminate.
    apply SanitizeFacts.noslash_check. reflexivity. }
  assert (Hf : PathSpec.plain (str "report.txt")).
  { split; [|split; [|split]]; try discriminate.
    apply SanitizeFacts.noslash_check. reflexivity. }
  refine (names_of_S3_listing [str "docs"] [str "archive"]
            [S3.mkObject (str "report.txt") 42 (str "etag-1") 7] _ _ _).
  - discriminate.
  - apply Forall_cons_2; [exact Hd|apply Forall_nil_2].
  - apply Forall_cons_2; [exact Hf|apply Forall_nil_2].
Defined.

(** * More of the cache: least-recently-used eviction, and the files on disk *)

Module CacheFacts2.
Import GoStrings GoPath Cache CacheFacts CacheSpec2 PathSpec GoFacts SanitizeFacts S3Facts.

Lemma sizesOf_app (c : Cache) (a b : list gostring) :
  sizesOf c (a ++ b) = sizesOf c a + sizesOf c b.
Proof. induction a as [|k a IH]; simpl; [reflexivity|]. rewrite IH. lia. Qed.

Lemma sizesOf_ext (c c1 : Cache) (ks : list gostring) :
  (forall k, k ∈ ks -> entries c1 !! k = entries c !! k) -> sizesOf c1 ks = sizesOf c ks.
Proof.
  induction ks as [|k ks IH]; intros H; [reflexivity|].
  simpl. rewrite IH by (intros k' Hk'; apply H; right; exact Hk').
  unfold sizeOf. rewrite (H k) by left. reflexivity.
Qed.

(** The loop of [ensureCapacity] removes a suffix of the LRU list, and stops
    as soon as what is left fits. *)
Lemma evict_lru (n : nat) :
  forall c d need,
    Inv c -> 0 <= need -> used c + need < 2 ^ 63 ->
    exists c' d' ev,
      evict n c d need = Some (c', d')
      /\ order c = order c' ++ ev
      /\ used c' = used c - sizesOf c ev
      /\ match ev with
         | [] => c' = c /\ d' = d
         | k :: _ => maxBytes c < used c' + sizeOf c k + need
         end.
Proof.
  induction n as [|n IH]; intros c d need HI Hneed Hsum.
  { exists c, d, []. rewrite app_nil_r. simpl. repeat split; lia. }
  pose proof (Inv_used_nonneg c HI) as Hu.
  simpl. rewrite (wrap64_id (used c + need)) by lia.
  destruct (maxBytes c <? used c + need) eqn:Hcmp; cbn [andb].
  2:{ exists c, d, []. rewrite app_nil_r. simpl. repeat split; lia. }
  apply Z.ltb_lt in Hcmp.
  case_bool_decide as Ho; cbn [negb].
  { exists c, d, []. rewrite app_nil_r. simpl. repeat split; lia. }
  destruct (last_is_Some (order c) Ho) as [key Hlast]. rewrite Hlast.
  destruct (removelast_facts _ _ (inv_nodup c HI) Hlast) as (Hnd' & Hmem & Hlen').
  assert (Hkin : key ∈ order c).
  { rewrite (last_removelast _ _ Hlast). apply elem_of_app. right. left. }
  apply (inv_dom c HI) in Hkin as [entry He]. rewrite He.
  destruct (Inv_drop c key entry (removelast (order c)) HI He Hnd' Hmem) as (HI1 & Hw & Hnn).
  set (c1 := mkCache (dir c) (maxBytes c) (delete key (entries c))
               (removelast (order c)) (wrap64 (used c - size entry))) in *.
  pose proof (inv_sizes c HI _ _ He) as Hse.
  assert (Hu1 : used c1 = used c - size entry) by exact Hw.
  destruct (IH c1 (d ∖ {[path entry]}) need HI1 Hneed) as (c' & d' & ev1 & Hev & Hord & Hused & Hmin).
  { rewrite Hu1. lia. }
  exists c', d', (ev1 ++ [key]). split; [exact Hev|].
  assert (Hsame : forall k, k ∈ ev1 -> entries c1 !! k = entries c !! k).
  { intros k Hk. unfold c1. cbn [entries]. apply lookup_delete_ne.
    intros ->. assert (k ∈ removelast (order c)) as Hin.
    { change (removelast (order c)) with (order c1). rewrite Hord.
      apply elem_of_app. right. exact Hk. }
    apply Hmem in Hin. destruct Hin as [_ Hne]. congruence. }
  assert (Hkey : sizeOf c key = size entry) by (unfold sizeOf; rewrite He; reflexivity).
  split; [|split].
  - rewrite (last_removelast _ _ Hlast). change (removelast (order c)) with (order c1).
    rewrite Hord, app_assoc. reflexivity.
  - rewrite sizesOf_app, <- (sizesOf_ext c c1 ev1 Hsame). simpl. rewrite Hkey. lia.
  - destruct ev1 as [|k ev1'].
    + cbn [app]. rewrite Hused. cbn [sizesOf fold_right]. rewrite Hu1, Hkey. lia.
    + simpl. unfold sizeOf in *. rewrite <- (Hsame k) by left. exact Hmin.
Qed.

Section WithHash.
Variable sha256hex : gostring -> gostring.

Lemma MoveToFront_front (key : gostring) (l : list gostring) :
  MoveToFront key (key :: l) = key :: l.
Proof. unfold MoveToFront. simpl. rewrite bool_decide_true by reflexivity. reflexivity. Qed.

Lemma LoadOrCreate_Ok (c : Cache) (d : Disk) (key : gostring) (o : FetchOutcome)
    (p : gostring) (c' : Cache) (d' : Disk) :
  LoadOrCreate sha256hex c d key o = Some (Ok p, c', d') ->
  exists e l, entries c' !! key = Some e /\ path e = p /\ order c' = key :: l
    /\ c' = mkCache (dir c') (maxBytes c') (entries c') (order c') (used c').
Proof.
  unfold LoadOrCreate. destruct (entries c !! key) as [entry|] eqn:Hk.
  - intros [= <- <- <-]. exists entry, (removeElem key (order c)).
    cbn [entries order]. repeat split; assumption.
  - destruct o as [msg|e|msg|sz]; try discriminate.
    destruct (ensureCapacity c _ sz) as [[[[err|] c1] d1]|]; try discriminate.
    intros [= <- <- <-]. eexists _, (order c1). cbn [entries order].
    rewrite lookup_insert_eq. repeat split.
Qed.

End WithHash.

End CacheFacts2.

Module CacheFacts3.
Import GoStrings GoPath Cache CacheFacts CacheSpec2 PathSpec GoFacts SanitizeFacts S3Facts CacheFacts2.

(** The last element of a joined path is the element joined on. *)
Lemma Join_last (a seg : gostring) : plain seg -> last (split_slash (Join a seg)) = Some seg.
Proof.
  intros Hp. pose proof Hp as (Hne & Hnd & Hndd & Hns).
  assert (forall p l : gostring, p = l ++ slash :: seg \/ (p = seg /\ l = []) ->
            last (split_slash (Clean p)) = Some seg) as HC.
  { intros p l Hpl.
    assert (p <> []) as Hpne by (destruct Hpl as [->|[-> _]]; [not_nil|exact Hne]).
    assert (exists segs0, split_slash p = segs0 ++ [seg] /\ Forall noslash segs0) as (segs0 & Hsp & Hn0).
    { destruct Hpl as [->|[-> _]].
      - exists (split_slash l). rewrite split_slash_app, (split_of_noslash _ Hns).
        split; [reflexivity|apply split_noslash].
      - exists []. rewrite (split_of_noslash _ Hns). split; [reflexivity|constructor]. }
    unfold Clean. destruct p as [|c p']; [congruence|].
    set (q := c :: p') in *. rewrite Hsp, fold_left_app. cbn [fold_left].
    set (out0 := fold_left (clean_step (is_rooted q)) segs0 []).
    rewrite (clean_step_plain _ _ _ Hp).
    assert (stack_ok (is_rooted q) out0) as Hok.
    { apply clean_fold_ok; [exact Hn0|apply stack_ok_nil]. }
    assert (Forall noslash (rev out0 ++ [seg])) as Hall.
    { apply Forall_app. split; [apply (stack_ok_rev_noslash _ _ Hok)|].
      constructor; [exact Hns|constructor]. }
    assert (rev out0 ++ [seg] <> []) as Hnn by not_nil.
    cbn [rev]. destruct (is_rooted q).
    - rewrite split_rooted by assumption.
      change ([] :: rev out0 ++ [seg]) with (([] : gostring) :: rev out0 ++ [seg]).
      rewrite app_comm_cons. apply last_snoc.
    - rewrite split_join by assumption. apply last_snoc. }
  unfold Join. destruct a as [|c a'].
  - destruct seg; [congruence|]. apply (HC _ []). right. split; reflexivity.
  - apply (HC _ (c :: a')). left. reflexivity.
Qed.

Section WithHash.
Variable sha256hex : gostring -> gostring.

(** The digest names one path element, and it does not collide. *)
Hypothesis sha_plain : forall k, plain (sha256hex k).
Hypothesis sha_inj : forall k1 k2, sha256hex k1 = sha256hex k2 -> k1 = k2.

Lemma keyPath_inj (c : Cache) (k1 k2 : gostring) :
  keyPath sha256hex c k1 = keyPath sha256hex c k2 -> k1 = k2.
Proof.
  unfold keyPath. intros E. apply sha_inj.
  apply (f_equal (fun p => last (split_slash p))) in E.
  rewrite !Join_last in E by apply sha_plain. congruence.
Qed.

Lemma keyPath_dir (c c' : Cache) (k : gostring) :
  dir c' = dir c -> keyPath sha256hex c' k = keyPath sha256hex c k.
Proof. unfold keyPath. intros ->. reflexivity. Qed.

Lemma DiskInv_New (dirname : gostring) (maxB : Z) (d : Disk) :
  DiskInv sha256hex (New dirname maxB) d.
Proof. intros k e H. cbn in H. rewrite lookup_empty in H. discriminate. Qed.

Lemma DiskInv_order (c : Cache) (d : Disk) (l : list gostring) :
  DiskInv sha256hex c d ->
  DiskInv sha256hex (mkCache (dir c) (maxBytes c) (entries c) l (used c)) d.
Proof. intros H k e Hk. apply (H k e Hk). Qed.

(** Deleting an entry and its file. *)
Lemma DiskInv_delete (c : Cache) (d : Disk) (key : gostring) (e : cacheEntry)
    (l : list gostring) (u : Z) :
  DiskInv sha256hex c d -> entries c !! key = Some e ->
  DiskInv sha256hex (mkCache (dir c) (maxBytes c) (delete key (entries c)) l u)
    (d ∖ {[path e]}).
Proof.
  intros H He k e' Hk. cbn [entries] in Hk.
  apply lookup_delete_Some in Hk as [Hne Hk].
  destruct (H k e' Hk) as [Hp Hin]. split; [exact Hp|].
  apply elem_of_difference. split; [exact Hin|].
  intros Hs. apply elem_of_singleton in Hs.
  destruct (H key e He) as [Hp' _]. rewrite Hp, Hp' in Hs.
  apply keyPath_inj in Hs. congruence.
Qed.

Lemma evict_disk (n : nat) :
  forall c d need c' d',
    DiskInv sha256hex c d -> evict n c d need = Some (c', d') ->
    DiskInv sha256hex c' d' /\ dir c' = dir c
    /\ (forall f, f ∈ d -> (forall k e, entries c !! k = Some e -> path e <> f) -> f ∈ d')
    /\ (forall k, entries c !! k = None -> entries c' !! k = None).
Proof.
  induction n as [|n IH]; intros c d need c' d' HD.
  { intros [= <- <-]. auto. }
  simpl.
  destruct ((maxBytes c <? wrap64 (used c + need)) && negb (bool_decide (order c = [])));
    [|intros [= <- <-]; auto].
  destruct (last (order c)) as [key|]; [|intros [= <- <-]; auto].
  destruct (entries c !! key) as [entry|] eqn:He; [|discriminate].
  intros Hev.
  apply IH in Hev; [|apply (DiskInv_delete c d key entry); assumption].
  destruct Hev as (HD' & Hdir & Hfr & Hno). cbn [dir entries] in *.
  split; [exact HD'|]. split; [exact Hdir|]. split.
  - intros f Hf Hcond. apply Hfr.
    + apply elem_of_difference. split; [exact Hf|]. intros Hs.
      apply elem_of_singleton in Hs. apply (Hcond key entry He). congruence.
    + intros k e Hk. apply lookup_delete_Some in Hk as [_ Hk]. apply (Hcond k e Hk).
  - intros k Hk. apply Hno. apply lookup_delete_None. right. exact Hk.
Qed.

Lemma ensureCapacity_disk (c : Cache) (d : Disk) (need : Z) err c' d' :
  DiskInv sha256hex c d -> ensureCapacity c d need = Some (err, c', d') ->
  DiskInv sha256hex c' d' /\ dir c' = dir c
  /\ (forall f, f ∈ d -> (forall k e, entries c !! k = Some e -> path e <> f) -> f ∈ d')
  /\ (forall k, entries c !! k = None -> entries c' !! k = None).
Proof.
  intros HD. unfold ensureCapacity.
  destruct (maxBytes c <=? 0); [intros [= <- <- <-]; auto|].
  destruct (evict _ c d need) as [[c1 d1]|] eqn:Hev; [|discriminate].
  apply (evict_disk _ _ _ _ _ _ HD) in Hev.
  destruct (maxBytes c1 <? _); intros [= <- <- <-]; exact Hev.
Qed.

Lemma DiskInv_weaken (c : Cache) (d : Disk) (p : gostring) :
  DiskInv sha256hex c d -> DiskInv sha256hex c ({[p]} ∪ d).
Proof.
  intros H k e Hk. destruct (H k e Hk) as [Hp Hin]. split; [exact Hp|].
  apply elem_of_union. right. exact Hin.
Qed.

Lemma DiskInv_unlink (c : Cache) (d : Disk) (key : gostring) :
  DiskInv sha256hex c d -> entries c !! key = None ->
  DiskInv sha256hex c (d ∖ {[keyPath sha256hex c key]}).
Proof.
  intros H Hk k e He. destruct (H k e He) as [Hp Hin]. split; [exact Hp|].
  apply elem_of_difference. split; [exact Hin|]. intros Hs.
  apply elem_of_singleton in Hs. rewrite Hp in Hs. apply keyPath_inj in Hs. congruence.
Qed.

(** [LoadOrCreate] keeps every resident file, and the path it returns is
    that of a file. *)
Lemma LoadOrCreate_disk (c : Cache) (d : Disk) (key : gostring) (o : FetchOutcome) r c' d' :
  DiskInv sha256hex c d -> LoadOrCreate sha256hex c d key o = Some (r, c', d') ->
  DiskInv sha256hex c' d' /\ dir c' = dir c /\ (forall p, r = Ok p -> p ∈ d').
Proof.
  intros HD. unfold LoadOrCreate.
  destruct (entries c !! key) as [entry|] eqn:Hk.
  { intros [= <- <- <-]. split; [apply DiskInv_order, HD|]. split; [reflexivity|].
    intros p [= <-]. apply (HD key entry Hk). }
  set (p := keyPath sha256hex c key).
  destruct o as [msg|e|msg|sz].
  - intros [= <- <- <-]. split; [exact HD|]. split; [reflexivity|discriminate].
  - intros [= <- <- <-]. split; [|split; [reflexivity|discriminate]].
    apply DiskInv_unlink; [apply DiskInv_weaken, HD|exact Hk].
  - intros [= <- <- <-]. split; [|split; [reflexivity|discriminate]].
    apply DiskInv_unlink; [apply DiskInv_weaken, HD|exact Hk].
  - destruct (ensureCapacity c ({[p]} ∪ d) sz) as [[[err c1] d1]|] eqn:Hens; [|discriminate].
    destruct (ensureCapacity_disk _ _ _ _ _ _ (DiskInv_weaken c d p HD) Hens)
      as (HD1 & Hdir & Hfr & Hno).
    assert (entries c1 !! key = None) as Hk1 by (apply Hno, Hk).
    destruct err as [e|].
    + intros [= <- <- <-]. split; [|split; [exact Hdir|discriminate]].
      replace p with (keyPath sha256hex c1 key) by (apply keyPath_dir, Hdir).
      apply DiskInv_unlink; assumption.
    + intros [= <- <- <-]. cbn [dir].
      assert (p ∈ d1) as Hp1.
      { apply Hfr; [apply elem_of_union; left; apply elem_of_singleton; reflexivity|].
        intros k e He. destruct (HD k e He) as [Hpe _]. rewrite Hpe. subst p.
        intros E. apply keyPath_inj in E. congruence. }
      split; [|split; [exact Hdir|intros q [= <-]; exact Hp1]].
      intros k e He. cbn [entries] in He. unfold keyPath. cbn [dir].
      destruct (decide (key = k)) as [<-|Hne].
      * rewrite lookup_insert_eq in He. injection He as <-. cbn [path].
        split; [subst p; unfold keyPath; rewrite Hdir; reflexivity|exact Hp1].
      * rewrite lookup_insert_ne in He by exact Hne. apply (HD1 k e He).
Qed.

Lemma Remove_disk (c : Cache) (d : Disk) (key : gostring) :
  DiskInv sha256hex c d ->
  DiskInv sha256hex (fst (Remove c d key)) (snd (Remove c d key))
  /\ dir (fst (Remove c d key)) = dir c.
Proof.
  intros HD. unfold Remove. destruct (entries c !! key) as [entry|] eqn:Hk; cbn [fst snd].
  - split; [apply DiskInv_delete; assumption|reflexivity].
  - split; [exact HD|reflexivity].
Qed.

Lemma Touch_disk (c : Cache) (d : Disk) (key : gostring) :
  DiskInv sha256hex c d -> DiskInv sha256hex (Touch c key) d.
Proof.
  intros HD. unfold Touch. destruct (entries c !! key); [apply DiskInv_order|]; exact HD.
Qed.

Lemma run_disk (ops : list Op) :
  forall c d c' d',
    DiskInv sha256hex c d -> run sha256hex ops (c, d) = Some (c', d') ->
    DiskInv sha256hex c' d'.
Proof.
  induction ops as [|op ops IH]; intros c d c' d' HD.
  { intros [= <- <-]. exact HD. }
  cbn [run]. destruct op as [key o|key|key]; cbn [step fst snd].
  - destruct (LoadOrCreate sha256hex c d key o) as [[[r c1] d1]|] eqn:E; [|discriminate].
    apply (LoadOrCreate_disk _ _ _ _ _ _ _ HD) in E as (HD1 & _). apply IH, HD1.
  - apply IH, Touch_disk, HD.
  - destruct (Remove c d key) as [c1 d1] eqn:E.
    pose proof (Remove_disk c d key HD) as [HD1 _]. rewrite E in HD1. apply IH, HD1.
Qed.

End WithHash.

End CacheFacts3.

Module DigestFacts.
Import GoStrings PathSpec DigestExamples URLFacts.

Lemma hexByte_noslash (c : ascii) :
  forallb (fun x => negb (Ascii.eqb x slash)) (hexByte c) = true.
Proof. all_bytes c; vm_compute; reflexivity. Qed.

Lemma unhexBytes_hex (key : gostring) : unhexBytes (flat_map hexByte key) = key.
Proof.
  induction key as [|c key IH]; [reflexivity|].
  destruct (escape_roundtrip c) as (_ & H & _). cbv zeta in H.
  cbn [flat_map]. unfold hexByte at 1.
  set (h1 := nth (nat_of_ascii c / 16 mod 16) ShimURL.hex "0"%char) in *.
  set (h2 := nth (nat_of_ascii c mod 16) ShimURL.hex "0"%char) in *.
  change (unhexBytes ([h1; h2] ++ flat_map hexByte key))
    with (ascii_of_nat (GoURL.unhex h1 * 16 + GoURL.unhex h2)
          :: unhexBytes (flat_map hexByte key)).
  rewrite H, IH. reflexivity.
Qed.

Lemma hexName_inj (k1 k2 : gostring) : hexName k1 = hexName k2 -> k1 = k2.
Proof.
  unfold hexName. intros [= E]. apply (f_equal unhexBytes) in E.
  rewrite !unhexBytes_hex in E. exact E.
Qed.

Lemma hexName_plain (key : gostring) : plain (hexName key).
Proof.
  split; [discriminate|]. split; [discriminate|]. split; [discriminate|].
  apply SanitizeFacts.noslash_check. unfold hexName. cbn [forallb].
  change (negb (Ascii.eqb "k" slash)) with true. cbn [andb].
  induction key as [|c key IH]; [reflexivity|].
  cbn [flat_map]. rewrite forallb_app, IH, hexByte_noslash. reflexivity.
Qed.

End DigestFacts.

Section CacheClaims2.
Import GoStrings GoPath Cache CacheFacts CacheSpec2 PathSpec.
Import CacheFacts2 CacheFacts3.
Variable sha256hex : gostring -> gostring.

(** X19.  [ensureCapacity] evicts from the least-recently-used end, and
    no more than it must: under a positive quota the keys it evicts are a
    suffix of the list (front = most recently used), the keys it keeps keep
    their entries, every evicted key leaves the map and loses its file, the
    byte count drops by exactly the evicted sizes, and the last key evicted
    was still needed (with it the quota would be exceeded); it reports an
    error exactly when the request does not fit even then. *)
Theorem eviction_is_lru (c : Cache) (d : Disk) (need : Z) :
  Inv c -> 0 <= need -> used c + need < 2 ^ 63 -> 0 < maxBytes c ->
  exists err c1 d1 evicted,
    ensureCapacity c d need = Some (err, c1, d1)
    /\ order c = order c1 ++ evicted
    /\ (forall k, k ∈ order c1 -> entries c1 !! k = entries c !! k)
    /\ (forall k, k ∈ evicted ->
          entries c1 !! k = None
          /\ forall e, entries c !! k = Some e -> path e ∉ d1)
    /\ used c1 = used c - sizesOf c evicted
    /\ match evicted with
       | [] => c1 = c /\ d1 = d
       | k :: _ => maxBytes c < used c1 + sizeOf c k + need
       end
    /\ (err = None <-> used c1 + need <= maxBytes c).
Proof.
  intros HI Hneed Hsum Hmax.
  destruct (evict_lru (length (order c)) c d need HI Hneed Hsum)
    as (c1 & d1 & ev & Hev & Hord & Hused & Hmin).
  destruct (evict_spec (length (order c)) c d need HI Hneed Hsum)
    as (c1' & d1' & Hev' & HE & _).
  rewrite Hev in Hev'. injection Hev' as <- <-.
  pose proof (ev_inv _ _ _ _ _ HE) as HI1.
  pose proof (Inv_used_nonneg c1 HI1) as Hu1.
  pose proof (ev_used _ _ _ _ _ HE) as Hle.
  assert (Hnone : forall k, k ∈ ev -> entries c1 !! k = None).
  { intros k Hk. destruct (entries c1 !! k) eqn:Ek; [|reflexivity]. exfalso.
    assert (k ∈ order c1) as Hin by (apply (inv_dom c1 HI1); eauto).
    pose proof (inv_nodup c HI) as Hnd. rewrite Hord in Hnd.
    apply NoDup_app in Hnd as (_ & Hdis & _). exact (Hdis k Hin Hk). }
  exists (if maxBytes c <? used c1 + need
          then Some (CapacityError (maxBytes c) (used c1 + need)) else None), c1, d1, ev.
  split.
  { unfold ensureCapacity. rewrite (proj2 (Z.leb_gt _ _)) by lia. rewrite Hev.
    rewrite (wrap64_id (used c1 + need)) by lia. rewrite (ev_max _ _ _ _ _ HE).
    destruct (maxBytes c <? used c1 + need); reflexivity. }
  split; [exact Hord|]. split.
  { intros k Hk. apply (inv_dom c1 HI1) in Hk as [e He]. rewrite He.
    symmetry. apply (ev_kept _ _ _ _ _ HE), He. }
  split.
  { intros k Hk. split; [apply Hnone, Hk|].
    intros e He. apply (ev_gone _ _ _ _ _ HE k e He), Hnone, Hk. }
  split; [exact Hused|]. split; [exact Hmin|].
  destruct (maxBytes c <? used c1 + need) eqn:Hcmp.
  - apply Z.ltb_lt in Hcmp. split; [discriminate|lia].
  - apply Z.ltb_ge in Hcmp. split; [intros _; exact Hcmp|reflexivity].
Qed.

(** X20.  After a [LoadOrCreate] that succeeded, asking for the same key
    again returns the same path without fetching, whatever the store would
    do, and leaves the cache and the disk as they are; [Touch] of that key
    changes nothing either, since the key already heads the list.  For a key
    that was missing the path is [keyPath] of the key. *)
Theorem LoadOrCreate_again (c : Cache) (d : Disk) (key : gostring) (o : FetchOutcome)
    (p : gostring) (c' : Cache) (d' : Disk) :
  LoadOrCreate sha256hex c d key o = Some (Ok p, c', d') ->
  (forall o', LoadOrCreate sha256hex c' d' key o' = Some (Ok p, c', d'))
  /\ Touch c' key = c'
  /\ head (order c') = Some key
  /\ (entries c !! key = None -> p = keyPath sha256hex c key).
Proof.
  intros H. destruct (LoadOrCreate_Ok _ _ _ _ _ _ _ _ H) as (e & l & He & Hp & Ho & Hc).
  split; [|split; [|split]].
  - intros o'. unfold LoadOrCreate. rewrite He, Hp, Ho, MoveToFront_front, <- Ho, <- Hc.
    reflexivity.
  - unfold Touch. rewrite He, Ho, MoveToFront_front, <- Ho, <- Hc. reflexivity.
  - rewrite Ho. reflexivity.
  - intros Hk. unfold LoadOrCreate in H. rewrite Hk in H.
    destruct o as [msg|e0|msg|sz]; try discriminate.
    destruct (ensureCapacity c _ sz) as [[[[err|] c1] d1]|]; try discriminate.
    injection H as <- _ _. reflexivity.
Qed.

(** X21.  [Remove] undoes [LoadOrCreate]: storing a missing key that fits
    (the quota is disabled or has room) evicts nothing, adds exactly that
    entry at the front with its bytes, and removing the key afterwards gives
    back the cache as it was, and the disk without the file. *)
Theorem Remove_undoes_LoadOrCreate (c : Cache) (d : Disk) (key : gostring) (sz : Z) :
  Inv c -> entries c !! key = None -> 0 <= sz -> used c + sz < 2 ^ 63 ->
  maxBytes c <= 0 \/ used c + sz <= maxBytes c ->
  let p := keyPath sha256hex c key in
  exists c',
    LoadOrCreate sha256hex c d key (Fetched sz) = Some (Ok p, c', {[p]} ∪ d)
    /\ entries c' = <[key := mkEntry p sz]> (entries c)
    /\ order c' = key :: order c
    /\ used c' = used c + sz
    /\ Remove c' ({[p]} ∪ d) key = (c, d ∖ {[p]}).
Proof.
  intros HI Hk Hsz Hsum Hfit p.
  pose proof (Inv_used_nonneg c HI) as Hu.
  assert (Hens : ensureCapacity c ({[p]} ∪ d) sz = Some (None, c, {[p]} ∪ d)).
  { destruct (Z_le_gt_dec (maxBytes c) 0) as [Hmax|Hmax].
    - unfold ensureCapacity. rewrite (proj2 (Z.leb_le _ _)) by lia. reflexivity.
    - destruct Hfit as [Hfit|Hfit]; [lia|].
      destruct (ensureCapacity_spec c ({[p]} ∪ d) sz HI Hsz Hsum) as (c1 & d1 & HE & _ & E);
        [lia|].
      destruct (ev_fits _ _ _ _ _ HE Hfit) as [-> ->]. rewrite E.
      rewrite (proj2 (Z.ltb_ge _ _)) by lia. reflexivity. }
  assert (Hw : wrap64 (used c + sz) = used c + sz) by (apply wrap64_id; lia).
  eexists. unfold LoadOrCreate. rewrite Hk. fold p. rewrite Hens.
  split; [reflexivity|]. cbn [entries order used].
  split; [reflexivity|]. split; [reflexivity|]. split; [exact Hw|].
  unfold Remove. cbn [entries order used dir maxBytes]. rewrite lookup_insert_eq.
  cbn [size path]. rewrite delete_insert_id by exact Hk.
  cbn [removeElem]. rewrite bool_decide_true by reflexivity.
  rewrite Hw. replace (used c + sz - sz) with (used c) by lia.
  rewrite (wrap64_id (used c)) by (pose proof (inv_int64 c HI); lia).
  f_equal; [destruct c; reflexivity|].
  apply leibniz_equiv. intros x.
  rewrite !elem_of_difference, elem_of_union, elem_of_singleton. tauto.
Qed.

(** X22.  The files of the cache: for a digest that is injective and
    yields plain file names, after any sequence of operations on a new cache
    followed by one more [LoadOrCreate], every resident entry lies at
    [keyPath] of its key and its file exists, a path handed out names a file
    that exists, and no two keys share a file. *)
Theorem cache_files_exist (dirname : gostring) (maxB : Z) (d0 : Disk) (ops : list Op)
    (key : gostring) (o : FetchOutcome) :
  (forall k, plain (sha256hex k)) ->
  (forall k1 k2, sha256hex k1 = sha256hex k2 -> k1 = k2) ->
  sizesOk (ops ++ [OpLoadOrCreate key o]) ->
  fetched (ops ++ [OpLoadOrCreate key o]) < 2 ^ 63 ->
  exists c d r c' d',
    run sha256hex ops (New dirname maxB, d0) = Some (c, d)
    /\ LoadOrCreate sha256hex c d key o = Some (r, c', d')
    /\ (forall k e, entries c' !! k = Some e ->
          path e = keyPath sha256hex c' k /\ path e ∈ d')
    /\ (forall p, r = Ok p -> p ∈ d')
    /\ (forall k1 k2 e1 e2, entries c' !! k1 = Some e1 -> entries c' !! k2 = Some e2 ->
          path e1 = path e2 -> k1 = k2).
Proof.
  intros Hplain Hinj Hs Hf.
  destruct (run_inv sha256hex (ops ++ [OpLoadOrCreate key o]) (New dirname maxB) d0)
    as (c2 & d2 & Hrun & _).
  - apply Inv_New.
  - cbn. lia.
  - exact Hs.
  - cbn [used New]. lia.
  - assert (forall ops0 s s2,
              run sha256hex (ops0 ++ [OpLoadOrCreate key o]) s = Some s2 ->
              exists c d r, run sha256hex ops0 s = Some (c, d)
                /\ LoadOrCreate sha256hex c d key o = Some (r, fst s2, snd s2)) as Hsplit.
    { induction ops0 as [|op ops0 IH]; intros s s2.
      - cbn [app run step]. destruct s as [c d]. cbn [fst snd].
        destruct (LoadOrCreate sha256hex c d key o) as [[[r c1] d1]|] eqn:E; [|discriminate].
        intros [= <-]. exists c, d, r. split; [reflexivity|exact E].
      - cbn [app run]. destruct (step sha256hex op s) as [s1|]; [|discriminate].
        apply IH. }
    destruct (Hsplit ops _ _ Hrun) as (c & d & r & Hr1 & Hl). cbn [fst snd] in Hl.
    exists c, d, r, c2, d2. split; [exact Hr1|]. split; [exact Hl|].
    pose proof (run_disk sha256hex Hplain Hinj ops _ _ _ _
                  (DiskInv_New sha256hex dirname maxB d0) Hr1) as HD.
    destruct (LoadOrCreate_disk sha256hex Hplain Hinj _ _ _ _ _ _ _ HD Hl) as (HD2 & _ & Hp).
    split; [exact HD2|]. split; [exact Hp|].
    intros k1 k2 e1 e2 H1 H2 E.
    destruct (HD2 k1 e1 H1) as [P1 _]. destruct (HD2 k2 e2 H2) as [P2 _].
    rewrite P1, P2 in E. apply (keyPath_inj sha256hex Hplain Hinj) in E. exact E.
Qed.

End CacheClaims2.

Lemma eviction_is_lru_witness :
  exists err c1 d1 evicted,
    Cache.ensureCapacity CacheExamples.residentA CacheExamples.diskA 60
    = Some (err, c1, d1)
    /\ Cache.order CacheExamples.residentA = Cache.order c1 ++ evicted
    /\ Cache.used c1
       = Cache.used CacheExamples.residentA - CacheSpec2.sizesOf CacheExamples.residentA evicted
    /\ (err = None <-> Cache.used c1 + 60 <= Cache.maxBytes CacheExamples.residentA).
Proof.
  assert (Hneed : 0 <= 60) by lia.
  assert (Hsum : Cache.used CacheExamples.residentA + 60 < 2 ^ 63) by (simpl; lia).
  assert (Hmax : 0 < Cache.maxBytes CacheExamples.residentA) by (simpl; lia).
  destruct (eviction_is_lru CacheExamples.residentA CacheExamples.diskA 60
              Inv_residentA Hneed Hsum Hmax)
    as (err & c1 & d1 & ev & E & Ho & _ & _ & Hu & _ & He).
  exists err, c1, d1, ev. split; [exact E|]. split; [exact Ho|].
  split; [exact Hu|exact He].
Defined.

Lemma LoadOrCreate_again_witness :
  Cache.LoadOrCreate Cache.plainName CacheExamples.residentA ({[str "/cache/a"]} ∪ ∅)
    (str "a") (Cache.FetchFails (StoreNotFound (str "a")))
  = Some (Ok (str "/cache/a"), CacheExamples.residentA, {[str "/cache/a"]} ∪ ∅)
  /\ Cache.Touch CacheExamples.residentA (str "a") = CacheExamples.residentA.
Proof.
  pose proof (LoadOrCreate_again Cache.plainName (Cache.New (str "/cache") 100) ∅
                (str "a") (Cache.Fetched 60) _ _ _ eq_refl) as (H & T & _).
  split; [exact (H (Cache.FetchFails (StoreNotFound (str "a"))))|exact T].
Defined.

Lemma Remove_undoes_LoadOrCreate_witness :
  exists c',
    Cache.LoadOrCreate Cache.plainName CacheExamples.residentA CacheExamples.diskA
      (str "b") (Cache.Fetched 30)
    = Some (Ok (str "/cache/b"), c', {[str "/cache/b"]} ∪ CacheExamples.diskA)
    /\ Cache.Remove c' ({[str "/cache/b"]} ∪ CacheExamples.diskA) (str "b")
       = (CacheExamples.residentA, CacheExamples.diskA ∖ {[str "/cache/b"]}).
Proof.
  assert (Hk : Cache.entries CacheExamples.residentA !! str "b" = None)
    by (vm_compute; reflexivity).
  assert (Hsz : 0 <= 30) by lia.
  assert (Hsum : Cache.used CacheExamples.residentA + 30 < 2 ^ 63) by (simpl; lia).
  assert (Hfit : Cache.maxBytes CacheExamples.residentA <= 0
                 \/ Cache.used CacheExamples.residentA + 30
                    <= Cache.maxBytes CacheExamples.residentA) by (right; simpl; lia).
  destruct (Remove_undoes_LoadOrCreate Cache.plainName CacheExamples.residentA
              CacheExamples.diskA (str "b") 30 Inv_residentA Hk Hsz Hsum Hfit)
    as (c' & E & _ & _ & _ & R).
  exists c'. split; [exact E|exact R].
Defined.

Lemma cache_files_exist_witness :
  exists c d r c' d',
    Cache.run DigestExamples.hexName CacheExamples.demoOps
      (Cache.New (str "/cache") 100, ∅) = Some (c, d)
    /\ Cache.LoadOrCreate DigestExamples.hexName c d (str "c") (Cache.Fetched 50)
       = Some (r, c', d')
    /\ (forall p, r = Ok p -> p ∈ d').
Proof.
  assert (Hs : Cache.sizesOk
                 (CacheExamples.demoOps ++ [Cache.OpLoadOrCreate (str "c") (Cache.Fetched 50)])).
  { simpl. repeat split; lia. }
  assert (Hf : Cache.fetched
                 (CacheExamples.demoOps ++ [Cache.OpLoadOrCreate (str "c") (Cache.Fetched 50)])
               < 2 ^ 63) by (simpl; lia).
  destruct (cache_files_exist DigestExamples.hexName (str "/cache") 100 ∅
              CacheExamples.demoOps (str "c") (Cache.Fetched 50)
              DigestFacts.hexName_plain DigestFacts.hexName_inj Hs Hf)
    as (c & d & r & c' & d' & Hr & Hl & _ & Hp & _).
  exists c, d, r, c', d'. split; [exact Hr|]. split; [exact Hl|exact Hp].
Defined.

(** * From the application to the store: the shim, the handlers and the cache *)

Module ReadFacts.
Import GoStrings GoPath Objectstore RemoteFS Cache CacheFacts CacheSpec RemoteRead.
Import CacheFacts2.

Section WithHash.
Variable sha256hex : gostring -> gostring.

(** The outcomes of [ReadFile] on a path [sanitize] accepts. *)
Lemma ReadFile_cases (fs : FileSystem) (c : Cache) (d : Disk)
    (local rel : gostring) (o : FetchOutcome) (openErr : option gostring) :
  Inv c -> (0 < maxBytes c -> used c <= maxBytes c) ->
  0 <= fetchSize o -> used c + fetchSize o < 2 ^ 63 ->
  sanitize fs local = Ok rel ->
  exists r c' d',
    ReadFile sha256hex fs c d local o openErr = Some (r, c', d')
    /\ Inv c' /\ maxBytes c' = maxBytes c
    /\ (0 < maxBytes c -> used c' <= maxBytes c)
    /\ (rel = [] ->
          r = Err (Errorf (str "cannot read directory " ++ local)) /\ c' = c /\ d' = d)
    /\ (forall p, r = Ok p ->
          rel <> [] /\ openErr = None /\ head (order c') = Some rel
          /\ exists e, entries c' !! rel = Some e /\ path e = p)
    /\ (forall e, rel <> [] -> entries c !! rel = Some e ->
          d' = d /\ entries c' = entries c /\ used c' = used c
          /\ (openErr = None -> r = Ok (path e)))
    /\ (forall err, rel <> [] -> entries c !! rel = None -> o = FetchFails err ->
          IsNotFound err = true ->
          r = Err (NotFoundError (joinLocal fs rel)) /\ c' = c
          /\ keyPath sha256hex c rel ∉ d').
Proof.
  intros HI Hq Hsz Hsum Hs. unfold ReadFile. rewrite Hs.
  case_bool_decide as Hrel.
  { exists (Err (Errorf (str "cannot read directory " ++ local))), c, d.
    split; [reflexivity|]. split; [exact HI|]. split; [reflexivity|]. split; [exact Hq|].
    split; [auto|]. split; [discriminate|]. split; [intros e H; contradiction|].
    intros err H; contradiction. }
  destruct (LoadOrCreate_inv sha256hex c d rel o HI Hq Hsz Hsum)
    as (r1 & c1 & d1 & HL & HI1 & Hm1 & Hq1 & _).
  rewrite HL.
  assert (Hres : forall e, entries c !! rel = Some e ->
            r1 = Ok (path e) /\ d1 = d /\ entries c1 = entries c /\ used c1 = used c).
  { intros e He. unfold LoadOrCreate in HL. rewrite He in HL.
    injection HL as <- <- <-. auto. }
  assert (Hnf : forall err, entries c !! rel = None -> o = FetchFails err ->
            r1 = Err err /\ c1 = c /\ keyPath sha256hex c rel ∉ d1).
  { intros err Hk ->. unfold LoadOrCreate in HL. rewrite Hk in HL.
    injection HL as <- <- <-. split; [reflexivity|]. split; [reflexivity|].
    rewrite elem_of_difference, elem_of_singleton. tauto. }
  destruct r1 as [p|err].
  - destruct (LoadOrCreate_Ok sha256hex _ _ _ _ _ _ _ HL) as (e & l & He & Hp & Ho & Hc1).
    assert (HT : Touch c1 rel = c1).
    { unfold Touch. rewrite He, Ho, MoveToFront_front, <- Ho, <- Hc1. reflexivity. }
    destruct openErr as [msg|].
    + eexists _, c1, d1. split; [reflexivity|]. split; [exact HI1|].
      split; [exact Hm1|]. split; [exact Hq1|]. split; [intros; contradiction|].
      split; [discriminate|]. split.
      * intros e0 _ He0. destruct (Hres e0 He0) as (_ & -> & -> & ->).
        repeat split. discriminate.
      * intros err _ Hk Ho' _. destruct (Hnf err Hk Ho') as [? _]. discriminate.
    + exists (Ok p), (Touch c1 rel), d1. rewrite HT.
      split; [reflexivity|]. split; [exact HI1|].
      split; [exact Hm1|]. split; [exact Hq1|]. split; [intros; contradiction|].
      split.
      * intros p0 [= <-]. split; [exact Hrel|]. split; [reflexivity|].
        split; [rewrite Ho; reflexivity|]. exists e. auto.
      * split.
        -- intros e0 _ He0. destruct (Hres e0 He0) as ([= ->] & -> & -> & ->).
           repeat split.
        -- intros err _ Hk Ho' _. destruct (Hnf err Hk Ho') as [? _]. discriminate.
  - exists (if IsNotFound err then Err (NotFoundError (joinLocal fs rel)) else Err err), c1, d1.
    split; [destruct (IsNotFound err); reflexivity|]. split; [exact HI1|].
    split; [exact Hm1|]. split; [exact Hq1|]. split; [intros; contradiction|].
    split; [destruct (IsNotFound err); discriminate|]. split.
    + intros e0 _ He0. destruct (Hres e0 He0) as (? & _). discriminate.
    + intros err0 _ Hk Ho' Hnf'. destruct (Hnf err0 Hk Ho') as ([= ->] & -> & Hd).
      rewrite Hnf'. auto.
Qed.

End WithHash.

End ReadFacts.

Module BridgeFacts.
Import GoStrings GoPath Objectstore RemoteFS IPC Shim ShimPath ShimURL ShimStat ShimDir
  ShimOpendir RemoteRead IPCHandlers ShimFetch URLFacts.

(** The handlers read back the path the shim sent. *)
Lemma pathOrRoot_query (s : IPCServer) (abs : gostring) :
  abs <> [] -> pathOrRoot s (query_of abs) = abs.
Proof.
  intros Hne. unfold pathOrRoot. rewrite query_roundtrip.
  rewrite bool_decide_false by exact Hne. reflexivity.
Qed.

(** A URL that fits the buffer is not cut. *)
Lemma request_url_fits (PATH_MAX : nat) (endpoint abs : gostring) :
  (length endpoint + length (url_encode abs) + 17 < 2 * PATH_MAX)%nat ->
  request_url PATH_MAX endpoint abs
  = str "http://unix" ++ endpoint ++ str "?" ++ query_of abs.
Proof.
  intros H. unfold request_url. apply take_ge.
  unfold query_of. rewrite !length_app. cbn [length str]. 
  change (length (str "http://unix")) with 11%nat.
  change (length (str "?")) with 1%nat. change (length (str "path=")) with 5%nat. lia.
Qed.

Lemma derive_mode_entry (s : IPCServer) (m : FileMeta) (now : Time) :
  derive_mode linux (meta_of_entry (entryFromMeta s m now)) = defaultMode (IsDir m).
Proof. destruct m as [p sz et lm isdir]. destruct isdir; reflexivity. Qed.

Lemma status_writeErrorFor (e : error) :
  status (writeErrorFor e) = if IPCHandlers.IsNotFound e then 404 else 500.
Proof. reflexivity. Qed.

End BridgeFacts.

Module URLCutFacts.
Import GoStrings GoURL ShimURL URLSpec URLFacts.

(** What [QueryUnescape] makes of the first [k] bytes of an encoded path:
    a prefix of the path, or nothing when the cut falls inside an
    escape. *)
Lemma unescape_prefix (p : gostring) :
  forall k : nat,
    exists j : nat,
      (j <= length p)%nat
      /\ (k < length (url_encode p) -> j < length p)%nat
      /\ (QueryUnescape (take k (url_encode p)) = Some (take j p)
          \/ QueryUnescape (take k (url_encode p)) = None).
Proof.
  induction p as [|c p IH]; intros k.
  - exists O. cbn [url_encode length]. rewrite take_nil. split; [lia|]. split; [lia|].
    left. reflexivity.
  - destruct k as [|k].
    { exists O. cbn [length take]. split; [lia|]. split; [lia|]. left. reflexivity. }
    cbn [url_encode]. destruct (unreserved c) eqn:E.
    + destruct (unreserved_plain c E) as (H1 & H2 & _).
      destruct (IH k) as (j & Hj & Hlt & Hd).
      exists (S j). cbn [length take]. split; [lia|]. split; [lia|].
      cbn [QueryUnescape]. rewrite H1, H2.
      destruct Hd as [-> | ->]; [left|right]; reflexivity.
    + destruct (escape_roundtrip c) as (H1 & H2 & _). cbv zeta in H1, H2.
      set (h1 := nth (nat_of_ascii c / 16 mod 16) hex "0"%char) in *.
      set (h2 := nth (nat_of_ascii c mod 16) hex "0"%char) in *.
      destruct k as [|[|k]].
      * exists O. cbn [length take]. split; [lia|]. split; [lia|]. right. reflexivity.
      * exists O. cbn [length take]. split; [lia|]. split; [lia|]. right. reflexivity.
      * destruct (IH k) as (j & Hj & Hlt & Hd).
        exists (S j). cbn [length take]. split; [lia|]. split; [lia|].
        cbn [QueryUnescape]. change (Ascii.eqb "%" "%") with true. cbv iota.
        rewrite H1, H2.
        destruct Hd as [-> | ->]; [left|right]; reflexivity.
Qed.

Lemma forallb_take {A} (f : A -> bool) (n : nat) (l : list A) :
  forallb f l = true -> forallb f (take n l) = true.
Proof.
  revert n. induction l as [|a l IH]; intros n; [rewrite take_nil; reflexivity|].
  destruct n as [|n]; [reflexivity|].
  cbn [forallb take]. intros H. apply andb_prop in H as [H1 H2].
  rewrite H1, (IH n H2). reflexivity.
Qed.

(** The value the handlers read from a query [path=v] whose [v] has only
    the bytes of an encoded path. *)
Lemma query_get_value (v : gostring) :
  forallb urlsafe v = true ->
  QueryGet (str "path=" ++ v) (str "path")
  = match QueryUnescape v with Some x => x | None => [] end.
Proof.
  intros Hs. unfold QueryGet, ParseQuery.
  assert (forallb (fun c => negb (Ascii.eqb c "&")) (str "path=" ++ v) = true) as Hamp.
  { rewrite forallb_app. apply andb_true_intro. split; [reflexivity|].
    revert Hs. apply forallb_impl. intros c Hc. destruct (urlsafe_plain c Hc) as (-> & _).
    reflexivity. }
  rewrite (split_on_none _ _ Hamp). cbn [omap list_omap].
  unfold parseSetting.
  assert (existsb (fun c => Ascii.eqb c ";") (str "path=" ++ v) = false) as ->.
  { rewrite existsb_app. apply orb_false_intro; [reflexivity|].
    apply not_true_is_false. intros H. apply existsb_exists in H as (c & Hin & Hc).
    rewrite forallb_forall in Hs. destruct (urlsafe_plain c (Hs c Hin)) as (_ & H & _).
    congruence. }
  rewrite bool_decide_false by discriminate.
  change (Cut "=" (str "path=" ++ v)) with (str "path", v).
  change (QueryUnescape (str "path")) with (Some (str "path")). cbv iota beta.
  destruct (QueryUnescape v); reflexivity.
Qed.

Lemma Cut_first (sep : ascii) (a b : gostring) :
  forallb (fun c => negb (Ascii.eqb c sep)) a = true ->
  Cut sep (a ++ sep :: b) = (a, b).
Proof.
  induction a as [|c a IH]; intros H.
  - cbn [app Cut]. rewrite Ascii.eqb_refl. reflexivity.
  - cbn [forallb] in H. apply andb_prop in H as [H1 H2]. apply negb_true_iff in H1.
    cbn [app Cut]. rewrite H1, (IH H2). reflexivity.
Qed.

(** The query of the URL the shim sends, when the text before the encoded
    path fits the buffer: [path=] and as much of the encoded path as
    fits. *)
Lemma RawQuery_request (PATH_MAX : nat) (endpoint abs : gostring) :
  forallb (fun c => negb (Ascii.eqb c "?")) endpoint = true ->
  (length endpoint + 18 <= 2 * PATH_MAX)%nat ->
  RawQuery (request_url PATH_MAX endpoint abs)
  = str "path=" ++ take (2 * PATH_MAX - 18 - length endpoint) (url_encode abs).
Proof.
  intros Hq Hfit. unfold RawQuery, request_url, query_of.
  set (enc := url_encode abs).
  replace (str "http://unix" ++ endpoint ++ str "?" ++ str "path=" ++ enc)
    with ((str "http://unix" ++ endpoint ++ str "?path=") ++ enc)
    by (rewrite <- !app_assoc; reflexivity).
  rewrite take_app.
  rewrite take_ge
    by (rewrite !length_app; change (length (str "http://unix")) with 11%nat;
        change (length (str "?path=")) with 6%nat; lia).
  rewrite !length_app. change (length (str "http://unix")) with 11%nat.
  change (length (str "?path=")) with 6%nat.
  replace (PATH_MAX * 2 - 1 - (11 + (length endpoint + 6)))%nat
    with (2 * PATH_MAX - 18 - length endpoint)%nat by lia.
  replace ((str "http://unix" ++ endpoint ++ str "?path=")
           ++ take (2 * PATH_MAX - 18 - length endpoint) enc)
    with ((str "http://unix" ++ endpoint) ++ "?"%char
          :: str "path=" ++ take (2 * PATH_MAX - 18 - length endpoint) enc)
    by (rewrite <- !app_assoc; reflexivity).
  rewrite Cut_first; [reflexivity|].
  rewrite forallb_app, Hq. reflexivity.
Qed.

Lemma url_encode_unreserved (p : gostring) :
  forallb unreserved p = true -> url_encode p = p.
Proof.
  induction p as [|c p IH]; [reflexivity|].
  cbn [forallb url_encode]. intros H. apply andb_prop in H as [H1 H2].
  rewrite H1, (IH H2). reflexivity.
Qed.

(** The path the handlers read from the URL of the shim. *)
Lemma asked_cases (PATH_MAX : nat) (endpoint abs : gostring) :
  forallb (fun c => negb (Ascii.eqb c "?")) endpoint = true ->
  (length endpoint + 18 <= 2 * PATH_MAX)%nat ->
  let asked := QueryGet (RawQuery (request_url PATH_MAX endpoint abs)) (str "path") in
  ((length endpoint + length (url_encode abs) + 17 < 2 * PATH_MAX)%nat -> asked = abs)
  /\ ((2 * PATH_MAX <= length endpoint + length (url_encode abs) + 17)%nat ->
        exists j : nat, (j < length abs)%nat /\ asked = take j abs).
Proof.
  intros Hq Hfit asked. subst asked. rewrite (RawQuery_request _ _ _ Hq Hfit).
  set (k := (2 * PATH_MAX - 18 - length endpoint)%nat).
  rewrite query_get_value by apply forallb_take, url_encode_safe.
  split.
  - intros H. rewrite take_ge by (subst k; lia). rewrite url_encode_roundtrip. reflexivity.
  - intros H. destruct (unescape_prefix abs k) as (j & Hj & Hlt & Hd).
    assert (j < length abs)%nat as Hj' by (apply Hlt; subst k; lia).
    destruct Hd as [-> | ->].
    + exists j. auto.
    + exists O. split; [lia|reflexivity].
Qed.

End URLCutFacts.

Example capacity_message :
  IPCHandlers.Error (CapacityError 100 150) = str "cache capacity 100 bytes exceeded by 150"
  /\ IPCHandlers.itoa (2 ^ 63 - 1) = str "9223372036854775807"
  /\ IPCHandlers.itoa (-5) = str "-5".
Proof. vm_compute. repeat split. Qed.

Section ReadClaims.
Import GoStrings GoPath Objectstore RemoteFS Cache CacheFacts CacheSpec RemoteRead ReadFacts.
Variable sha256hex : gostring -> gostring.

(** X23.  [ReadFile] through the cache, for a path [sanitize] accepts.  It
    always returns (no entry is dereferenced that is missing), and keeps
    the invariant and the quota of the cache.  The root is refused as a
    directory without touching cache or disk.  A handle names the file of
    the entry now resident for the key, which heads the list.  A key
    already resident is served from the cache whatever the store would
    answer: nothing is fetched, and nothing is evicted or written.  For a
    missing key the store does not have, the error is [NotFoundError] with
    the local path, the cache is as before and the temporary file is
    gone. *)
Theorem ReadFile_through_cache (fs : FileSystem) (c : Cache) (d : Disk)
    (local rel : gostring) (o : FetchOutcome) (openErr : option gostring) :
  Inv c -> (0 < maxBytes c -> used c <= maxBytes c) ->
  0 <= fetchSize o -> used c + fetchSize o < 2 ^ 63 ->
  sanitize fs local = Ok rel ->
  exists r c' d',
    ReadFile sha256hex fs c d local o openErr = Some (r, c', d')
    /\ Inv c' /\ maxBytes c' = maxBytes c
    /\ (0 < maxBytes c -> used c' <= maxBytes c)
    /\ (rel = [] ->
          r = Err (Errorf (str "cannot read directory " ++ local)) /\ c' = c /\ d' = d)
    /\ (forall p, r = Ok p ->
          rel <> [] /\ openErr = None /\ head (order c') = Some rel
          /\ exists e, entries c' !! rel = Some e /\ path e = p)
    /\ (forall e, rel <> [] -> entries c !! rel = Some e ->
          d' = d /\ entries c' = entries c /\ used c' = used c
          /\ (openErr = None -> r = Ok (path e)))
    /\ (forall err, rel <> [] -> entries c !! rel = None -> o = FetchFails err ->
          IsNotFound err = true ->
          r = Err (NotFoundError (joinLocal fs rel)) /\ c' = c
          /\ keyPath sha256hex c rel ∉ d').
Proof. apply ReadFile_cases. Qed.

End ReadClaims.

Section BridgeClaims.
Import GoStrings GoPath Objectstore RemoteFS Cache CacheFacts CacheSpec IPC Shim ShimPath
  ShimURL ShimStat ShimDir ShimOpendir RemoteRead IPCHandlers ShimFetch.
Import GoFacts SanitizeFacts FacadeFacts ShimPathFacts ShimJailFacts URLFacts BridgeFacts.
Import ReadFacts Cache.

Variable PATH_MAX : nat.
Variable cwd : option gostring.
Hypothesis Heven : Nat.even PATH_MAX = true.
Hypothesis Hmin : (2 <= PATH_MAX)%nat.
Hypothesis Hcwd : forall c, cwd = Some c -> is_rooted c = true.

Variable s : IPCServer.
Hypothesis Hroot : is_rooted (localRoot (srv_fs s)) = true.
Hypothesis Hlen : (1 < length (localRoot (srv_fs s)))%nat.

(** X24.  [stat] from the shim to the store and back.  For a path the shim
    accepts (root of the daemon = root of the shim, canonical form that
    [TrimSpace] leaves alone, URL within its buffer): the URL carries the
    whole query; [handleStat] reads back the canonical path and runs
    [Stat] on it, with the relative key the shim computed; the root is
    answered without a store call.  The application gets the daemon's
    default mode for what [Stat] found, [ENOENT] when [Stat] returned a
    [NotFoundError], and [EIO] for every other error. *)
Theorem stat_through_daemon {W} (store : ObjectStore W) (path abs rel : gostring)
    (now : Time) (w : World W) :
  path_within_root PATH_MAX (localRoot (srv_fs s)) cwd path = Value (abs, rel) ->
  TrimSpace abs = abs ->
  (length (url_encode abs) + 22 < 2 * PATH_MAX)%nat ->
  let '(r, w1) := Stat store (srv_fs s) abs w in
  let '(resp, w2) := handleStat store s (query_of abs) now w in
  request_url PATH_MAX (str "/stat") abs = str "http://unix/stat?" ++ query_of abs
  /\ sanitize (srv_fs s) abs = Ok rel
  /\ w2 = w1
  /\ (rel = [] -> r = Ok (dirMeta []) /\ calls w1 = calls w)
  /\ match r with
     | Ok m =>
         resp = writeJSON (JSONEntry (entryFromMeta s m now))
         /\ remote_stat_mode linux (reply_of resp) = inr (defaultMode (IsDir m))
     | Err e =>
         resp = writeErrorFor e
         /\ remote_stat_mode linux (reply_of resp)
            = inl (if IPCHandlers.IsNotFound e then ENOENT else EIO)
     end.
Proof.
  intros Hw Ht Hfit.
  pose proof (accepted_sanitize PATH_MAX cwd Heven Hmin Hcwd (srv_fs s) path abs rel
                Hroot Hlen Hw Ht) as Hs.
  assert (abs <> []) as Hne.
  { intros ->. unfold sanitize in Hs. discriminate. }
  unfold handleStat. rewrite (pathOrRoot_query s abs Hne).
  destruct (Stat store (srv_fs s) abs w) as [r w1] eqn:ES.
  assert (Hrootcase : rel = [] -> r = Ok (dirMeta []) /\ calls w1 = calls w).
  { intros ->. unfold Stat in ES. rewrite Hs in ES.
    rewrite bool_decide_true in ES by reflexivity. injection ES as <- <-. auto. }
  destruct r as [m|e].
  - split; [apply (request_url_fits PATH_MAX (str "/stat") abs); cbn [length str]; 
            change (length (str "/stat")) with 5%nat; lia|].
    split; [exact Hs|]. split; [reflexivity|]. split; [exact Hrootcase|].
    split; [reflexivity|].
    unfold remote_stat_mode, reply_of, writeJSON, fetch_remote_meta.
    cbn [status body]. cbn [Z.eqb Pos.eqb negb]. rewrite derive_mode_entry. reflexivity.
  - split; [apply (request_url_fits PATH_MAX (str "/stat") abs);
            change (length (str "/stat")) with 5%nat; lia|].
    split; [exact Hs|]. split; [reflexivity|]. split; [exact Hrootcase|].
    split; [reflexivity|].
    unfold remote_stat_mode, reply_of, fetch_remote_meta.
    rewrite status_writeErrorFor. destruct (IPCHandlers.IsNotFound e); reflexivity.
Qed.


(** X26.  [/cat] for a path the shim accepts.  [handleCat] always answers
    and keeps the invariant and the quota of the cache.  The root gives 500
    ([EIO] in [download_into_temp]).  A 200 carries the file of the entry
    now resident for the key.  A resident key is answered 200 from the
    cache without the store.  A missing key the store does not have gives
    404 with the canonical path in the message ([ENOENT] in the shim), and
    the cache is as before. *)
Theorem cat_through_daemon (sha256hex : gostring -> gostring) (path abs rel : gostring)
    (c : Cache) (d : Disk) (o : FetchOutcome) (openErr : option gostring)
    (lseekErr : option Z) :
  path_within_root PATH_MAX (localRoot (srv_fs s)) cwd path = Value (abs, rel) ->
  TrimSpace abs = abs ->
  (length (url_encode abs) + 21 < 2 * PATH_MAX)%nat ->
  Inv c -> (0 < maxBytes c -> used c <= maxBytes c) ->
  0 <= fetchSize o -> used c + fetchSize o < 2 ^ 63 ->
  exists resp c' d',
    handleCat sha256hex s c d (query_of abs) o openErr = Some (resp, c', d')
    /\ request_url PATH_MAX (str "/cat") abs = str "http://unix/cat?" ++ query_of abs
    /\ Inv c' /\ (0 < maxBytes c -> used c' <= maxBytes c)
    /\ (rel = [] ->
          resp = writeHTTPError 500 (str "cannot read directory " ++ abs)
          /\ download_into_temp (CatAnswer (status resp)) lseekErr = Some EIO
          /\ c' = c /\ d' = d)
    /\ (status resp = 200 ->
          download_into_temp (CatAnswer (status resp)) lseekErr = lseekErr
          /\ head (order c') = Some rel
          /\ exists e, entries c' !! rel = Some e /\ body resp = FileBytes (Cache.path e))
    /\ (forall e, rel <> [] -> entries c !! rel = Some e -> openErr = None ->
          resp = mkResponse 200 (str "application/octet-stream") (FileBytes (Cache.path e))
          /\ d' = d)
    /\ (forall err, rel <> [] -> entries c !! rel = None -> o = FetchFails err ->
          Objectstore.IsNotFound err = true ->
          resp = writeHTTPError 404 (abs ++ str ": No such file or directory")
          /\ download_into_temp (CatAnswer (status resp)) lseekErr = Some ENOENT
          /\ c' = c).
Proof.
  intros Hw Ht Hfit HI Hq Hsz Hsum.
  pose proof (accepted_sanitize PATH_MAX cwd Heven Hmin Hcwd (srv_fs s) path abs rel
                Hroot Hlen Hw Ht) as Hs.
  destruct (accepted_canonical PATH_MAX cwd Heven Hmin Hcwd _ _ _ _ Hw) as (Hclean & Hrt & _).
  pose proof (rooted_not_nil _ Hrt) as Hne.
  pose proof (rooted_not_nil _ Hroot) as Hrne.
  assert (localRoot (srv_fs s) <> [dot]) as Hnd
    by (intros E; rewrite E in Hroot; discriminate).
  assert (Hjoin : rel <> [] -> joinLocal (srv_fs s) rel = abs).
  { intros Hrel. rewrite (joinLocal_canonical (srv_fs s) abs rel Hrne Hnd Hrel Hs).
    unfold canonical. rewrite Ht. exact Hclean. }
  destruct (ReadFile_cases sha256hex (srv_fs s) c d abs rel o openErr HI Hq Hsz Hsum Hs)
    as (r & c' & d' & HR & HI' & _ & Hq' & Hdir & Hok & Hres & Hnf).
  unfold handleCat. rewrite query_roundtrip, (bool_decide_false _ Hne), HR.
  assert (Hurl : request_url PATH_MAX (str "/cat") abs = str "http://unix/cat?" ++ query_of abs).
  { apply (request_url_fits PATH_MAX (str "/cat") abs).
    change (length (str "/cat")) with 4%nat. lia. }
  destruct r as [p|e].
  - destruct (Hok p eq_refl) as (Hrel & Hop & Hhd & e & He & Hp).
    eexists _, c', d'. split; [reflexivity|]. split; [exact Hurl|].
    split; [exact HI'|]. split; [exact Hq'|]. split.
    { intros H. contradiction. }
    split.
    { intros _. split; [reflexivity|]. split; [exact Hhd|]. exists e.
      split; [exact He|]. cbn [body]. rewrite Hp. reflexivity. }
    split.
    { intros e0 _ He0 Hop0. destruct (Hres e0 Hrel He0) as (-> & _ & _ & Hr).
      specialize (Hr Hop0). injection Hr as ->. auto. }
    intros err _ Hk Ho Herr. destruct (Hnf err Hrel Hk Ho Herr) as (? & _). discriminate.
  - eexists _, c', d'. split; [reflexivity|]. split; [exact Hurl|].
    split; [exact HI'|]. split; [exact Hq'|]. split.
    { intros Hrel. destruct (Hdir Hrel) as ([= ->] & -> & ->). repeat split. }
    split.
    { rewrite status_writeErrorFor. destruct (IPCHandlers.IsNotFound e); discriminate. }
    split.
    { intros e0 Hrel He0 Hop0. destruct (Hres e0 Hrel He0) as (_ & _ & _ & Hr).
      specialize (Hr Hop0). discriminate. }
    intros err Hrel Hk Ho Herr. destruct (Hnf err Hrel Hk Ho Herr) as ([= ->] & -> & _).
    rewrite (Hjoin Hrel). unfold writeErrorFor. cbn [IPCHandlers.IsNotFound Error].
    rewrite (bool_decide_false _ Hne). repeat split.
Qed.

End BridgeClaims.

Section URLCutClaims.
Import GoStrings GoPath Objectstore RemoteFS IPC GoURL ShimURL RemoteRead IPCHandlers.
Import URLSpec URLFacts URLCutFacts.
Variable PATH_MAX : nat.

(** X27.  The URL buffer of [perform_http_request] holds [2 * PATH_MAX]
    bytes.  When the URL fits, the handlers read the path that was sent; a
    path of unreserved bytes shorter than [PATH_MAX] always fits.  When it
    does not fit, [snprintf] cuts it and the handlers read a proper prefix
    of the path, never the path: the bytes decoded before the cut, or the
    empty string when the cut falls inside an escape.  On the empty string
    [handleStat] answers for the root directory. *)
Theorem long_path_is_cut (endpoint abs : gostring) :
  forallb (fun c => negb (Ascii.eqb c "?")) endpoint = true ->
  (length endpoint + 18 <= 2 * PATH_MAX)%nat ->
  let url := request_url PATH_MAX endpoint abs in
  let asked := QueryGet (RawQuery url) (str "path") in
  ((length endpoint + length (url_encode abs) + 17 < 2 * PATH_MAX)%nat -> asked = abs)
  /\ (forallb unreserved abs = true -> (length abs < PATH_MAX)%nat ->
        (length endpoint + 17 <= PATH_MAX)%nat -> asked = abs)
  /\ ((2 * PATH_MAX <= length endpoint + length (url_encode abs) + 17)%nat ->
        exists j : nat, (j < length abs)%nat /\ asked = take j abs)
  /\ (asked = [] ->
        forall (W : Type) (store : ObjectStore W) (s : IPCServer) (now : Time) (w : World W),
          sanitize (srv_fs s) (LocalRoot (srv_fs s)) = Ok [] ->
          handleStat store s (RawQuery url) now w
          = (writeJSON (JSONEntry (entryFromMeta s (dirMeta []) now)), w)).
Proof.
  intros Hq Hfit url asked.
  destruct (asked_cases PATH_MAX endpoint abs Hq Hfit) as [H1 H2].
  split; [exact H1|]. split; [|split; [exact H2|]].
  - intros Hu Hl He. apply H1. rewrite (url_encode_unreserved abs Hu). lia.
  - intros Ha W store s now w Hs. unfold handleStat, pathOrRoot.
    fold url. fold asked. rewrite Ha. rewrite bool_decide_true by reflexivity.
    unfold Stat. rewrite Hs. rewrite bool_decide_true by reflexivity. reflexivity.
Qed.

End URLCutClaims.

Lemma ReadFile_through_cache_witness :
  exists c' d',
    RemoteRead.ReadFile Cache.plainName (RemoteFS.New (str "/remote"))
      CacheExamples.residentA CacheExamples.diskA (str "/remote/a")
      (Cache.FetchFails (StoreNotFound (str "a"))) None
    = Some (Ok (str "/cache/a"), c', d').
Proof.
  assert (Hq : 0 < Cache.maxBytes CacheExamples.residentA ->
               Cache.used CacheExamples.residentA <= Cache.maxBytes CacheExamples.residentA)
    by (simpl; lia).
  assert (Hsz : 0 <= CacheSpec.fetchSize (Cache.FetchFails (StoreNotFound (str "a"))))
    by (simpl; lia).
  assert (Hsum : Cache.used CacheExamples.residentA
                 + CacheSpec.fetchSize (Cache.FetchFails (StoreNotFound (str "a"))) < 2 ^ 63)
    by (simpl; lia).
  assert (Hs : RemoteFS.sanitize (RemoteFS.New (str "/remote")) (str "/remote/a")
               = Ok (str "a")) by (vm_compute; reflexivity).
  destruct (ReadFile_through_cache Cache.plainName (RemoteFS.New (str "/remote"))
              CacheExamples.residentA CacheExamples.diskA (str "/remote/a") (str "a")
              (Cache.FetchFails (StoreNotFound (str "a"))) None
              Inv_residentA Hq Hsz Hsum Hs)
    as (r & c' & d' & E & _ & _ & _ & _ & _ & Hres & _).
  assert (Hrel : str "a" <> []) by discriminate.
  destruct (Hres (Cache.mkEntry (str "/cache/a") 60) Hrel (lookup_insert_eq _ _ _))
    as (_ & _ & _ & Hr).
  exists c', d'. rewrite E, (Hr eq_refl). reflexivity.
Defined.

Lemma stat_through_daemon_witness :
  ShimFetch.remote_stat_mode Shim.linux
    (ShimFetch.reply_of
       (fst (IPCHandlers.handleStat TestStores.flatStore BridgeExamples.demoServer
               (ShimURL.query_of (str "/remote/docs/report.txt")) 7 TestStores.start)))
  = inr 33056.
Proof.
  assert (Hcwd : forall c, Some (str "/home/u") = Some c -> GoPath.is_rooted c = true)
    by (intros c [= <-]; reflexivity).
  assert (Hw : ShimPath.path_within_root ShimPath.linux_PATH_MAX (str "/remote")
                 (Some (str "/home/u")) (str "/remote/docs/../docs/report.txt")
               = Value (str "/remote/docs/report.txt", str "docs/report.txt"))
    by (vm_compute; reflexivity).
  assert (Hfit : (length (ShimURL.url_encode (str "/remote/docs/report.txt")) + 22
                  < 2 * ShimPath.linux_PATH_MAX)%nat)
    by (apply Nat.ltb_lt; vm_compute; reflexivity).
  pose proof (stat_through_daemon ShimPath.linux_PATH_MAX (Some (str "/home/u"))
                eq_refl (proj1 (Nat.leb_le 2 ShimPath.linux_PATH_MAX) eq_refl) Hcwd
                BridgeExamples.demoServer eq_refl (proj1 (Nat.ltb_lt 1 7) eq_refl)
                TestStores.flatStore (str "/remote/docs/../docs/report.txt")
                (str "/remote/docs/report.txt") (str "docs/report.txt") 7 TestStores.start
                Hw eq_refl Hfit) as H.
  assert (ES : RemoteFS.Stat TestStores.flatStore (IPC.srv_fs BridgeExamples.demoServer)
                 (str "/remote/docs/report.txt") TestStores.start
               = (Ok (TestStores.file "docs/report.txt" 42),
                  RemoteFS.mkWorld tt
                    [RemoteFS.CallHead (str "docs/report.txt")
                       (Ok (TestStores.file "docs/report.txt" 42))]))
    by (vm_compute; reflexivity).
  rewrite ES in H.
  destruct (IPCHandlers.handleStat TestStores.flatStore BridgeExamples.demoServer
              (ShimURL.query_of (str "/remote/docs/report.txt")) 7 TestStores.start)
    as [resp w2].
  destruct H as (_ & _ & _ & _ & _ & Hm). exact Hm.
Defined.


Lemma cat_through_daemon_witness :
  exists c' d',
    IPCHandlers.handleCat Cache.plainName BridgeExamples.demoServer
      CacheExamples.residentA CacheExamples.diskA
      (ShimURL.query_of (str "/remote/a")) (Cache.FetchFails (StoreNotFound (str "a"))) None
    = Some (IPCHandlers.mkResponse 200 (str "application/octet-stream")
              (IPCHandlers.FileBytes (str "/cache/a")), c', d').
Proof.
  assert (Hcwd : forall c, Some (str "/home/u") = Some c -> GoPath.is_rooted c = true)
    by (intros c [= <-]; reflexivity).
  assert (Hw : ShimPath.path_within_root ShimPath.linux_PATH_MAX (str "/remote")
                 (Some (str "/home/u")) (str "/remote/./a")
               = Value (str "/remote/a", str "a"))
    by (vm_compute; reflexivity).
  assert (Hfit : (length (ShimURL.url_encode (str "/remote/a")) + 21
                  < 2 * ShimPath.linux_PATH_MAX)%nat)
    by (apply Nat.ltb_lt; vm_compute; reflexivity).
  assert (Hq : 0 < Cache.maxBytes CacheExamples.residentA ->
               Cache.used CacheExamples.residentA <= Cache.maxBytes CacheExamples.residentA)
    by (simpl; lia).
  assert (Hsz : 0 <= CacheSpec.fetchSize (Cache.FetchFails (StoreNotFound (str "a"))))
    by (simpl; lia).
  assert (Hsum : Cache.used CacheExamples.residentA
                 + CacheSpec.fetchSize (Cache.FetchFails (StoreNotFound (str "a"))) < 2 ^ 63)
    by (simpl; lia).
  destruct (cat_through_daemon ShimPath.linux_PATH_MAX (Some (str "/home/u"))
              eq_refl (proj1 (Nat.leb_le 2 ShimPath.linux_PATH_MAX) eq_refl) Hcwd
              BridgeExamples.demoServer eq_refl (proj1 (Nat.ltb_lt 1 7) eq_refl)
              Cache.plainName (str "/remote/./a") (str "/remote/a") (str "a")
              CacheExamples.residentA CacheExamples.diskA
              (Cache.FetchFails (StoreNotFound (str "a"))) None None
              Hw eq_refl Hfit Inv_residentA Hq Hsz Hsum)
    as (resp & c' & d' & E & _ & _ & _ & _ & _ & Hres & _).
  assert (Hrel : str "a" <> []) by discriminate.
  destruct (Hres (Cache.mkEntry (str "/cache/a") 60) Hrel (lookup_insert_eq _ _ _) eq_refl)
    as (Hr & _).
  exists c', d'. rewrite E, Hr. reflexivity.
Defined.

Lemma long_path_is_cut_witness :
  ShimURL.request_url BridgeExamples.small_PATH_MAX (str "/stat") (str "/r/a b c")
  = str "http://unix/stat?path=/r/a%20b%"
  /\ IPCHandlers.handleStat TestStores.flatStore BridgeExamples.demoServer
       (GoURL.RawQuery
          (ShimURL.request_url BridgeExamples.small_PATH_MAX (str "/stat") (str "/r/a b c")))
       7 TestStores.start
     = (IPCHandlers.writeJSON
          (IPCHandlers.JSONEntry
             (IPC.entryFromMeta BridgeExamples.demoServer (Objectstore.dirMeta []) 7)),
        TestStores.start).
Proof.
  split; [reflexivity|].
  assert (Hfit : (length (str "/stat") + 18 <= 2 * BridgeExamples.small_PATH_MAX)%nat)
    by (apply Nat.leb_le; vm_compute; reflexivity).
  destruct (long_path_is_cut BridgeExamples.small_PATH_MAX (str "/stat") (str "/r/a b c")
              eq_refl Hfit) as (_ & _ & _ & H).
  apply (H eq_refl unit TestStores.flatStore BridgeExamples.demoServer 7 TestStores.start).
  vm_compute. reflexivity.
Defined.

(** * The shim: descriptor-relative paths and access *)

Module ShimAtFacts.
Import GoStrings GoPath ShimPath ShimAt PathSpec GoFacts SanitizeFacts.
Import ShimPathFacts ShimJailFacts.

Section WithLimits.
Variable PATH_MAX : nat.
Variable cwd : option gostring.
Hypothesis Heven : Nat.even PATH_MAX = true.
Hypothesis Hmin : (2 <= PATH_MAX)%nat.
Hypothesis Hcwd : forall c, cwd = Some c -> is_rooted c = true.

(** [canonicalize_path] returns a value or refuses. *)
Lemma canonicalize_value_or_refused (p : gostring) :
  canonicalize_path PATH_MAX cwd p PATH_MAX <> OutOfBounds.
Proof.
  pose proof (canonicalize_cases PATH_MAX cwd p Heven Hmin Hcwd) as H.
  destruct (scratch_of PATH_MAX cwd p); rewrite H; discriminate.
Qed.

(** A canonical path is canonicalized to itself. *)
Lemma canonicalize_again (p n : gostring) :
  canonicalize_path PATH_MAX cwd p PATH_MAX = Value n ->
  canonicalize_path PATH_MAX cwd n PATH_MAX = Value n.
Proof.
  intros Hp. destruct (canonical_value PATH_MAX cwd Heven Hmin Hcwd p n Hp) as (Hc & Hr & Hl).
  pose proof (canonicalize_cases PATH_MAX cwd n Heven Hmin Hcwd) as H.
  unfold scratch_of in H. rewrite Hr in H. rewrite take_ge in H by lia.
  rewrite Hc in H. exact H.
Qed.

(** So the second look of the at-calls changes nothing. *)
Lemma within_root_again (root p n : gostring) :
  canonicalize_path PATH_MAX cwd p PATH_MAX = Value n ->
  path_within_root PATH_MAX root cwd n = path_within_root PATH_MAX root cwd p.
Proof.
  intros Hp. rewrite !path_within_root_eq, Hp, (canonicalize_again p n Hp). reflexivity.
Qed.

Lemma within_root_refused (root p : gostring) :
  canonicalize_path PATH_MAX cwd p PATH_MAX = Refused ->
  path_within_root PATH_MAX root cwd p = Refused.
Proof. intros Hp. rewrite path_within_root_eq, Hp. reflexivity. Qed.

(** The at-test on a path that [resolve_absolute] canonicalizes as it
    stands. *)
Lemma at_path_via (root p : gostring) :
  match canonicalize_path PATH_MAX cwd p PATH_MAX with
  | Value abs_path =>
      match path_within_root PATH_MAX root cwd abs_path with
      | Value (abs_path, _) => Value abs_path
      | Refused => Refused
      | OutOfBounds => OutOfBounds
      end
  | Refused => Refused
  | OutOfBounds => OutOfBounds
  end = plain_path PATH_MAX root cwd p.
Proof.
  unfold plain_path.
  destruct (canonicalize_path PATH_MAX cwd p PATH_MAX) as [n| |] eqn:E.
  - rewrite (within_root_again root p n E). reflexivity.
  - rewrite (within_root_refused root p E). reflexivity.
  - destruct (canonicalize_value_or_refused p E).
Qed.

End WithLimits.

End ShimAtFacts.

Section ShimAtClaims.
Import GoStrings GoPath ShimPath ShimAt PathSpec GoFacts SanitizeFacts.
Import ShimPathFacts ShimJailFacts ShimAtFacts.

Variable PATH_MAX : nat.
Variable cwd : option gostring.
Hypothesis Heven : Nat.even PATH_MAX = true.
Hypothesis Hmin : (2 <= PATH_MAX)%nat.
Hypothesis Hcwd : forall c, cwd = Some c -> is_rooted c = true.

(** X28.  The calls that take a directory descriptor ([openat], [fstatat],
    [statx], [faccessat]) are jailed like the plain ones.  With an absolute
    path or [AT_FDCWD] the test is that of [open] on the same path: looking
    at the canonical path a second time changes nothing.  With a relative
    path and a descriptor whose target is the absolute path [target], the
    test is that of [open] on the cleaned target, a separator and the
    path, unless these do not fit [PATH_MAX] bytes; then, as when the
    target cannot be read or the path is [NULL], the call goes to the real
    function.  No buffer is overrun. *)
Theorem at_calls_jail (root : gostring) (dirfd : Z) (path : gostring)
    (link : option gostring) :
  (is_rooted path = true \/ dirfd = AT_FDCWD ->
     at_path PATH_MAX root cwd dirfd (Some path) link = plain_path PATH_MAX root cwd path)
  /\ (is_rooted path = false -> dirfd <> AT_FDCWD ->
        forall target, link = Some target -> is_rooted target = true ->
          let base := Clean (take (PATH_MAX - 1) target) in
          at_path PATH_MAX root cwd dirfd (Some path) link
          = if (PATH_MAX <=? length base + 1 + length path)%nat then Refused
            else plain_path PATH_MAX root cwd (base ++ slash :: path))
  /\ (is_rooted path = false -> dirfd <> AT_FDCWD -> link = None ->
        at_path PATH_MAX root cwd dirfd (Some path) link = Refused)
  /\ at_path PATH_MAX root cwd dirfd None link = Refused
  /\ at_path PATH_MAX root cwd dirfd (Some path) link <> OutOfBounds.
Proof.
  assert (Hpos : PATH_MAX <> O) by lia.
  split; [|split; [|split; [|split]]].
  - intros H. unfold at_path, resolve_absolute.
    destruct (is_rooted path) eqn:Er; [apply (at_path_via PATH_MAX cwd Heven Hmin Hcwd)|].
    destruct H as [H| ->]; [discriminate|]. rewrite Z.eqb_refl.
    apply (at_path_via PATH_MAX cwd Heven Hmin Hcwd).
  - intros Er Hd target -> Ht base. unfold at_path, resolve_absolute, dirfd_path.
    rewrite Er, (proj2 (Z.eqb_neq _ _) Hd). cbn [orb].
    rewrite (bool_decide_false _ Hpos).
    pose proof (canonicalize_cases PATH_MAX cwd (take (PATH_MAX - 1) target)
                  Heven Hmin Hcwd) as Hc.
    unfold scratch_of in Hc. rewrite is_rooted_take, Ht in Hc by lia.
    rewrite take_take, Nat.min_id in Hc. rewrite Hc. fold base.
    destruct (PATH_MAX <=? length base + 1 + length path)%nat; [reflexivity|].
    apply (at_path_via PATH_MAX cwd Heven Hmin Hcwd).
  - intros Er Hd ->. unfold at_path, resolve_absolute, dirfd_path.
    rewrite Er, (proj2 (Z.eqb_neq _ _) Hd). cbn [orb].
    rewrite (bool_decide_false _ Hpos). reflexivity.
  - reflexivity.
  - unfold at_path, resolve_absolute, dirfd_path.
    assert (Hvia : forall p,
              match canonicalize_path PATH_MAX cwd p PATH_MAX with
              | Value abs_path =>
                  match path_within_root PATH_MAX root cwd abs_path with
                  | Value (abs_path, _) => Value abs_path
                  | Refused => Refused
                  | OutOfBounds => OutOfBounds
                  end
              | Refused => Refused
              | OutOfBounds => OutOfBounds
              end <> OutOfBounds).
    { intros p. rewrite (at_path_via PATH_MAX cwd Heven Hmin Hcwd root p). unfold plain_path.
      rewrite path_within_root_eq.
      pose proof (canonicalize_value_or_refused PATH_MAX cwd Heven Hmin Hcwd p) as Hn.
      destruct (canonicalize_path PATH_MAX cwd p PATH_MAX) as [n| |]; [|discriminate|congruence].
      case_bool_decide; [discriminate|].
      destruct (HasPrefix n (root ++ [slash])); [discriminate|].
      destruct (1 <? length root)%nat; [discriminate|].
      destruct (HasPrefix n root); discriminate. }
    destruct (is_rooted path); [apply Hvia|].
    destruct (dirfd =? AT_FDCWD); [apply Hvia|]. cbn [orb].
    rewrite (bool_decide_false _ Hpos).
    destruct link as [target|]; [|discriminate].
    pose proof (canonicalize_value_or_refused PATH_MAX cwd Heven Hmin Hcwd
                  (take (PATH_MAX - 1) target)) as Hn.
    destruct (canonicalize_path PATH_MAX cwd (take (PATH_MAX - 1) target) PATH_MAX)
      as [base| |]; [|discriminate|congruence].
    destruct (PATH_MAX <=? length base + 1 + length path)%nat; [discriminate|].
    apply Hvia.
Qed.

End ShimAtClaims.

Lemma at_calls_jail_witness :
  ShimAt.at_path ShimPath.linux_PATH_MAX (str "/remote") (Some (str "/home/u")) 7
    (Some (str "../a.txt")) (Some (str "/remote/docs"))
  = Value (str "/remote/a.txt")
  /\ ShimAt.at_path ShimPath.linux_PATH_MAX (str "/remote") (Some (str "/home/u")) 7
       (Some (str "../../etc/passwd")) (Some (str "/remote/docs"))
     = Refused.
Proof.
  assert (Hcwd : forall c, Some (str "/home/u") = Some c -> GoPath.is_rooted c = true)
    by (intros c [= <-]; reflexivity).
  assert (Hd : 7 <> ShimAt.AT_FDCWD) by discriminate.
  split.
  - destruct (at_calls_jail ShimPath.linux_PATH_MAX (Some (str "/home/u"))
                eq_refl (proj1 (Nat.leb_le 2 ShimPath.linux_PATH_MAX) eq_refl) Hcwd
                (str "/remote") 7 (str "../a.txt") (Some (str "/remote/docs")))
      as (_ & H & _).
    rewrite (H eq_refl Hd (str "/remote/docs") eq_refl eq_refl).
    vm_compute. reflexivity.
  - destruct (at_calls_jail ShimPath.linux_PATH_MAX (Some (str "/home/u"))
                eq_refl (proj1 (Nat.leb_le 2 ShimPath.linux_PATH_MAX) eq_refl) Hcwd
                (str "/remote") 7 (str "../../etc/passwd") (Some (str "/remote/docs")))
      as (_ & H & _).
    rewrite (H eq_refl Hd (str "/remote/docs") eq_refl eq_refl).
    vm_compute. reflexivity.
Defined.

Section ShimAccessClaims.
Import GoStrings Objectstore IPC Shim ShimPath ShimStat ShimDir ShimOpendir IPCHandlers
  ShimFetch ShimAccess.

(** X29.  [access] under the root.  Asking for write permission fails with
    [EROFS] and the daemon is not asked.  Otherwise the answer is that of
    [/stat] alone: 0 when the metadata arrives, whatever permission was
    asked for.  So for a file the daemon describes, [access] with [X_OK]
    returns 0, although the mode [stat] reports for it, 0100440, has no
    execute bit. *)
Theorem access_ignores_mode (PATH_MAX : nat) (root : gostring) (cwd : option gostring)
    (path abs rel : gostring) (mode : Z) (reply : StatReply) :
  path_within_root PATH_MAX root cwd path = Value (abs, rel) ->
  (Z.land mode W_OK <> 0 ->
     access linux PATH_MAX root cwd path mode reply = Answered (-1, Some (EROFS linux), false))
  /\ (Z.land mode W_OK = 0 ->
        access linux PATH_MAX root cwd path mode reply
        = match fetch_remote_meta reply with
          | inl errno => Answered (-1, Some errno, true)
          | inr _ => Answered (0, None, true)
          end)
  /\ (forall (s : IPCServer) (m : FileMeta) (now : Time),
        reply = reply_of (writeJSON (JSONEntry (entryFromMeta s m now))) ->
        access linux PATH_MAX root cwd path X_OK reply = Answered (0, None, true)
        /\ (IsDir m = false ->
              remote_stat_mode linux reply = inr (octal [1; 0; 0; 4; 4; 0])
              /\ Z.land (octal [1; 0; 0; 4; 4; 0]) (octal [1; 1; 1]) = 0)).
Proof.
  intros Hw. unfold access. rewrite Hw. split; [|split].
  - intros H. rewrite (proj2 (Z.eqb_neq _ _) H). reflexivity.
  - intros H. rewrite H. reflexivity.
  - intros s m now ->. split; [reflexivity|].
    intros Hd. destruct m as [p sz et lm isdir]. cbn in Hd. subst isdir.
    split; reflexivity.
Qed.

End ShimAccessClaims.

Lemma access_ignores_mode_witness :
  ShimAccess.access Shim.linux ShimPath.linux_PATH_MAX (str "/remote") (Some (str "/home/u"))
    (str "/remote/a.txt") ShimAccess.X_OK
    (ShimFetch.reply_of
       (IPCHandlers.writeJSON
          (IPCHandlers.JSONEntry
             (IPC.entryFromMeta BridgeExamples.demoServer (TestStores.file "a.txt" 5) 7))))
  = ShimDir.Answered (0, None, true).
Proof.
  assert (Hw : ShimPath.path_within_root ShimPath.linux_PATH_MAX (str "/remote")
                 (Some (str "/home/u")) (str "/remote/a.txt")
               = Value (str "/remote/a.txt", str "a.txt")) by (vm_compute; reflexivity).
  destruct (access_ignores_mode ShimPath.linux_PATH_MAX (str "/remote") (Some (str "/home/u"))
              (str "/remote/a.txt") (str "/remote/a.txt") (str "a.txt") ShimAccess.X_OK
              (ShimFetch.reply_of
                 (IPCHandlers.writeJSON
                    (IPCHandlers.JSONEntry
                       (IPC.entryFromMeta BridgeExamples.demoServer
                          (TestStores.file "a.txt" 5) 7)))) Hw) as (_ & _ & H).
  exact (proj1 (H BridgeExamples.demoServer (TestStores.file "a.txt" 5) 7 eq_refl)).
Defined.
